(** * csv2pin backend: the deferred publish scheduler of [src/index.js]

    A shallow embedding of the scheduler-related code of [src/index.js]:
    the due-job query and the per-pin executor ([processScheduledPins],
    [processScheduledPin], [handlePinError], [deductUserCredits]), the
    analytics refresh ([syncUserAnalytics] and the manual sync handler) and
    the HTTP handlers on [scheduled_pins] (schedule, list, update, cancel,
    permanent delete). Around them: the automatic analytics run
    ([processAnalyticsSync]), the token lookup
    ([getPinterestAccessTokenForUser]), the Stripe webhook behind its body
    parsers, with its three handlers on [profiles], the save and delete
    handlers of
    [custom_templates], and the timers ([startScheduler],
    [startAnalyticsSync], [stopScheduler]).

    Conventions of the embedding.
    - The table [scheduled_pins] is a finite map from the primary key [id] to
      the row's columns; the map key plays the role of [pin.id].
    - Instants are [Z] milliseconds since the epoch; every [new Date()] of
      the source is an explicit clock argument. [setMinutes] and [setHours]
      work on the local clock of the host, whose zone offsets ([LocalTZA])
      are part of the world.
    - Values that come from a JSON request body are [jsvalue]s, with the
      JavaScript notion of truthiness; JavaScript numbers are binary64
      floats ([PrimFloat]).
    - Calls that leave the process (the Pinterest API, the clock, the auth
      service) are inputs of the functions that make them; so is, for each
      call to the store, whether the store reports an error, also where
      the source does not look at the result.
    - Columns that no modelled branch reads ([updated_at], [posted_at],
      [posted_hour], [image_url], [board_id], [link], ...) and the mirror
      table [user_images] are left out. *)

From Stdlib Require Import ZArith Floats Ascii.
From stdpp Require Import gmap strings list fin_maps sorting.

Local Open Scope Z_scope.
Set Warnings "-register-all".

(** ** JavaScript values *)

Inductive jsvalue : Type :=
  | JUndefined
  | JNull
  | JBool (b : bool)
  | JNum (x : float)
  | JStr (s : string)
  | JArr (items : list jsvalue)
  | JObj (fields : list (string * jsvalue)).

(** [ToBoolean]: the test of [if (v)], [!v] and [v || d]. *)
Definition truthy (v : jsvalue) : bool :=
  match v with
  | JUndefined | JNull => false
  | JBool b => b
  | JNum x => negb (PrimFloat.eqb x 0%float) && negb (PrimFloat.is_nan x)
  | JStr s => negb (String.eqb s "")
  | JArr _ | JObj _ => true
  end.

(** [v === 'lit'] for a string literal. *)
Definition js_is (lit : string) (v : jsvalue) : bool :=
  match v with
  | JStr s => String.eqb s lit
  | _ => false
  end.

(** ** Rows of [scheduled_pins] *)

(** The metrics columns as the refresh sends them: the five counters are
    the values read from the API's answer, the three rates are numbers. *)
Record metrics : Type := {
  impressions : jsvalue;
  outbound_clicks : jsvalue;
  saves : jsvalue;
  pin_clicks : jsvalue;
  closeup_views : jsvalue;
  engagement_rate : float;
  click_through_rate : float;
  save_rate : float
}.

Record pin : Type := {
  user_id : string;
  title : jsvalue;
  description : jsvalue;
  timezone : jsvalue;
  status : jsvalue;
  scheduled_for : Z;
  is_recurring : jsvalue;
  recurrence_pattern : jsvalue;
  retry_count : option Z;
  next_retry_at : option Z;
  error_message : option string;
  credits_deducted : bool;
  pinterest_pin_id : option string;
  access_token : option string;          (* joined pinterest_accounts(access_token) *)
  pin_metrics : option metrics;
  metrics_last_updated : option Z
}.

Definition set_status (s : jsvalue) (p : pin) : pin :=
  {| user_id := user_id p; title := title p; description := description p;
     timezone := timezone p; status := s; scheduled_for := scheduled_for p;
     is_recurring := is_recurring p; recurrence_pattern := recurrence_pattern p;
     retry_count := retry_count p; next_retry_at := next_retry_at p;
     error_message := error_message p; credits_deducted := credits_deducted p;
     pinterest_pin_id := pinterest_pin_id p; access_token := access_token p;
     pin_metrics := pin_metrics p; metrics_last_updated := metrics_last_updated p |}.

Definition set_retry (rc : option Z) (nra : option Z) (msg : option string) (p : pin) : pin :=
  {| user_id := user_id p; title := title p; description := description p;
     timezone := timezone p; status := status p; scheduled_for := scheduled_for p;
     is_recurring := is_recurring p; recurrence_pattern := recurrence_pattern p;
     retry_count := rc; next_retry_at := nra;
     error_message := msg; credits_deducted := credits_deducted p;
     pinterest_pin_id := pinterest_pin_id p; access_token := access_token p;
     pin_metrics := pin_metrics p; metrics_last_updated := metrics_last_updated p |}.

Definition set_pinterest_pin_id (i : option string) (p : pin) : pin :=
  {| user_id := user_id p; title := title p; description := description p;
     timezone := timezone p; status := status p; scheduled_for := scheduled_for p;
     is_recurring := is_recurring p; recurrence_pattern := recurrence_pattern p;
     retry_count := retry_count p; next_retry_at := next_retry_at p;
     error_message := error_message p; credits_deducted := credits_deducted p;
     pinterest_pin_id := i; access_token := access_token p;
     pin_metrics := pin_metrics p; metrics_last_updated := metrics_last_updated p |}.

Definition set_credits_deducted (b : bool) (p : pin) : pin :=
  {| user_id := user_id p; title := title p; description := description p;
     timezone := timezone p; status := status p; scheduled_for := scheduled_for p;
     is_recurring := is_recurring p; recurrence_pattern := recurrence_pattern p;
     retry_count := retry_count p; next_retry_at := next_retry_at p;
     error_message := error_message p; credits_deducted := b;
     pinterest_pin_id := pinterest_pin_id p; access_token := access_token p;
     pin_metrics := pin_metrics p; metrics_last_updated := metrics_last_updated p |}.

(** [.update(fields).eq('id', id)]: the row with that key, if any, gets the
    fields; no row, no change and no error. *)
Definition update_eq_id (f : pin → pin) (id : string) (db : gmap string pin) : gmap string pin :=
  alter f id db.

(** ** The JavaScript host *)

(** What the code reads from the host it runs on: the local time zone, as
    ECMAScript's [LocalTZA(t, isUTC)] (the offset of local time from UTC in
    milliseconds, at the UTC instant [t] when [isUTC] and for the local
    time [t] otherwise), [Date.prototype.toLocaleString] and [String(v)]
    for a value that is no string. *)
Record runtime : Type := {
  LocalTZA : Z → bool → Z;
  toLocaleString : Z → string;
  String_of : jsvalue → string
}.

Definition LocalTime (rt : runtime) (t : Z) : Z := t + LocalTZA rt t true.
Definition UTC (rt : runtime) (t : Z) : Z := t - LocalTZA rt t false.

(** [d.setMinutes(d.getMinutes() + m)] and [d.setHours(d.getHours() + h)]
    on the instant [now]: the setters work on local time, so the local
    time of [now] is moved and the result read back as an instant.
    [TimeClip], which acts only beyond the year 275760, is left out: [now]
    is a reading of the clock. *)
Definition add_local (rt : runtime) (now ms : Z) : Z := UTC rt (LocalTime rt now + ms).
Definition add_minutes (rt : runtime) (now m : Z) : Z := add_local rt now (m * 60000).
Definition add_hours (rt : runtime) (now h : Z) : Z := add_local rt now (h * 3600000).

(** ** Retry policy: [handlePinError] *)

Definition maxRetries : Z := 3.

(** [5 * Math.pow(3, currentRetryCount)] as [setMinutes] takes it: whole
    minutes, the fraction that a negative count gives being dropped. *)
Definition backoff_minutes (currentRetryCount : Z) : Z :=
  if 0 <=? currentRetryCount then 5 * 3 ^ currentRetryCount
  else 5 / 3 ^ (- currentRetryCount).

(** [handlePinError(pinId, errorMessage, currentRetryCount)]. [now] is its
    clock reading; the outcome of its write is not looked at, and
    [updateError] says whether the store refused it. *)
Definition handlePinError (rt : runtime) (now : Z) (pinId errorMessage : string)
    (currentRetryCount : Z) (updateError : bool) (db : gmap string pin)
    : gmap string pin :=
  let nextRetryCount := currentRetryCount + 1 in
  if updateError then db
  else if nextRetryCount <=? maxRetries then
    let backoffMinutes := backoff_minutes currentRetryCount in
    let nextRetryAt := add_minutes rt now backoffMinutes in
    update_eq_id
      (λ p, set_retry (Some nextRetryCount) (Some nextRetryAt) (Some errorMessage)
              (set_status (JStr "failed") p))
      pinId db
  else
    update_eq_id
      (λ p, set_retry (retry_count p) None
              (Some ("Max retries reached: " +:+ errorMessage))
              (set_status (JStr "failed") p))
      pinId db.

(** ** The due-job query of [processScheduledPins] *)

(** The three filters of the query; [now1] and [now2] are its two clock
    readings, in source order. *)
Definition is_due (now1 now2 : Z) (p : pin) : bool :=
  (js_is "scheduled" (status p) || js_is "failed" (status p))
  && (scheduled_for p <=? now1)
  && match next_retry_at p with
     | None => true
     | Some t => t <=? now2
     end.

Definition by_scheduled_for (r1 r2 : string * pin) : Prop :=
  scheduled_for r1.2 ≤ scheduled_for r2.2.

Global Instance by_scheduled_for_dec r1 r2 : Decision (by_scheduled_for r1 r2).
Proof. unfold by_scheduled_for. apply _. Defined.

Global Instance by_scheduled_for_total : Total by_scheduled_for.
Proof. intros r1 r2. unfold by_scheduled_for. lia. Qed.

Global Instance by_scheduled_for_trans : Transitive by_scheduled_for.
Proof. intros r1 r2 r3. unfold by_scheduled_for. lia. Qed.

Definition batch_limit : nat := 10.

Definition fetchDue (now1 now2 : Z) (db : gmap string pin) : list (string * pin) :=
  take batch_limit
    (merge_sort by_scheduled_for
       (filter (λ r, is_due now1 now2 r.2 = true) (map_to_list db))).

(** ** The publish executor: [processScheduledPin] and [deductUserCredits] *)

(** What the process does to the outside, in order. [EvDebit id u a] is the
    call [deductUserCredits(u, a)] made while processing pin [id]; [EvFlag id]
    is the write [update({credits_deducted: true}).eq('id', id)]. *)
Inductive event : Type :=
  | EvPublish (id : string)
  | EvDebit (id user : string) (amount : Z)
  | EvFlag (id : string).

(** The tables, the calls made to the outside so far, and the host the
    process runs on. *)
Record world : Type := {
  pins : gmap string pin;
  profiles : gmap string (option Z);       (* profiles.credits_remaining *)
  trace : list event;
  host : runtime
}.

(** [deductUserCredits(userId, amount)]; [fetchError] and [updateError] are
    the errors of its two store calls. A user without a profile row makes
    [.single()] fail. *)
Definition deductUserCredits (userId : string) (amount : Z)
    (fetchError updateError : bool)
    (pr : gmap string (option Z)) : gmap string (option Z) :=
  match (if fetchError then None else pr !! userId) with
  | None => pr
  | Some credits_remaining =>
      let newCredits := Z.max 0 (default 0 credits_remaining - amount) in
      if updateError then pr
      else <[userId := Some newCredits]> pr
  end.

(** The answer of the Pinterest API to the POST: accepted, with [pinData.id]
    ([None] when the answer carries no id, [Some None] for [null]), or
    refused with a message ([Refused] also stands for an exception caught
    by the handler's [catch]). *)
Inductive api_answer : Type :=
  | Created (pinData_id : option (option string))
  | Refused (errorMessage : string).

(** What one attempt meets outside the process: the answer of the API and,
    for each store call the attempt can make, whether the store refuses
    it: the claiming write, the write of [posted], the two calls of
    [deductUserCredits], the write of the credits flag and the write of
    [handlePinError]. *)
Record attempt : Type := {
  claim_error : bool;
  api : api_answer;
  posted_error : bool;
  profile_fetch_error : bool;
  profile_update_error : bool;
  flag_error : bool;
  failed_error : bool
}.

(** The attempt whose claim the store refuses, and the attempts in which
    the store takes every write. *)
Definition ClaimError : attempt :=
  {| claim_error := true; api := Refused ""; posted_error := false;
     profile_fetch_error := false; profile_update_error := false;
     flag_error := false; failed_error := false |}.

Definition ApiOk (pinData_id : option string) : attempt :=
  {| claim_error := false; api := Created (Some pinData_id); posted_error := false;
     profile_fetch_error := false; profile_update_error := false;
     flag_error := false; failed_error := false |}.

Definition ApiFail (errorMessage : string) : attempt :=
  {| claim_error := false; api := Refused errorMessage; posted_error := false;
     profile_fetch_error := false; profile_update_error := false;
     flag_error := false; failed_error := false |}.

Definition has_token (p : pin) : bool :=
  match access_token p with
  | Some t => negb (String.eqb t "")
  | None => false
  end.

(** The write of a success. An id that is [undefined] drops out of the
    update, and the column keeps what it held. *)
Definition mark_posted (pinData_id : option (option string)) (p : pin) : pin :=
  set_pinterest_pin_id
    (match pinData_id with
     | Some id => id
     | None => pinterest_pin_id p
     end)
    (set_retry (Some 0) None None (set_status (JStr "posted") p)).

(** The claiming write, [update({status: 'posting'}).eq('id', pin.id)], and
    its check [if (updateError) return]: [None] when the store reports an
    error, otherwise the table after the write. *)
Definition claim_pin (att : attempt) (id : string) (db : gmap string pin)
    : option (gmap string pin) :=
  if claim_error att then None
  else Some (update_eq_id (set_status (JStr "posting")) id db).

(** [None] is an exception leaving the function: [pin.title.substring] is
    evaluated before the [try]. [r] is the row as the query returned it. *)
Definition processScheduledPin (now : Z) (att : attempt) (r : string * pin)
    (w : world) : option world :=
  let id := r.1 in
  let pin := r.2 in
  match title pin with
  | JStr _ =>
      match claim_pin att id (pins w) with
      | None => Some w
      | Some db1 =>
          if negb (has_token pin) then
            Some {| pins := handlePinError (host w) now id "No Pinterest access token found"
                              0 (failed_error att) db1;
                    profiles := profiles w; trace := trace w; host := host w |}
          else
            match api att with
            | Created pinData_id =>
                let db2 := if posted_error att then db1
                           else update_eq_id (mark_posted pinData_id) id db1 in
                if negb (credits_deducted pin) then
                  Some {| pins := if flag_error att then db2
                                  else update_eq_id (set_credits_deducted true) id db2;
                          profiles := deductUserCredits (user_id pin) 1
                                        (profile_fetch_error att) (profile_update_error att)
                                        (profiles w);
                          trace := trace w
                                   ++ [EvPublish id; EvDebit id (user_id pin) 1; EvFlag id];
                          host := host w |}
                else
                  Some {| pins := db2; profiles := profiles w;
                          trace := trace w ++ [EvPublish id]; host := host w |}
            | Refused errorMessage =>
                Some {| pins := handlePinError (host w) now id errorMessage
                                  (default 0 (retry_count pin)) (failed_error att) db1;
                        profiles := profiles w;
                        trace := trace w ++ [EvPublish id]; host := host w |}
            end
      end
  | _ => None
  end.

(** ** The scheduler loop: [processScheduledPins] *)

(** The inputs of one run: the two clock readings of the query, whether the
    query fails, and per fetched pin the outcome of its attempt and the
    clock reading of its error handler. *)
Record tick : Type := {
  now1 : Z;
  now2 : Z;
  fetchError : bool;
  outcome : string → attempt;
  error_time : string → Z
}.

Fixpoint process_batch (tk : tick) (pinsToPost : list (string * pin)) (w : world) : world :=
  match pinsToPost with
  | [] => w
  | r :: rest =>
      match processScheduledPin (error_time tk r.1) (outcome tk r.1) r w with
      | Some w' => process_batch tk rest w'
      | None => w
      end
  end.

Definition processScheduledPins (tk : tick) (w : world) : world :=
  if fetchError tk then w
  else process_batch tk (fetchDue (now1 tk) (now2 tk) (pins w)) w.

(** ** HTTP handlers on [scheduled_pins] *)

Inductive body : Type :=
  | ErrorBody (error : string)
  | MessageBody (message : string)
  | PinBody (scheduled_pin : string * pin) (message : string)
  | ListBody (scheduled_pins : list (string * pin)) (total : nat).

(** What a handler run ends in: a JSON response with its HTTP status, or an
    exception that no [try] of the handler catches. *)
Inductive response : Type :=
  | Respond (code : nat) (b : body)
  | Uncaught (exception : string).

Fixpoint assoc (k : string) (fields : list (string * jsvalue)) : jsvalue :=
  match fields with
  | [] => JUndefined
  | (k', v) :: rest => if String.eqb k k' then v else assoc k rest
  end.

(** [v.k] for a name [k] that is no array index and no built-in property;
    [None] is the TypeError of reading a property of [null] or [undefined]. *)
Definition get_prop (k : string) (v : jsvalue) : option jsvalue :=
  match v with
  | JUndefined | JNull => None
  | JObj fields => Some (assoc k fields)
  | JBool _ | JNum _ | JStr _ | JArr _ => Some JUndefined
  end.

(** [v.k], [undefined] where there is nothing to read from. *)
Definition prop (k : string) (v : jsvalue) : jsvalue := default JUndefined (get_prop k v).

(** The fields the update handler reads from [req.body]; an absent field is
    [JUndefined]. *)
Record update_body : Type := {
  u_title : jsvalue;
  u_description : jsvalue;
  u_scheduled_for : jsvalue;
  u_timezone : jsvalue;
  u_status : jsvalue;
  u_is_recurring : jsvalue;
  u_recurrence_pattern : jsvalue
}.

(** The fields the schedule handler reads from [req.body]. *)
Record schedule_body : Type := {
  s_image_url : jsvalue;
  s_title : jsvalue;
  s_description : jsvalue;
  s_board_id : jsvalue;
  s_scheduled_for : jsvalue;
  s_timezone : jsvalue;
  s_is_recurring : jsvalue;
  s_recurrence_pattern : jsvalue
}.

(** [const { x = d } = ...]: the default replaces [undefined] only. *)
Definition or_default (d v : jsvalue) : jsvalue :=
  match v with
  | JUndefined => d
  | _ => v
  end.

Definition is_boolean (v : jsvalue) : bool :=
  match v with
  | JBool _ => true
  | _ => false
  end.

(** [.update(updates).eq('id', id).eq('user_id', user)] with the [updates]
    object the handler builds from the body; [d] is
    [new Date(scheduled_for)]. *)
Definition apply_updates (b : update_body) (d : Z) (p : pin) : pin :=
  {| user_id := user_id p;
     title := if truthy (u_title b) then u_title b else title p;
     description := if truthy (u_description b) then u_description b else description p;
     timezone := if truthy (u_timezone b) then u_timezone b else timezone p;
     status := if truthy (u_status b) then u_status b else status p;
     scheduled_for := if truthy (u_scheduled_for b) then d else scheduled_for p;
     is_recurring := if is_boolean (u_is_recurring b) then u_is_recurring b else is_recurring p;
     recurrence_pattern :=
       if truthy (u_recurrence_pattern b) then u_recurrence_pattern b else recurrence_pattern p;
     retry_count := retry_count p; next_retry_at := next_retry_at p;
     error_message := error_message p; credits_deducted := credits_deducted p;
     pinterest_pin_id := pinterest_pin_id p; access_token := access_token p;
     pin_metrics := pin_metrics p; metrics_last_updated := metrics_last_updated p |}.

Definition set_pins (db : gmap string pin) (w : world) : world :=
  {| pins := db; profiles := profiles w; trace := trace w; host := host w |}.

(** [.select('*').eq('id', id).eq('user_id', user).single()] *)
Definition select_own (user id : string) (w : world) : option pin :=
  match pins w !! id with
  | Some p => if bool_decide (user_id p = user) then Some p else None
  | None => None
  end.

Section Handlers.

(** Built-ins of the JavaScript runtime, as functions: [JSON.parse]
    ([None] when it throws a SyntaxError), [new Date(v).getTime()]
    ([None] for an Invalid Date), [ToNumber] on strings, arrays and
    objects, and [parseInt] on a query-string value ([None] for NaN). *)
Variable JSON_parse : string → option jsvalue.
Variable Date_parse : jsvalue → option Z.
Variable ToNumber_other : jsvalue → float.
Variable parseInt : string → option Z.

Definition ToNumber (v : jsvalue) : float :=
  match v with
  | JNum x => x
  | JBool true => 1%float
  | JBool false | JNull => 0%float
  | JUndefined => nan
  | JStr _ | JArr _ | JObj _ => ToNumber_other v
  end.

(** [date <= now] and [date > now] on a possibly invalid date: every
    comparison with NaN is false. *)
Definition date_le (date : option Z) (now : Z) : bool :=
  match date with
  | Some t => t <=? now
  | None => false
  end.

Definition date_gt (date : option Z) (now : Z) : bool :=
  match date with
  | Some t => now <? t
  | None => false
  end.

(** PUT /api/pinterest/scheduled-pins/:id. [user] is the outcome of the
    token check, [updateError] whether the store refuses the write. *)
Definition update_scheduled_pin (user : option string) (id : string)
    (b : update_body) (now : Z) (updateError : bool) (w : world) : world * response :=
  match user with
  | None => (w, Respond 401 (ErrorBody "Unauthorized"))
  | Some user =>
      match select_own user id w with
      | None => (w, Respond 404 (ErrorBody "Scheduled pin not found"))
      | Some existingPin =>
          if js_is "posted" (status existingPin) then
            (w, Respond 400 (ErrorBody "Cannot update a pin that has already been posted"))
          else if truthy (u_scheduled_for b)
                  && date_le (Date_parse (u_scheduled_for b)) now then
            (w, Respond 400 (ErrorBody "Scheduled time must be in the future"))
          else
            match (if truthy (u_scheduled_for b) then Date_parse (u_scheduled_for b)
                   else Some 0) with
            | None =>
                (* toISOString() of an Invalid Date throws inside the try *)
                (w, Respond 500 (ErrorBody "Failed to update scheduled pin: Invalid time value"))
            | Some d =>
                if updateError then
                  (w, Respond 500 (ErrorBody "Failed to update scheduled pin"))
                else
                  let updatedPin := apply_updates b d existingPin in
                  (set_pins (<[id := updatedPin]> (pins w)) w,
                   Respond 200 (PinBody (id, updatedPin) "Scheduled pin updated successfully"))
            end
      end
  end.

(** DELETE /api/pinterest/scheduled-pins/:id (cancel). *)
Definition cancel_scheduled_pin (user : option string) (id : string)
    (updateError : bool) (w : world) : world * response :=
  match user with
  | None => (w, Respond 401 (ErrorBody "Unauthorized"))
  | Some user =>
      match select_own user id w with
      | None => (w, Respond 404 (ErrorBody "Scheduled pin not found"))
      | Some existingPin =>
          if js_is "posted" (status existingPin) then
            (w, Respond 400 (ErrorBody "Cannot delete a pin that has already been posted"))
          else if js_is "posting" (status existingPin) then
            if updateError then
              (w, Respond 500 (ErrorBody "Failed to cancel scheduled pin"))
            else
              (set_pins (<[id := set_status (JStr "cancelled") existingPin]> (pins w)) w,
               Respond 200 (MessageBody "Scheduled pin cancelled successfully"))
          else
            if updateError then
              (w, Respond 500 (ErrorBody "Failed to cancel scheduled pin"))
            else
              (set_pins (<[id := set_status (JStr "cancelled") existingPin]> (pins w)) w,
               Respond 200 (MessageBody "Scheduled pin cancelled successfully"))
      end
  end.

(** DELETE /api/pinterest/scheduled-pins/:id/permanent. *)
Definition delete_scheduled_pin_permanent (user : option string) (id : string)
    (deleteError : bool) (w : world) : world * response :=
  match user with
  | None => (w, Respond 401 (ErrorBody "Unauthorized"))
  | Some user =>
      match select_own user id w with
      | None => (w, Respond 404 (ErrorBody "Scheduled pin not found"))
      | Some existingPin =>
          if negb (js_is "cancelled" (status existingPin)
                   || js_is "posted" (status existingPin)) then
            (w, Respond 400 (ErrorBody "Can only permanently delete cancelled or posted pins"))
          else if deleteError then
            (w, Respond 500 (ErrorBody "Failed to permanently delete scheduled pin"))
          else
            (set_pins (delete id (pins w)) w,
             Respond 200 (MessageBody "Scheduled pin permanently deleted"))
      end
  end.

(** [.range(from, to)] on the ordered rows: the rows of index [from] to
    [to]; a NaN or negative bound is an error of the store. *)
Definition range {A} (from to : option Z) (rows : list A) : option (list A) :=
  match from, to with
  | Some from, Some to =>
      if (from <? 0) || (to - from + 1 <? 0) then None
      else Some (take (Z.to_nat (to - from + 1)) (drop (Z.to_nat from) rows))
  | _, _ => None
  end.

(** The rows the list query selects before [.range]: the owner's, in
    ascending [scheduled_for], with the [status] filter when the query
    string has a non-empty [status]. *)
Definition own_rows (user : string) (q_status : option string) (w : world)
    : list (string * pin) :=
  let rows :=
    merge_sort by_scheduled_for
      (filter (λ r, user_id r.2 = user) (map_to_list (pins w))) in
  match q_status with
  | Some st =>
      if negb (String.eqb st "") then filter (λ r, js_is st (status r.2) = true) rows
      else rows
  | None => rows
  end.

(** [parseInt(q)] for a query value with default [d]. *)
Definition query_int (d : Z) (q : option string) : option Z :=
  match q with
  | Some text => parseInt text
  | None => Some d
  end.

(** GET /api/pinterest/scheduled-pins. The query-string values are absent
    or strings; [limit] defaults to 50 and [offset] to 0. *)
Definition list_scheduled_pins (user : option string)
    (q_status q_limit q_offset : option string) (fetchError : bool) (w : world)
    : response :=
  match user with
  | None => Respond 401 (ErrorBody "Unauthorized")
  | Some user =>
      let offset := query_int 0 q_offset in
      let limit := query_int 50 q_limit in
      let to := match offset, limit with
                | Some o, Some l => Some (o + l - 1)
                | _, _ => None
                end in
      match (if fetchError then None else range offset to (own_rows user q_status w)) with
      | None => Respond 500 (ErrorBody "Failed to fetch scheduled pins")
      | Some scheduledPins =>
          Respond 200 (ListBody scheduledPins (length scheduledPins))
      end
  end.

(** The recurrence validation of the schedule handler, which runs before
    the handler's [try]. *)
Inductive validation : Type :=
  | Pass
  | Reject (error : string)
  | Throw (exception : string).

Definition validate_recurrence (is_recurring recurrence_pattern : jsvalue) : validation :=
  if truthy is_recurring && truthy recurrence_pattern then
    match (match recurrence_pattern with
           | JStr text => JSON_parse text
           | _ => Some recurrence_pattern
           end) with
    | None => Throw "SyntaxError"
    | Some pattern =>
        match get_prop "type" pattern, get_prop "interval" pattern with
        | Some type, Some interval =>
            if negb (js_is "daily" type || js_is "weekly" type || js_is "monthly" type) then
              Reject "Invalid recurrence type. Must be daily, weekly, or monthly."
            else if negb (truthy interval)
                    || PrimFloat.ltb (ToNumber interval) 1%float
                    || PrimFloat.ltb 30%float (ToNumber interval) then
              Reject "Invalid recurrence interval. Must be between 1 and 30."
            else Pass
        | _, _ => Throw "TypeError"
        end
    end
  else Pass.

(** Modelled from the spec: the column defaults of [scheduled_pins], whose
    schema is not part of the sources. A new job is [scheduled], with
    [retryCount] 0, no [nextRetryAt], no error message, [creditsDeducted]
    false, no external id and no metrics. [joined_token] is the
    [access_token] of the account row the pin references, as the due
    query's join returns it. *)
Definition new_pin (user : string) (b : schedule_body) (scheduleDate : Z)
    (joined_token : option string) : pin :=
  let is_recurring := or_default (JBool false) (s_is_recurring b) in
  {| user_id := user;
     title := s_title b;
     description := s_description b;
     timezone := or_default (JStr "UTC") (s_timezone b);
     status := JStr "scheduled";
     scheduled_for := scheduleDate;
     is_recurring := is_recurring;
     recurrence_pattern :=
       if truthy is_recurring then
         match s_recurrence_pattern b with
         | JUndefined => JNull        (* the key drops out of the insert *)
         | pattern => pattern
         end
       else JNull;
     retry_count := Some 0; next_retry_at := None;
     error_message := None; credits_deducted := false;
     pinterest_pin_id := None; access_token := joined_token;
     pin_metrics := None; metrics_last_updated := None |}.

(** POST /api/pinterest/schedule-pin. [now] and [oneYearFromNow] are the
    handler's clock readings, [accessToken] the answer of
    [getPinterestAccessTokenForUser], [new_id] the key the store assigns
    and [insertError] whether it refuses the insert. *)
Definition schedule_pin (user : option string) (b : schedule_body)
    (now oneYearFromNow : Z) (accessToken joined_token : option string)
    (new_id : string) (insertError : bool) (w : world) : world * response :=
  match user with
  | None => (w, Respond 401 (ErrorBody "Unauthorized"))
  | Some user =>
      if negb (truthy (s_image_url b)) || negb (truthy (s_title b))
         || negb (truthy (s_description b)) || negb (truthy (s_board_id b))
         || negb (truthy (s_scheduled_for b)) then
        (w, Respond 400 (ErrorBody
              "Missing required fields: image_url, title, description, board_id, scheduled_for"))
      else
        let scheduleDate := Date_parse (s_scheduled_for b) in
        if date_le scheduleDate now then
          (w, Respond 400 (ErrorBody "Scheduled time must be in the future"))
        else if date_gt scheduleDate oneYearFromNow then
          (w, Respond 400 (ErrorBody "Cannot schedule more than 1 year in advance"))
        else if negb (match accessToken with
                      | Some t => negb (String.eqb t "")
                      | None => false
                      end) then
          (w, Respond 400 (ErrorBody "No Pinterest access token found for user/account."))
        else
          match validate_recurrence (or_default (JBool false) (s_is_recurring b))
                  (s_recurrence_pattern b) with
          | Throw exception => (w, Uncaught exception)
          | Reject error => (w, Respond 400 (ErrorBody error))
          | Pass =>
              match scheduleDate with
              | None =>
                  (* toISOString() of an Invalid Date throws inside the try *)
                  (w, Respond 500 (ErrorBody "Failed to schedule pin: Invalid time value"))
              | Some d =>
                  if insertError || bool_decide (is_Some (pins w !! new_id)) then
                    (w, Respond 500 (ErrorBody "Failed to schedule pin"))
                  else
                    let scheduledPin := new_pin user b d joined_token in
                    (set_pins (<[new_id := scheduledPin]> (pins w)) w,
                     Respond 200
                       (PinBody (new_id, scheduledPin)
                          ("Pin scheduled for " +:+ toLocaleString (host w) d)))
              end
          end
  end.

End Handlers.

(** ** Analytics refresh: [syncUserAnalytics] and POST /api/pinterest/sync-analytics *)

Definition Z_to_float (z : Z) : float := SF2Prim (binary_normalize prec emax z 0 false).

(** [Math.round]: the nearest integer, a tie going towards +infinity; NaN,
    the infinities, the zeros and the integers are returned as they are,
    and a result of zero keeps the sign of the argument. *)
Definition Math_round (x : float) : float :=
  match Prim2SF x with
  | S754_finite sign m e =>
      if 0 <=? e then x
      else
        let n := if sign then Z.neg m else Z.pos m in
        let z := (2 * n + 2 ^ (- e)) / 2 ^ (- e + 1) in
        if z =? 0 then (if sign then (-0)%float else 0%float)
        else Z_to_float z
  | _ => x
  end.

(** [metrics.K || 0]: the counter of the API's answer when it is truthy,
    whatever its type, else 0. *)
Definition counter (k : string) (metrics : jsvalue) : jsvalue :=
  if truthy (prop k metrics) then prop k metrics else JNum 0.

(** The envelope normalisation; [None] is the TypeError of a [null] answer. *)
Definition pick_metrics (analyticsData : jsvalue) : option jsvalue :=
  match get_prop "all_time" analyticsData, get_prop "summary" analyticsData,
        get_prop "all" analyticsData, get_prop "summary_metrics" analyticsData with
  | Some all_time, Some summary, Some all, Some summary_metrics =>
      if truthy all_time then Some all_time
      else if truthy summary then Some summary
      else if truthy all
              && truthy (default JUndefined (get_prop "summary_metrics" all)) then
        get_prop "summary_metrics" all
      else if truthy summary_metrics then Some summary_metrics
      else Some analyticsData
  | _, _, _, _ => None
  end.

Definition set_metrics (m : metrics) (now : Z) (p : pin) : pin :=
  {| user_id := user_id p; title := title p; description := description p;
     timezone := timezone p; status := status p; scheduled_for := scheduled_for p;
     is_recurring := is_recurring p; recurrence_pattern := recurrence_pattern p;
     retry_count := retry_count p; next_retry_at := next_retry_at p;
     error_message := error_message p; credits_deducted := credits_deducted p;
     pinterest_pin_id := pinterest_pin_id p; access_token := access_token p;
     pin_metrics := Some m; metrics_last_updated := Some now |}.

(** What the analytics API answers for one pin: a non-2xx status (or a
    failed call), or a JSON document. *)
Inductive analytics_answer : Type :=
  | NotOk
  | Answer (analyticsData : jsvalue).

(** The inputs of one refresh run: the clock when an automatic run takes
    its staleness limit ([sync_now]), the clock at a pin's staleness test
    in a manual run ([check_time]) and at the write of a pin's metrics
    ([write_time]), the API's answers, whether the query for the posted
    pins fails and whether the store refuses the write of a pin's metrics. *)
Record sync_input : Type := {
  sync_now : Z;
  check_time : string → Z;
  write_time : string → Z;
  analytics : string → analytics_answer;
  sync_fetchError : bool;
  sync_updateError : string → bool
}.

(** Whether the refresh loop skips a row: there is a limit (the refresh is
    not forced) and the row's metrics are dated after it. *)
Definition skipped (limit : option Z) (p : pin) : bool :=
  match limit, metrics_last_updated p with
  | Some twelveHoursAgo, Some lastUpdate => twelveHoursAgo <? lastUpdate
  | _, _ => false
  end.

(** [.eq('user_id', user).eq('status', 'posted').not('pinterest_pin_id', 'is', null).limit(n)] *)
Definition posted_pins (user : string) (n : nat) (db : gmap string pin)
    : list (string * pin) :=
  take n (filter (λ r, user_id r.2 = user
                       ∧ js_is "posted" (status r.2) = true
                       ∧ is_Some (pinterest_pin_id r.2))
            (map_to_list db)).

Section Analytics.

Variable ToNumber_other : jsvalue → float.

Local Abbreviation ToNumber := (ToNumber ToNumber_other).

(** Whether [+] adds its operand as a number: strings, and arrays and
    objects (whose primitive value is a string), make it concatenate. *)
Definition adds_as_number (v : jsvalue) : bool :=
  match v with
  | JStr _ | JArr _ | JObj _ => false
  | JUndefined | JNull | JBool _ | JNum _ => true
  end.

Definition text_of (rt : runtime) (v : jsvalue) : string :=
  match v with
  | JStr s => s
  | _ => String_of rt v
  end.

(** [a + b] *)
Definition js_add (rt : runtime) (a b : jsvalue) : jsvalue :=
  if adds_as_number a && adds_as_number b then JNum (ToNumber a + ToNumber b)
  else JStr (text_of rt a +:+ text_of rt b).

(** [impressions > 0 ? (count / impressions) * 100 : 0] *)
Definition rate (count impressions : jsvalue) : float :=
  if PrimFloat.ltb 0 (ToNumber impressions)
  then (ToNumber count / ToNumber impressions * 100)%float
  else 0%float.

(** The record both refresh paths write, from the five counters. *)
Definition derive_metrics (rt : runtime)
    (impressions outboundClicks saves pinClicks closeupViews : jsvalue) : metrics :=
  let engagementRate := rate (js_add rt saves pinClicks) impressions in
  let clickThroughRate := rate outboundClicks impressions in
  let saveRate := rate saves impressions in
  {| impressions := impressions;
     outbound_clicks := outboundClicks;
     saves := saves;
     pin_clicks := pinClicks;
     closeup_views := closeupViews;
     engagement_rate := (Math_round (engagementRate * 100) / 100)%float;
     click_through_rate := (Math_round (clickThroughRate * 100) / 100)%float;
     save_rate := (Math_round (saveRate * 100) / 100)%float |}.

Definition metrics_of_answer (rt : runtime) (analyticsData : jsvalue) : option metrics :=
  match pick_metrics analyticsData with
  | Some m =>
      Some (derive_metrics rt (counter "IMPRESSION" m) (counter "OUTBOUND_CLICK" m)
              (counter "SAVE" m) (counter "PIN_CLICK" m) (counter "CLOSEUP" m))
  | None => None
  end.

(** One pin of the refresh loop: skipped when its metrics are dated after
    the limit, left alone when the API call, the normalisation or the
    write fails, refreshed otherwise. [limit] gives the staleness limit
    that holds for a pin, if any. *)
Definition refresh_pin (rt : runtime) (si : sync_input) (limit : string → option Z)
    (r : string * pin) (db : gmap string pin) : gmap string pin :=
  if skipped (limit r.1) r.2 then db
  else
    match analytics si r.1 with
    | NotOk => db
    | Answer analyticsData =>
        match metrics_of_answer rt analyticsData with
        | Some m =>
            if sync_updateError si r.1 then db
            else update_eq_id (set_metrics m (write_time si r.1)) r.1 db
        | None => db
        end
    end.

(** [twelveHoursAgo], taken once before the loop. *)
Definition automatic_limit (rt : runtime) (si : sync_input) (id : string) : option Z :=
  Some (add_hours rt (sync_now si) (-12)).

(** [twentyFourHoursAgo], taken at each pin unless [force_sync] is truthy. *)
Definition manual_limit (rt : runtime) (si : sync_input) (force_sync : jsvalue)
    (id : string) : option Z :=
  if truthy (or_default (JBool false) force_sync) then None
  else Some (add_hours rt (check_time si id) (-24)).

(** [syncUserAnalytics(userId, accessToken)] *)
Definition syncUserAnalytics (userId : string) (accessToken : option string)
    (si : sync_input) (w : world) : world :=
  match accessToken with
  | Some t =>
      if String.eqb t "" then w
      else if sync_fetchError si then w
      else
        set_pins
          (foldl (λ db r, refresh_pin (host w) si (automatic_limit (host w) si) r db) (pins w)
             (posted_pins userId 20 (pins w)))
          w
  | None => w
  end.

(** POST /api/pinterest/sync-analytics, on the table [scheduled_pins]. *)
Definition sync_analytics (user : option string) (accessToken : option string)
    (force_sync : jsvalue) (si : sync_input) (w : world) : world :=
  match user, accessToken with
  | Some user, Some t =>
      if String.eqb t "" then w
      else if sync_fetchError si then w
      else
        set_pins
          (foldl (λ db r, refresh_pin (host w) si (manual_limit (host w) si force_sync) r db)
             (pins w) (posted_pins user 50 (pins w)))
          w
  | _, _ => w
  end.

End Analytics.

(** ** Rates, in words *)

(** The nearest integer to [a / b] for [b] above zero, a half going up. *)
Definition nearest (a b : Z) : Z := (2 * a + b) / (2 * b).

(** The binary64 number that the decimal [n / 100] denotes. *)
Definition hundredths (n : Z) : float := (Z_to_float n / 100)%float.

(** A rate in the words of the specification: 0 when there are no
    impressions, otherwise the count over the impressions, times 100,
    rounded to two decimals. *)
Definition rate_in_words (count impressions : Z) : float :=
  if impressions =? 0 then 0%float
  else hundredths (nearest (count * 100 * 100) impressions).

(** A rate in binary64: 0 unless the impressions are above zero, otherwise
    the quotient, times 100, the result scaled by 100 once more, taken to
    an integer by [Math.round] and divided by 100. *)
Definition rate_binary64 (count impressions : float) : float :=
  if PrimFloat.ltb 0 impressions
  then (Math_round (count / impressions * 100 * 100) / 100)%float
  else 0%float.

(** The pairs of a count and an impressions counter, up to [n] impressions
    and with the count not above them, on which the two differ. *)
Definition rates_that_differ (n : nat) : list (Z * Z) :=
  foldr (λ impressions acc,
           foldr (λ count acc,
                    if PrimFloat.eqb
                         (rate_binary64 (Z_to_float count) (Z_to_float impressions))
                         (rate_in_words count impressions)
                    then acc else (count, impressions) :: acc)
             acc (seqZ 0 (impressions + 1)))
    [] (seqZ 1 (Z.of_nat n)).

(** ** Histories *)

(** The operations that reach the table, each with its inputs. *)
Inductive op : Type :=
  | OpTick (tk : tick)
  | OpSchedule (user : option string) (b : schedule_body) (now oneYearFromNow : Z)
      (accessToken joined_token : option string) (new_id : string) (insertError : bool)
  | OpUpdate (user : option string) (id : string) (b : update_body) (now : Z)
      (updateError : bool)
  | OpCancel (user : option string) (id : string) (updateError : bool)
  | OpDeletePermanent (user : option string) (id : string) (deleteError : bool)
  | OpAutoSync (userId : string) (accessToken : option string) (si : sync_input)
  | OpManualSync (user : option string) (accessToken : option string)
      (force_sync : jsvalue) (si : sync_input).

Section Histories.

Variable JSON_parse : string → option jsvalue.
Variable Date_parse : jsvalue → option Z.
Variable ToNumber_other : jsvalue → float.

Definition run_op (o : op) (w : world) : world :=
  match o with
  | OpTick tk => processScheduledPins tk w
  | OpSchedule user b now oneYearFromNow accessToken joined_token new_id insertError =>
      (schedule_pin JSON_parse Date_parse ToNumber_other user b now oneYearFromNow
         accessToken joined_token new_id insertError w).1
  | OpUpdate user id b now updateError =>
      (update_scheduled_pin Date_parse user id b now updateError w).1
  | OpCancel user id updateError => (cancel_scheduled_pin user id updateError w).1
  | OpDeletePermanent user id deleteError =>
      (delete_scheduled_pin_permanent user id deleteError w).1
  | OpAutoSync userId accessToken si =>
      syncUserAnalytics ToNumber_other userId accessToken si w
  | OpManualSync user accessToken force_sync si =>
      sync_analytics ToNumber_other user accessToken force_sync si w
  end.

Definition run (h : list op) (w : world) : world := foldl (λ w o, run_op o w) w h.

End Histories.

(** ** Observations on traces and stores *)

Fixpoint count_if (f : event → bool) (tr : list event) : nat :=
  match tr with
  | [] => 0%nat
  | e :: rest => ((if f e then 1 else 0) + count_if f rest)%nat
  end.

Definition is_publish (id : string) (e : event) : bool :=
  match e with
  | EvPublish i => String.eqb i id
  | _ => false
  end.

Definition is_debit (id : string) (e : event) : bool :=
  match e with
  | EvDebit i _ _ => String.eqb i id
  | _ => false
  end.

Definition is_flag (id : string) (e : event) : bool :=
  match e with
  | EvFlag i => String.eqb i id
  | _ => false
  end.

(** How often pin [id] was published, debited, flagged in a world's trace. *)
Definition publishes (id : string) (w : world) : nat := count_if (is_publish id) (trace w).
Definition debits (id : string) (w : world) : nat := count_if (is_debit id) (trace w).
Definition flags (id : string) (w : world) : nat := count_if (is_flag id) (trace w).

(** The status of pin [id], if the table has it. *)
Definition status_of (id : string) (w : world) : option jsvalue :=
  status <$> pins w !! id.

(** The key an operation may insert under. *)
Definition inserted_id (o : op) : option string :=
  match o with
  | OpSchedule _ _ _ _ _ _ new_id _ => Some new_id
  | _ => None
  end.

Definition is_tick (o : op) : bool :=
  match o with
  | OpTick _ => true
  | _ => false
  end.

(** Pin [id] is out of the scheduler's reach: deleted, or [posted]. *)
Definition absorbed (id : string) (w : world) : Prop :=
  status_of id w = None ∨ status_of id w = Some (JStr "posted").

(** Between [w] and [w'] pin [id] was neither debited nor flagged. *)
Definition uncharged (id : string) (w w' : world) : Prop :=
  debits id w' = debits id w ∧ flags id w' = flags id w.

(** Between [w] and [w'] pin [id] was debited once and flagged once, on its
    way from [scheduled] or [failed] with the flag unset to [posted] with
    the flag set. *)
Definition charged (id : string) (w w' : world) : Prop :=
  debits id w' = S (debits id w)
  ∧ flags id w' = S (flags id w)
  ∧ (∃ p, pins w !! id = Some p
        ∧ (status p = JStr "scheduled" ∨ status p = JStr "failed")
        ∧ credits_deducted p = false)
  ∧ (∃ p', pins w' !! id = Some p'
         ∧ status p' = JStr "posted" ∧ credits_deducted p' = true).


(** ** Reference built-ins for the examples *)

(** The examples below run the handlers with these functions for the
    runtime's built-ins. Each is the built-in on the part of its domain
    the examples use: JSON texts without escape sequences, fractions and
    exponents; dates given as a number of milliseconds; query values in
    decimal or hexadecimal. *)

Definition dquote : ascii := Ascii.ascii_of_nat 34.

Definition is_ws (c : ascii) : bool :=
  Ascii.eqb c " " || Ascii.eqb c (Ascii.ascii_of_nat 9)
  || Ascii.eqb c (Ascii.ascii_of_nat 10) || Ascii.eqb c (Ascii.ascii_of_nat 13).

Fixpoint skip_ws (s : list ascii) : list ascii :=
  match s with
  | c :: rest => if is_ws c then skip_ws rest else s
  | [] => []
  end.

Definition digit_value (c : ascii) : option Z :=
  let n := Z.of_nat (Ascii.nat_of_ascii c) in
  if (48 <=? n) && (n <=? 57) then Some (n - 48) else None.

Definition hex_value (c : ascii) : option Z :=
  let n := Z.of_nat (Ascii.nat_of_ascii c) in
  if (48 <=? n) && (n <=? 57) then Some (n - 48)
  else if (65 <=? n) && (n <=? 70) then Some (n - 55)
  else if (97 <=? n) && (n <=? 102) then Some (n - 87)
  else None.

(** The longest prefix of digits in base [base], as a number, with the
    rest; [None] when the prefix is empty. *)
Fixpoint digits_from (value : ascii → option Z) (base : Z) (acc : option Z)
    (s : list ascii) : option Z * list ascii :=
  match s with
  | c :: rest =>
      match value c with
      | Some d => digits_from value base (Some (default 0 acc * base + d)) rest
      | None => (acc, s)
      end
  | [] => (acc, [])
  end.

(** The characters of a JSON string up to its closing quote. *)
Fixpoint string_body (s : list ascii) : option (string * list ascii) :=
  match s with
  | c :: rest =>
      if Ascii.eqb c dquote then Some (EmptyString, rest)
      else if Ascii.eqb c (Ascii.ascii_of_nat 92)
              || (Z.of_nat (Ascii.nat_of_ascii c) <? 32) then None
      else match string_body rest with
           | Some (str, rest') => Some (String c str, rest')
           | None => None
           end
  | [] => None
  end.

(** An integer literal of JSON: an optional minus sign, then 0 or digits
    that do not start with 0. *)
Definition natural_body (s : list ascii) : option (float * list ascii) :=
  match s with
  | "0"%char :: rest => Some (0%float, rest)
  | _ =>
      match digits_from digit_value 10 None s with
      | (Some n, rest) => Some (Z_to_float n, rest)
      | (None, _) => None
      end
  end.

Definition number_body (s : list ascii) : option (float * list ascii) :=
  match s with
  | "-"%char :: rest =>
      match natural_body rest with
      | Some (x, rest') => Some ((- x)%float, rest')
      | None => None
      end
  | _ => natural_body s
  end.

(** A member in front of the members that follow it in the text: when its
    key comes again, the later value is the one kept, in the place of the
    first. *)
Definition put_member (key : string) (v : jsvalue) (fields : list (string * jsvalue))
    : list (string * jsvalue) :=
  if bool_decide (key ∈ fields.*1)
  then (key, assoc key fields) :: filter (λ f, f.1 ≠ key) fields
  else (key, v) :: fields.

Fixpoint parse_value (fuel : nat) (s : list ascii) : option (jsvalue * list ascii) :=
  match fuel with
  | O => None
  | S fuel =>
      match skip_ws s with
      | "n"%char :: "u"%char :: "l"%char :: "l"%char :: rest => Some (JNull, rest)
      | "t"%char :: "r"%char :: "u"%char :: "e"%char :: rest => Some (JBool true, rest)
      | "f"%char :: "a"%char :: "l"%char :: "s"%char :: "e"%char :: rest =>
          Some (JBool false, rest)
      | "["%char :: rest =>
          match skip_ws rest with
          | "]"%char :: rest' => Some (JArr [], rest')
          | _ =>
              match parse_elements fuel rest with
              | Some (items, rest') => Some (JArr items, rest')
              | None => None
              end
          end
      | "{"%char :: rest =>
          match skip_ws rest with
          | "}"%char :: rest' => Some (JObj [], rest')
          | _ =>
              match parse_members fuel rest with
              | Some (fields, rest') => Some (JObj fields, rest')
              | None => None
              end
          end
      | c :: rest =>
          if Ascii.eqb c dquote then
            match string_body rest with
            | Some (str, rest') => Some (JStr str, rest')
            | None => None
            end
          else
            match number_body (c :: rest) with
            | Some (x, rest') => Some (JNum x, rest')
            | None => None
            end
      | [] => None
      end
  end
with parse_elements (fuel : nat) (s : list ascii) : option (list jsvalue * list ascii) :=
  match fuel with
  | O => None
  | S fuel =>
      match parse_value fuel s with
      | Some (v, rest) =>
          match skip_ws rest with
          | ","%char :: rest' =>
              match parse_elements fuel rest' with
              | Some (items, rest'') => Some (v :: items, rest'')
              | None => None
              end
          | "]"%char :: rest' => Some ([v], rest')
          | _ => None
          end
      | None => None
      end
  end
with parse_members (fuel : nat) (s : list ascii)
    : option (list (string * jsvalue) * list ascii) :=
  match fuel with
  | O => None
  | S fuel =>
      match skip_ws s with
      | c :: rest =>
          if Ascii.eqb c dquote then
            match string_body rest with
            | Some (key, rest1) =>
                match skip_ws rest1 with
                | ":"%char :: rest2 =>
                    match parse_value fuel rest2 with
                    | Some (v, rest3) =>
                        match skip_ws rest3 with
                        | ","%char :: rest4 =>
                            match parse_members fuel rest4 with
                            | Some (fields, rest5) => Some (put_member key v fields, rest5)
                            | None => None
                            end
                        | "}"%char :: rest4 => Some ([(key, v)], rest4)
                        | _ => None
                        end
                    | None => None
                    end
                | _ => None
                end
            | None => None
            end
          else None
      | [] => None
      end
  end.

(** [JSON.parse] on the fragment: the whole text must be one value. *)
Definition JSON_parse_ref (text : string) : option jsvalue :=
  let s := String.list_ascii_of_string text in
  match parse_value (S (length s)) s with
  | Some (v, rest) =>
      match skip_ws rest with
      | [] => Some v
      | _ => None
      end
  | None => None
  end.

(** The integer part of a finite float. *)
Definition float_to_Z (x : float) : option Z :=
  match Prim2SF x with
  | S754_zero _ => Some 0
  | S754_finite sign m e =>
      let n := if sign then Z.neg m else Z.pos m in
      Some (if 0 <=? e then n * 2 ^ e else Z.quot n (2 ^ (- e)))
  | _ => None
  end.

(** [new Date(v).getTime()] for a number [v] of milliseconds; an instant
    more than 8.64e15 ms from the epoch is an Invalid Date. The formats of
    date strings are not part of this reference. *)
Definition Date_parse_ref (v : jsvalue) : option Z :=
  match v with
  | JNum x =>
      match float_to_Z x with
      | Some t => if Z.abs t <=? 8640000000000000 then Some t else None
      | None => None
      end
  | _ => None
  end.

(** [parseInt(text)]: leading white space, a sign, then hexadecimal digits
    after [0x] or decimal digits; NaN without a digit. *)
Definition parseInt_ref (text : string) : option Z :=
  let s := skip_ws (String.list_ascii_of_string text) in
  let '(negative, s) :=
    match s with
    | "-"%char :: rest => (true, rest)
    | "+"%char :: rest => (false, rest)
    | _ => (false, s)
    end in
  let magnitude :=
    match s with
    | "0"%char :: "x"%char :: rest | "0"%char :: "X"%char :: rest =>
        (digits_from hex_value 16 None rest).1
    | _ => (digits_from digit_value 10 None s).1
    end in
  (λ n, if negative then - n else n) <$> magnitude.

(** ** Sample data *)

Definition sample_pin : pin :=
  {| user_id := "user-1";
     title := JStr "Spring sale";
     description := JStr "Ten percent off";
     timezone := JStr "UTC";
     status := JStr "scheduled";
     scheduled_for := 1000;
     is_recurring := JBool false;
     recurrence_pattern := JNull;
     retry_count := Some 0; next_retry_at := None;
     error_message := None; credits_deducted := false;
     pinterest_pin_id := None; access_token := Some "token-1";
     pin_metrics := None; metrics_last_updated := None |}.

(** A pin that has failed three times and is waiting for its last retry. *)
Definition exhausted_pin : pin :=
  set_retry (Some 3) (Some 4000) (Some "rate limited") (set_status (JStr "failed") sample_pin).

(** A host on UTC. Its two conversions to text are stand-ins that print
    nothing. *)
Definition utc_host : runtime :=
  {| LocalTZA := λ _ _, 0; toLocaleString := λ _, ""; String_of := λ _, "" |}.

Definition world_of (db : gmap string pin) : world :=
  {| pins := db; profiles := {[ "user-1" := Some 5 ]}; trace := []; host := utc_host |}.

(** A zone whose offset changes once, at the instant [change], from [before] to
    [after]; a local time that the change repeats or skips is read with the
    offset [before]. *)
Definition one_change (change before after : Z) (t : Z) (isUTC : bool) : Z :=
  if isUTC then (if t <? change then before else after)
  else (if t <? change + Z.max before after then before else after).

(** New York around 2026-11-01T06:00:00Z, when 02:00 EDT becomes 01:00 EST. *)
Definition new_york : runtime :=
  {| LocalTZA := one_change 1793512800000 (-4 * 3600000) (-5 * 3600000);
     toLocaleString := λ _, ""; String_of := λ _, "" |}.

Definition quiet_tick (t : Z) (att : attempt) : tick :=
  {| now1 := t; now2 := t; fetchError := false;
     outcome := λ _, att; error_time := λ _, t |}.

(** Three failed attempts, each after its backoff, then a success. *)
Definition three_failures_then_success : list op :=
  [ OpTick (quiet_tick 2000 (ApiFail "rate limited"));
    OpTick (quiet_tick 400000 (ApiFail "rate limited"));
    OpTick (quiet_tick 1400000 (ApiFail "rate limited"));
    OpTick (quiet_tick 4200000 (ApiOk (Some "pinterest-77"))) ].

Definition four_failures : list op :=
  [ OpTick (quiet_tick 2000 (ApiFail "rate limited"));
    OpTick (quiet_tick 400000 (ApiFail "rate limited"));
    OpTick (quiet_tick 1400000 (ApiFail "rate limited"));
    OpTick (quiet_tick 4200000 (ApiFail "rate limited")) ].

(** Stand-ins for the runtime's built-ins in histories that never call
    them. *)
Definition no_JSON_parse : string → option jsvalue := λ _, None.
Definition no_Date_parse : jsvalue → option Z := λ _, None.
Definition no_ToNumber : jsvalue → float := λ _, nan.

Definition empty_update : update_body :=
  {| u_title := JUndefined; u_description := JUndefined; u_scheduled_for := JUndefined;
     u_timezone := JUndefined; u_status := JUndefined; u_is_recurring := JUndefined;
     u_recurrence_pattern := JUndefined |}.

(** The body [{ "status": "scheduled" }]. *)
Definition reschedule_body : update_body :=
  {| u_title := JUndefined; u_description := JUndefined; u_scheduled_for := JUndefined;
     u_timezone := JUndefined; u_status := JStr "scheduled"; u_is_recurring := JUndefined;
     u_recurrence_pattern := JUndefined |}.

Definition cancelled_pin : pin := set_status (JStr "cancelled") sample_pin.
Definition posted_pin : pin :=
  set_credits_deducted true (mark_posted (Some (Some "pinterest-77")) sample_pin).

(** An answer of the analytics API in its [all_time] envelope. *)
Definition sample_answer : jsvalue :=
  JObj [("all_time",
         JObj [("IMPRESSION", JNum 1234); ("OUTBOUND_CLICK", JNum 56);
               ("SAVE", JNum 78); ("PIN_CLICK", JNum 90); ("CLOSEUP", JNum 45)])].


Definition sample_metrics : metrics :=
  derive_metrics no_ToNumber utc_host (JNum 1234) (JNum 56) (JNum 78) (JNum 90) (JNum 45).

(** A schedule request for a recurring pin, one hour ahead of the instant
    3600000, with [pattern] as its [recurrence_pattern]. *)
Definition recurring_body (pattern : jsvalue) : schedule_body :=
  {| s_image_url := JStr "https://img.example/p.png";
     s_title := JStr "Spring sale";
     s_description := JStr "Ten percent off";
     s_board_id := JStr "board-9";
     s_scheduled_for := JNum 7200000;
     s_timezone := JUndefined;
     s_is_recurring := JBool true;
     s_recurrence_pattern := pattern |}.

(** The text [{"type":"daily","interval":2}]. *)
Definition daily_pattern_text : string :=
  "{" +:+ String dquote "type" +:+ String dquote ":" +:+ String dquote "daily"
  +:+ String dquote "," +:+ String dquote "interval" +:+ String dquote ":2}".

(** The body [{ "title": "", "description": null, "timezone": 0,
    "scheduled_for": false, "is_recurring": false }]. *)
Definition clearing_body : update_body :=
  {| u_title := JStr ""; u_description := JNull; u_scheduled_for := JBool false;
     u_timezone := JNum 0; u_status := JUndefined; u_is_recurring := JBool false;
     u_recurrence_pattern := JUndefined |}.

Definition three_pins : gmap string pin :=
  {[ "pin-1" := sample_pin;
     "pin-2" := set_status (JStr "failed") sample_pin;
     "pin-3" := cancelled_pin ]}.

(** ** The automatic analytics run: [processAnalyticsSync] *)

(** The rows of its query,
    [.eq('status', 'posted').not('pinterest_pin_id', 'is', null)], each with
    its [user_id] and the joined account token. *)
Definition all_posted_pins (db : gmap string pin) : list (string * pin) :=
  filter (λ r, js_is "posted" (status r.2) = true ∧ is_Some (pinterest_pin_id r.2))
    (map_to_list db).

(** [usersMap], a [Map] filled in row order and read in insertion order:
    a user enters with the token of the first of their rows. *)
Definition usersWithPins (rows : list (string * pin)) : list (string * option string) :=
  foldl (λ usersMap r,
           if bool_decide (user_id r.2 ∈ usersMap.*1) then usersMap
           else usersMap ++ [(user_id r.2, access_token r.2)])
    [] rows.

(** [processAnalyticsSync()]. [si u] is what the refresh of user [u] meets:
    its clocks, the answers of the API and of the store. *)
Definition processAnalyticsSync (ToNumber_other : jsvalue → float) (fetchError : bool)
    (si : string → sync_input) (w : world) : world :=
  if fetchError then w
  else
    foldl (λ w userPin,
             syncUserAnalytics ToNumber_other userPin.1 userPin.2 (si userPin.1) w)
      w (usersWithPins (all_posted_pins (pins w))).

(** ** Pinterest tokens: [getPinterestAccessTokenForUser] *)

(** A row of [pinterest_accounts], keyed by its id. *)
Record account : Type := {
  account_user_id : string;
  account_access_token : option string
}.

(** The two places a token is kept: the accounts table and the column
    [pinterest_access_token] of [profiles], keyed by the user's id. *)
Record token_tables : Type := {
  pinterest_accounts : gmap string account;
  pinterest_access_token : gmap string (option string)
}.

(** [v || null] for a token column. *)
Definition token_or_null (v : option string) : option string :=
  match v with
  | Some t => if String.eqb t "" then None else Some t
  | None => None
  end.

Section Tokens.

(** [String(v)] for a value that is no string, as a filter sends it. *)
Variable ToString_other : jsvalue → string.

Definition filter_text (v : jsvalue) : string :=
  match v with
  | JStr s => s
  | _ => ToString_other v
  end.

(** [getPinterestAccessTokenForUser(userId, accountId)] *)
Definition getPinterestAccessTokenForUser (ts : token_tables) (userId : string)
    (accountId : jsvalue) : option string :=
  if negb (truthy accountId) then
    token_or_null (default None (pinterest_access_token ts !! userId))
  else
    match pinterest_accounts ts !! filter_text accountId with
    | Some account =>
        if bool_decide (account_user_id account = userId)
        then token_or_null (account_access_token account)
        else None
    | None => None
    end.

(** [pinterest_accounts(access_token)] as the due query joins it to a pin
    that was inserted with [pinterest_account_id: account_id]: the token of
    the account the pin references, nothing for a pin that references none. *)
Definition joined_account_token (ts : token_tables) (account_id : jsvalue)
    : option string :=
  if truthy account_id then
    pinterest_accounts ts !! filter_text account_id ≫= account_access_token
  else None.

End Tokens.

(** ** Custom templates: POST and DELETE /api/custom-templates *)

(** A row of [custom_templates], keyed by its id. *)
Record template_row : Type := {
  template_user_id : string;
  template_name : jsvalue;
  template_json : jsvalue;
  updated_at : Z
}.

Inductive templates_answer : Type :=
  | TemplatesOk                                    (* 200 { ok: true } *)
  | TemplatesError (code : nat) (error : string).

Section Templates.

(** The key under which the store keeps the id value of a payload. *)
Variable id_text : jsvalue → string.

(** POST /api/custom-templates: [user] is the outcome of [requireUser],
    [tpl] the request body, [upsertError] the error of the store, if any.
    The upsert resolves a conflict on [id] by overwriting the row. *)
Definition post_custom_template (user : option string) (tpl : jsvalue) (now : Z)
    (upsertError : option string) (tbl : gmap string template_row)
    : gmap string template_row * templates_answer :=
  match user with
  | None => (tbl, TemplatesError 401 "Unauthorized")
  | Some user =>
      if negb (truthy tpl) || negb (truthy (prop "id" tpl))
         || negb (truthy (prop "elements" tpl)) then
        (tbl, TemplatesError 400 "Invalid template payload")
      else
        let row :=
          {| template_user_id := user;
             template_name := if truthy (prop "name" tpl) then prop "name" tpl
                              else JStr "Untitled Template";
             template_json := tpl;
             updated_at := now |} in
        match upsertError with
        | Some message => (tbl, TemplatesError 500 message)
        | None => (<[id_text (prop "id" tpl) := row]> tbl, TemplatesOk)
        end
  end.

(** DELETE /api/custom-templates/:id, with [.match({ id, user_id })]. *)
Definition delete_custom_template (user : option string) (id : string)
    (deleteError : option string) (tbl : gmap string template_row)
    : gmap string template_row * templates_answer :=
  match user with
  | None => (tbl, TemplatesError 401 "Unauthorized")
  | Some user =>
      match deleteError with
      | Some message => (tbl, TemplatesError 500 message)
      | None =>
          (match tbl !! id with
           | Some row =>
               if bool_decide (template_user_id row = user) then delete id tbl else tbl
           | None => tbl
           end,
           TemplatesOk)
      end
  end.

End Templates.

(** ** Timers: [startScheduler], [startAnalyticsSync] and [stopScheduler] *)

Inductive job : Type :=
  | ProcessScheduledPins
  | ProcessAnalyticsSync.

Global Instance job_eq_dec : EqDecision job.
Proof. solve_decision. Defined.

(** The two module variables, each [None] ([undefined] or [null]) or the
    handle of an interval, and the timers of the runtime: the intervals
    that are live, with handle, callback and period in milliseconds, and
    the one-shot timeouts registered so far. [next_handle] numbers the
    timers the runtime hands out. *)
Record timers : Type := {
  schedulerInterval : option nat;
  analyticsInterval : option nat;
  intervals : list (nat * (job * Z));
  timeouts : list (job * Z);
  next_handle : nat
}.

Definition clearInterval (handle : nat) (live : list (nat * (job * Z)))
    : list (nat * (job * Z)) :=
  filter (λ i, i.1 ≠ handle) live.

Definition clear_if_set (handle : option nat) (live : list (nat * (job * Z)))
    : list (nat * (job * Z)) :=
  match handle with
  | Some h => clearInterval h live
  | None => live
  end.

Definition startScheduler (t : timers) : timers :=
  {| schedulerInterval := Some (next_handle t);
     analyticsInterval := analyticsInterval t;
     intervals := clear_if_set (schedulerInterval t) (intervals t)
                  ++ [(next_handle t, (ProcessScheduledPins, 1 * 60 * 1000))];
     timeouts := timeouts t ++ [(ProcessScheduledPins, 5000)];
     next_handle := S (S (next_handle t)) |}.

Definition startAnalyticsSync (t : timers) : timers :=
  {| schedulerInterval := schedulerInterval t;
     analyticsInterval := Some (next_handle t);
     intervals := clear_if_set (analyticsInterval t) (intervals t)
                  ++ [(next_handle t, (ProcessAnalyticsSync, 12 * 60 * 60 * 1000))];
     timeouts := timeouts t ++ [(ProcessAnalyticsSync, 30000)];
     next_handle := S (S (next_handle t)) |}.

Definition stopScheduler (t : timers) : timers :=
  {| schedulerInterval := None;
     analyticsInterval := None;
     intervals := clear_if_set (analyticsInterval t)
                    (clear_if_set (schedulerInterval t) (intervals t));
     timeouts := timeouts t;
     next_handle := next_handle t |}.

(** The module as loaded: both variables [undefined], no timer. *)
Definition no_timers : timers :=
  {| schedulerInterval := None; analyticsInterval := None;
     intervals := []; timeouts := []; next_handle := 0 |}.

Inductive timer_call : Type :=
  | StartScheduler
  | StartAnalyticsSync
  | StopScheduler.

Definition call (t : timers) (c : timer_call) : timers :=
  match c with
  | StartScheduler => startScheduler t
  | StartAnalyticsSync => startAnalyticsSync t
  | StopScheduler => stopScheduler t
  end.

Definition calls (cs : list timer_call) : timers := foldl call no_timers cs.

(** The live intervals that run job [j]. *)
Definition intervals_of (j : job) (t : timers) : list (nat * (job * Z)) :=
  filter (λ i, i.2.1 = j) (intervals t).

Definition is_start (c : timer_call) : bool :=
  match c with
  | StartScheduler | StartAnalyticsSync => true
  | StopScheduler => false
  end.

(** ** Billing: the Stripe webhook on [profiles] *)

(** The columns of [profiles] the billing code reads and writes; the table
    is keyed by the user's id. *)
Record profile : Type := {
  plan_type : option string;
  credits_remaining : option Z;
  is_pro : bool;
  stripe_customer_id : option string;
  stripe_subscription_id : option string
}.

Definition set_credits_remaining (c : option Z) (p : profile) : profile :=
  {| plan_type := plan_type p; credits_remaining := c; is_pro := is_pro p;
     stripe_customer_id := stripe_customer_id p;
     stripe_subscription_id := stripe_subscription_id p |}.

(** [session.metadata]: string values, each possibly absent. *)
Record session_metadata : Type := {
  m_userId : option string;
  m_planType : option string;
  m_type : option string;
  m_credits : option string
}.

(** A Checkout Session as the webhook reads it; [metadata] is [None] when
    it is [null], [customer] and [subscription] are ids or [null]. *)
Record checkout_session : Type := {
  metadata : option session_metadata;
  customer : option string;
  subscription : option string
}.

(** Which of the store calls of one handler run report an error, in the
    order the handler makes them. *)
Record faults : Type := {
  first_call_fails : bool;
  second_call_fails : bool;
  third_call_fails : bool
}.

(** [.update(fields).eq('id', userId)]; an [undefined] id matches no row. *)
Definition update_profile (f : profile → profile) (userId : option string)
    (tbl : gmap string profile) : gmap string profile :=
  match userId with
  | Some id => alter f id tbl
  | None => tbl
  end.

(** [.eq('stripe_customer_id', customerId).single()]: the one matching row,
    an error when there is none or more than one. *)
Definition single_by_customer (customerId : string) (tbl : gmap string profile)
    : option (string * profile) :=
  match filter (λ r, stripe_customer_id r.2 = Some customerId) (map_to_list tbl) with
  | [r] => Some r
  | _ => None
  end.

(** The names every object inherits: [planCredits[name]] is then a function
    or an object, not a number. *)
Definition inherited_names : list string :=
  [ "constructor"; "hasOwnProperty"; "isPrototypeOf"; "propertyIsEnumerable";
    "toLocaleString"; "toString"; "valueOf"; "__proto__"; "__defineGetter__";
    "__defineSetter__"; "__lookupGetter__"; "__lookupSetter__" ].

(** [planCredits[profile.plan_type] || 0]; [None] when the value is no
    number, in which case the write that follows carries no credits and
    changes no row. *)
Definition planCredits (plan_type : option string) : option Z :=
  match plan_type with
  | Some k =>
      if String.eqb k "creator" then Some 500
      else if String.eqb k "pro" then Some 1500
      else if String.eqb k "agency" then Some 5000
      else if bool_decide (k ∈ inherited_names) then None
      else Some 0
  | None => Some 0
  end.

Definition non_empty (s : option string) : bool :=
  match s with
  | Some t => negb (String.eqb t "")
  | None => false
  end.

(** The events the webhook tells apart. [retrieved] is the customer of the
    invoice's subscription as [stripe.subscriptions.retrieve] answers it,
    [None] when that call throws. *)
Inductive stripe_event : Type :=
  | CheckoutSessionCompleted (session : checkout_session)
  | InvoicePaymentSucceeded (retrieved : option string)
  | CustomerSubscriptionDeleted (customerId : string)
  | OtherEvent.

Inductive webhook_answer : Type :=
  | NotConfigured                 (* 500 *)
  | SignatureError                (* 400 *)
  | Received                      (* 200 { received: true } *)
  | Rejected (exception : string) (* an exception no [try] catches *).

Section Billing.

(** [parseInt(text)] and [parseInt(text, 10)]; [None] is NaN. *)
Variable parseInt : string → option Z.
Variable parseInt10 : string → option Z.

(** [handleCheckoutSessionCompleted(session)] for a session with metadata.
    A [planType] that is [undefined] leaves [plan_type] out of the write; a
    [credits] that is NaN is written as [null]. *)
Definition handleCheckoutSessionCompleted (m : session_metadata) (s : checkout_session)
    (f : faults) (tbl : gmap string profile) : gmap string profile :=
  let credits := m_credits m ≫= parseInt in
  if first_call_fails f then tbl
  else
    update_profile
      (λ p, {| plan_type := match m_planType m with
                            | Some planType => Some planType
                            | None => plan_type p
                            end;
               credits_remaining := credits;
               is_pro := true;
               stripe_customer_id := customer s;
               stripe_subscription_id := subscription s |})
      (m_userId m) tbl.

(** The top-up block of the webhook's [checkout.session.completed] case. *)
Definition apply_topup (m : session_metadata) (f : faults) (tbl : gmap string profile)
    : gmap string profile :=
  if bool_decide (m_type m = Some "topup") && non_empty (m_userId m)
     && non_empty (m_credits m) then
    let addCredits :=
      match m_credits m ≫= parseInt10 with
      | Some n => n
      | None => 0
      end in
    if 0 <? addCredits then
      let profile := if second_call_fails f then None else m_userId m ≫= (tbl !!.) in
      let current :=
        match profile ≫= credits_remaining with
        | Some c => c
        | None => 0
        end in
      let newCredits := current + addCredits in
      if third_call_fails f then tbl
      else update_profile (set_credits_remaining (Some newCredits)) (m_userId m) tbl
    else tbl
  else tbl.

(** [handleInvoicePaymentSucceeded(invoice)] *)
Definition handleInvoicePaymentSucceeded (retrieved : option string) (f : faults)
    (tbl : gmap string profile) : gmap string profile :=
  match retrieved with
  | None => tbl
  | Some customerId =>
      match (if first_call_fails f then None else single_by_customer customerId tbl) with
      | None => tbl
      | Some (id, profile) =>
          match planCredits (plan_type profile) with
          | Some credits =>
              if second_call_fails f then tbl
              else alter (set_credits_remaining (Some credits)) id tbl
          | None => tbl
          end
      end
  end.

(** [handleSubscriptionDeleted(subscription)] *)
Definition handleSubscriptionDeleted (customerId : string) (f : faults)
    (tbl : gmap string profile) : gmap string profile :=
  match (if first_call_fails f then None else single_by_customer customerId tbl) with
  | None => tbl
  | Some (id, profile) =>
      if second_call_fails f then tbl
      else
        alter (λ p, {| plan_type := Some "free";
                       credits_remaining := Some 50;
                       is_pro := false;
                       stripe_customer_id := stripe_customer_id p;
                       stripe_subscription_id := None |})
          id tbl
  end.

(** The handler of POST /api/stripe-webhook, from what [constructEvent]
    makes of [req.body]. [configured] is whether the Stripe client exists,
    [event] the verified event, [None] when the signature check throws.
    What [req.body] is when the handler runs is [stripe_webhook_route],
    below. *)
Definition stripe_webhook (configured : bool) (event : option stripe_event) (f : faults)
    (tbl : gmap string profile) : gmap string profile * webhook_answer :=
  if negb configured then (tbl, NotConfigured)
  else
    match event with
    | None => (tbl, SignatureError)
    | Some (CheckoutSessionCompleted session) =>
        match metadata session with
        | None => (tbl, Rejected "TypeError")
        | Some m =>
            (apply_topup m f (handleCheckoutSessionCompleted m session f tbl), Received)
        end
    | Some (InvoicePaymentSucceeded retrieved) =>
        (handleInvoicePaymentSucceeded retrieved f tbl, Received)
    | Some (CustomerSubscriptionDeleted customerId) =>
        (handleSubscriptionDeleted customerId f tbl, Received)
    | Some OtherEvent => (tbl, Received)
    end.

End Billing.

(** *** The route as the application wires it *)

(** A request to the webhook: whether its content type is JSON, whether
    its body is longer than the parser's limit, and its bytes. *)
Record delivery : Type := {
  is_json : bool;
  over_limit : bool;
  payload : string
}.

(** [req.body] when the handler runs: the bytes, or a value. *)
Inductive request_body : Type :=
  | RawBody (bytes : string)
  | ParsedBody (v : jsvalue).

(** [req.body] and the mark [req._body] that a body parser leaves. *)
Record parser_state : Type := {
  body_of : request_body;
  body_read : bool
}.

(** [app.use(express.json())], which every request passes first: a JSON
    request is parsed, an empty text giving the empty object; a body over
    the limit, and a text that is not that of an object or an array, are
    answered by the parser itself ([None]). A request of another type is
    passed on unread, its body [unread]: the empty object or [undefined],
    by the version of Express. *)
Definition express_json (JSON_parse : string → option jsvalue) (unread : jsvalue)
    (d : delivery) : option parser_state :=
  if is_json d then
    if over_limit d then None
    else if String.eqb (payload d) "" then
      Some {| body_of := ParsedBody (JObj []); body_read := true |}
    else
      match JSON_parse (payload d) with
      | Some (JObj fields) => Some {| body_of := ParsedBody (JObj fields); body_read := true |}
      | Some (JArr items) => Some {| body_of := ParsedBody (JArr items); body_read := true |}
      | _ => None
      end
  else Some {| body_of := ParsedBody unread; body_read := false |}.

(** [express.raw({ type: 'application/json' })] of the route: it reads the
    bytes of a JSON request whose body no parser has read yet. *)
Definition express_raw (d : delivery) (st : parser_state) : parser_state :=
  if body_read st then st
  else if is_json d then {| body_of := RawBody (payload d); body_read := true |}
  else st.

Inductive route_answer : Type :=
  | ParserError                       (* 400 or 413, from [express.json()] *)
  | Handled (answer : webhook_answer).

(** POST /api/stripe-webhook behind its two body parsers. [constructEvent]
    is the library's signature check on the body it is given, [None] when
    it throws. *)
Definition stripe_webhook_route (parseInt parseInt10 : string → option Z)
    (JSON_parse : string → option jsvalue) (unread : jsvalue)
    (constructEvent : request_body → option stripe_event)
    (configured : bool) (d : delivery) (f : faults) (tbl : gmap string profile)
    : gmap string profile * route_answer :=
  match express_json JSON_parse unread d with
  | None => (tbl, ParserError)
  | Some st =>
      let result :=
        stripe_webhook parseInt parseInt10 configured
          (constructEvent (body_of (express_raw d st))) f tbl in
      (result.1, Handled result.2)
  end.

(** The store never failing. *)
Definition no_faults : faults :=
  {| first_call_fails := false; second_call_fails := false; third_call_fails := false |}.

(** ** Further observations *)

Definition is_any_publish (e : event) : bool :=
  match e with
  | EvPublish _ => true
  | _ => false
  end.

(** How many calls to the Pinterest API a world's trace holds. *)
Definition all_publishes (w : world) : nat := count_if is_any_publish (trace w).

Definition is_debit_of (user : string) (e : event) : bool :=
  match e with
  | EvDebit _ u _ => String.eqb u user
  | _ => false
  end.

(** How often [user] was debited in a world's trace. *)
Definition user_debits (user : string) (w : world) : nat :=
  count_if (is_debit_of user) (trace w).

(** The balance [credits_remaining || 0] of a profile row. *)
Definition balance (credits_remaining : option Z) : Z := default 0 credits_remaining.

(** Every stored retry count is between 0 and the cap. *)
Definition retry_bounded (w : world) : Prop :=
  ∀ id p n, pins w !! id = Some p → retry_count p = Some n → 0 ≤ n ≤ maxRetries.

(** The store takes every write of the attempt after the claim. *)
Definition writes_land (att : attempt) : Prop :=
  posted_error att = false ∧ flag_error att = false ∧ failed_error att = false.

(** The store takes every write that follows a claim in the operation. *)
Definition op_writes_land (o : op) : Prop :=
  match o with
  | OpTick tk => ∀ id, writes_land (outcome tk id)
  | _ => True
  end.

(** What a finished attempt whose writes land leaves in the row [p] it was
    made on. *)
Definition attempt_result (att : attempt) (p p' : pin) : Prop :=
  if claim_error att then p' = p
  else if negb (has_token p) then
    status p' = JStr "failed"
    ∧ error_message p' = Some "No Pinterest access token found"
  else
    match api att with
    | Created pinData_id =>
        status p' = JStr "posted" ∧ retry_count p' = Some 0 ∧ next_retry_at p' = None
        ∧ error_message p' = None
        ∧ pinterest_pin_id p' = match pinData_id with
                                | Some id => id
                                | None => pinterest_pin_id p
                                end
        ∧ credits_deducted p' = true
    | Refused errorMessage =>
        status p' = JStr "failed"
        ∧ (error_message p' = Some errorMessage
           ∨ error_message p' = Some ("Max retries reached: " +:+ errorMessage))
    end.

(** A predicate that holds of every row of the table. *)
Definition all_rows (P : pin → Prop) (db : gmap string pin) : Prop :=
  ∀ id p, db !! id = Some p → P p.

Definition retry_count_ok (p : pin) : Prop :=
  ∀ n, retry_count p = Some n → 0 ≤ n ≤ maxRetries.




(** What a refresh makes of a row it selected: nothing when the row is
    skipped, the API gives no usable answer or the store refuses the
    write, new metrics dated at the write otherwise. *)
Definition refreshed (ToNumber_other : jsvalue → float) (rt : runtime) (si : sync_input)
    (limit : option Z) (id : string) (p : pin) : pin :=
  if skipped limit p then p
  else
    match analytics si id with
    | NotOk => p
    | Answer analyticsData =>
        match metrics_of_answer ToNumber_other rt analyticsData with
        | Some m => if sync_updateError si id then p
                    else set_metrics m (write_time si id) p
        | None => p
        end
    end.

(** The rows a refresh selects from, before its limit. *)
Definition refreshable (user : string) (p : pin) : Prop :=
  user_id p = user ∧ status p = JStr "posted" ∧ is_Some (pinterest_pin_id p).

(** The row of a pin after an attempt whose error handler, at instant [t],
    found no account token. *)
Definition tokenless_retry (rt : runtime) (t : Z) (p : pin) : pin :=
  set_retry (Some 1) (Some (add_minutes rt t 5)) (Some "No Pinterest access token found")
    (set_status (JStr "failed") p).

(** The property [R] of the row of pin [id] outlasts what the run [tk] can
    make of a pin without a token: the row claimed and left [posting] when
    the write of the failure is lost, and the row set to retry. *)
Definition keeps (rt : runtime) (id : string) (R : pin → Prop) (tk : tick) : Prop :=
  ∀ q, R q →
    (failed_error (outcome tk id) = true → R (set_status (JStr "posting") q))
    ∧ R (tokenless_retry rt (error_time tk id) q).

(** The local offset of the host is the same at the instant [t] and for
    the local time [ms] milliseconds later. *)
Definition steady_offset (rt : runtime) (t ms : Z) : Prop :=
  LocalTZA rt (LocalTime rt t + ms) false = LocalTZA rt t true.

(** A series of scheduler runs. *)
Definition run_ticks (ticks : list tick) (w : world) : world :=
  foldl (λ w tk, processScheduledPins tk w) w ticks.

(** What holds of the timers after any series of calls. *)
Record timers_ok (t : timers) : Prop := {
  ok_kind : ∀ h j ms, (h, (j, ms)) ∈ intervals t →
              (j = ProcessScheduledPins ∧ schedulerInterval t = Some h ∧ ms = 60000)
              ∨ (j = ProcessAnalyticsSync ∧ analyticsInterval t = Some h ∧ ms = 43200000);
  ok_nodup : NoDup (intervals t).*1;
  ok_scheduler : ∀ h, schedulerInterval t = Some h →
                   (h, (ProcessScheduledPins, 60000)) ∈ intervals t;
  ok_analytics : ∀ h, analyticsInterval t = Some h →
                   (h, (ProcessAnalyticsSync, 43200000)) ∈ intervals t;
  ok_fresh : ∀ i, i ∈ intervals t → (i.1 < next_handle t)%nat
}.

(** ** Further sample data *)

Definition pin_due_at (t : Z) : pin :=
  {| user_id := "user-1"; title := JStr "Spring sale";
     description := JStr "Ten percent off"; timezone := JStr "UTC";
     status := JStr "scheduled"; scheduled_for := t;
     is_recurring := JBool false; recurrence_pattern := JNull;
     retry_count := Some 0; next_retry_at := None;
     error_message := None; credits_deducted := false;
     pinterest_pin_id := None; access_token := Some "token-1";
     pin_metrics := None; metrics_last_updated := None |}.

(** Eleven due pins, [pin-k] due at [100 * k]. *)
Definition eleven_pins : gmap string pin :=
  list_to_map
    [ ("pin-a", pin_due_at 100); ("pin-b", pin_due_at 200); ("pin-c", pin_due_at 300);
      ("pin-d", pin_due_at 400); ("pin-e", pin_due_at 500); ("pin-f", pin_due_at 600);
      ("pin-g", pin_due_at 700); ("pin-h", pin_due_at 800); ("pin-i", pin_due_at 900);
      ("pin-j", pin_due_at 1000); ("pin-k", pin_due_at 1100) ].

(** A due pin whose title is [null]. *)
Definition untitled_pin : pin :=
  {| user_id := "user-1"; title := JNull;
     description := JStr "Ten percent off"; timezone := JStr "UTC";
     status := JStr "scheduled"; scheduled_for := 100;
     is_recurring := JBool false; recurrence_pattern := JNull;
     retry_count := Some 0; next_retry_at := None;
     error_message := None; credits_deducted := false;
     pinterest_pin_id := None; access_token := Some "token-1";
     pin_metrics := None; metrics_last_updated := None |}.

(** A refresh at the instant 90000000 that the API answers with
    [sample_answer] for every pin. *)
Definition sample_sync : sync_input :=
  {| sync_now := 90000000; check_time := λ _, 90000000; write_time := λ _, 90000500;
     analytics := λ _, Answer sample_answer;
     sync_fetchError := false; sync_updateError := λ _, false |}.

(** A posted pin whose metrics were refreshed at the instant 80000000. *)
Definition fresh_posted_pin : pin := set_metrics sample_metrics 80000000 posted_pin.

(** A due pin whose account row has no token. *)
Definition tokenless_pin : pin :=
  {| user_id := "user-1"; title := JStr "Spring sale";
     description := JStr "Ten percent off"; timezone := JStr "UTC";
     status := JStr "scheduled"; scheduled_for := 1000;
     is_recurring := JBool false; recurrence_pattern := JNull;
     retry_count := Some 0; next_retry_at := None;
     error_message := None; credits_deducted := false;
     pinterest_pin_id := None; access_token := None;
     pin_metrics := None; metrics_last_updated := None |}.

(** Four runs of the scheduler, each after the five-minute delay of the
    one before, all of them meeting an API that would accept the pin. *)
Definition four_runs : list tick :=
  [ quiet_tick 2000 (ApiOk (Some "pinterest-77"));
    quiet_tick 400000 (ApiOk (Some "pinterest-77"));
    quiet_tick 800000 (ApiOk (Some "pinterest-77"));
    quiet_tick 1200000 (ApiOk (Some "pinterest-77")) ].

(** [parseInt(text, 10)]: as [parseInt_ref], without the hexadecimal form. *)
Definition parseInt10_ref (text : string) : option Z :=
  let s := skip_ws (String.list_ascii_of_string text) in
  let '(negative, s) :=
    match s with
    | "-"%char :: rest => (true, rest)
    | "+"%char :: rest => (false, rest)
    | _ => (false, s)
    end in
  (λ n, if negative then - n else n) <$> (digits_from digit_value 10 None s).1.

(** A subscriber on the creator plan with 37 credits left, and a user on
    the free plan with 12. *)
Definition subscriber : profile :=
  {| plan_type := Some "creator"; credits_remaining := Some 37; is_pro := true;
     stripe_customer_id := Some "cus_1"; stripe_subscription_id := Some "sub_1" |}.

Definition free_user : profile :=
  {| plan_type := Some "free"; credits_remaining := Some 12; is_pro := false;
     stripe_customer_id := None; stripe_subscription_id := None |}.

Definition two_profiles : gmap string profile :=
  {[ "user-1" := subscriber; "user-2" := free_user ]}.

(** A signature check that accepts every raw body and, like the library,
    no value that is not the text Stripe signed. *)
Definition constructEvent_ref (b : request_body) : option stripe_event :=
  match b with
  | RawBody _ => Some (InvoicePaymentSucceeded (Some "cus_1"))
  | ParsedBody _ => None
  end.

(** A delivery as Stripe sends it: JSON, well under the limit. *)
Definition invoice_delivery : delivery :=
  {| is_json := true; over_limit := false;
     payload := "{" +:+ String (Ascii.ascii_of_nat 34)
                  ("type" +:+ String (Ascii.ascii_of_nat 34)
                     (":" +:+ String (Ascii.ascii_of_nat 34)
                        ("invoice.payment_succeeded" +:+ String (Ascii.ascii_of_nat 34) "}"))) |}.

Definition no_ToString : jsvalue → string := λ _, "".

(** One account of [user-1], and a token in that user's profile. *)
Definition sample_tokens : token_tables :=
  {| pinterest_accounts :=
       {[ "acc-1" := {| account_user_id := "user-1";
                        account_access_token := Some "token-1" |} ]};
     pinterest_access_token := {[ "user-1" := Some "legacy-token" ]} |}.

(** A template payload with the id [tpl-1], and that template as a row of
    [user-2]. *)
Definition sample_template : jsvalue :=
  JObj [("id", JStr "tpl-1"); ("name", JStr "Banner"); ("elements", JArr [])].

Definition templates_of_user_2 : gmap string template_row :=
  {[ "tpl-1" := {| template_user_id := "user-2"; template_name := JStr "Banner";
                   template_json := sample_template; updated_at := 1000 |} ]}.

(** * Properties *)

Lemma js_is_true lit v : js_is lit v = true ↔ v = JStr lit.
Proof.
  destruct v; simpl; try (split; [discriminate | intros [=]]).
  rewrite String.eqb_eq. split; [intros -> | intros [=]]; done.
Qed.

(** ** Retry policy *)

Lemma update_eq_id_lookup f id db :
  update_eq_id f id db !! id = f <$> db !! id.
Proof. unfold update_eq_id. by rewrite lookup_alter_eq. Qed.

Lemma update_eq_id_lookup_ne f id id' db :
  id ≠ id' → update_eq_id f id db !! id' = db !! id'.
Proof. intros. unfold update_eq_id. by rewrite lookup_alter_ne. Qed.

Lemma add_minutes_steady rt now m :
  steady_offset rt now (m * 60000) → add_minutes rt now m = now + m * 60000.
Proof.
  unfold steady_offset, add_minutes, add_local, UTC, LocalTime. intros ->. lia.
Qed.

Lemma backoff_minutes_nonneg rc : 0 ≤ rc → backoff_minutes rc = 5 * 3 ^ rc.
Proof. intros. unfold backoff_minutes. by destruct (Z.leb_spec 0 rc); [|lia]. Qed.

Lemma handlePinError_retry rt now id msg rc db :
  rc + 1 ≤ maxRetries →
  handlePinError rt now id msg rc false db !! id =
    (λ p, set_retry (Some (rc + 1)) (Some (add_minutes rt now (backoff_minutes rc)))
            (Some msg) (set_status (JStr "failed") p)) <$> db !! id.
Proof.
  intros Hle. unfold handlePinError.
  destruct (Z.leb_spec (rc + 1) maxRetries); [|lia].
  apply update_eq_id_lookup.
Qed.

Lemma handlePinError_final rt now id msg rc db :
  maxRetries < rc + 1 →
  handlePinError rt now id msg rc false db !! id =
    (λ p, set_retry (retry_count p) None (Some ("Max retries reached: " +:+ msg))
            (set_status (JStr "failed") p)) <$> db !! id.
Proof.
  intros Hlt. unfold handlePinError.
  destruct (Z.leb_spec (rc + 1) maxRetries); [lia|].
  apply update_eq_id_lookup.
Qed.

Lemma handlePinError_lost rt now id msg rc db :
  handlePinError rt now id msg rc true db = db.
Proof. reflexivity. Qed.

Lemma handlePinError_other rt now id id' msg rc updateError db :
  id ≠ id' → handlePinError rt now id msg rc updateError db !! id' = db !! id'.
Proof.
  intros. unfold handlePinError.
  destruct updateError; [done|].
  destruct (_ <=? _); by apply update_eq_id_lookup_ne.
Qed.

(** The retry write of [handlePinError], when it lands: a failure whose
    incremented retry count [n] is at most 3 leaves the pin [failed] with
    [retry_count = n] and [next_retry_at] the instant that [setMinutes]
    gives, [5 * 3^(n-1)] minutes later on the local clock. Where the zone
    offset is the same at both ends this is the failure instant plus 5, 15
    or 45 minutes. *)
Theorem handlePinError_backoff (rt : runtime) (now : Z) (id msg : string) (rc : Z)
    (db : gmap string pin) (p : pin) :
  db !! id = Some p →
  0 ≤ rc →
  rc + 1 ≤ 3 →
  let n := rc + 1 in
  ∃ p', handlePinError rt now id msg rc false db !! id = Some p'
      ∧ status p' = JStr "failed"
      ∧ retry_count p' = Some n
      ∧ next_retry_at p' = Some (UTC rt (LocalTime rt now + (5 * 3 ^ (n - 1)) * 60000))
      ∧ (steady_offset rt now ((5 * 3 ^ (n - 1)) * 60000) →
         next_retry_at p' = Some (now + (5 * 3 ^ (n - 1)) * 60000)
         ∧ ((n = 1 ∧ next_retry_at p' = Some (now + 5 * 60000))
            ∨ (n = 2 ∧ next_retry_at p' = Some (now + 15 * 60000))
            ∨ (n = 3 ∧ next_retry_at p' = Some (now + 45 * 60000)))).
Proof.
  intros Hp Hrc Hle n.
  rewrite handlePinError_retry by (unfold maxRetries; lia).
  rewrite Hp. simpl. eexists. split; [reflexivity|]. simpl.
  rewrite backoff_minutes_nonneg by done.
  unfold n. replace (rc + 1 - 1) with rc by lia.
  split; [done|]. split; [done|]. split; [done|].
  intros Hsteady. rewrite add_minutes_steady by done. split; [done|].
  assert (rc = 0 ∨ rc = 1 ∨ rc = 2) as [-> | [-> | ->]] by lia;
    [left | right; left | right; right]; split; reflexivity.
Qed.

Lemma handlePinError_backoff_witness :
  ∃ p', handlePinError utc_host 5000 "pin-1" "rate limited" 1 false
          {[ "pin-1" := sample_pin ]} !! "pin-1" = Some p'
      ∧ status p' = JStr "failed"
      ∧ retry_count p' = Some 2
      ∧ next_retry_at p' = Some (5000 + (5 * 3 ^ (2 - 1)) * 60000).
Proof.
  destruct (handlePinError_backoff utc_host 5000 "pin-1" "rate limited" 1
              {[ "pin-1" := sample_pin ]} sample_pin)
    as (p' & Hp' & Hs & Hn & _ & Hsteady).
  - reflexivity.
  - lia.
  - lia.
  - exists p'. repeat split; try done. by apply Hsteady.
Defined.

(** The three delays, on a run of the handler in a zone without changes. *)
Example handlePinError_delays :
  let db := {[ "pin-1" := sample_pin ]} in
  let next rc := next_retry_at <$> handlePinError utc_host 0 "pin-1" "e" rc false db !! "pin-1" in
  next 0 = Some (Some 300000)
  ∧ next 1 = Some (Some 900000)
  ∧ next 2 = Some (Some 2700000)
  ∧ next 3 = Some None.
Proof. vm_compute. done. Qed.

(** C4. A third failure at 2026-11-01T05:30:00Z on a host in New York, half
    an hour before its clocks go back: the pin is [failed] with
    [retry_count = 3], and [next_retry_at] is 07:15:00Z, 105 minutes after
    the failure instant and not the 45 minutes of [5 * 3^(3-1)]. *)
Theorem handlePinError_backoff_when_clocks_go_back :
  let now := 1793511000000 in
  let db := handlePinError new_york now "pin-1" "rate limited" 2 false
              {[ "pin-1" := sample_pin ]} in
  (status <$> db !! "pin-1") = Some (JStr "failed")
  ∧ (retry_count <$> db !! "pin-1") = Some (Some 3)
  ∧ (next_retry_at <$> db !! "pin-1") = Some (Some (now + 105 * 60000))
  ∧ (next_retry_at <$> db !! "pin-1") ≠ Some (Some (now + (5 * 3 ^ (3 - 1)) * 60000)).
Proof. vm_compute. repeat split; congruence. Qed.

(** In the hour that the change repeats, the wake instant of a first
    failure lies before the failure itself. *)
Example handlePinError_wakes_before_the_failure :
  let now := 1793514600000 in
  let db := handlePinError new_york now "pin-1" "rate limited" 0 false
              {[ "pin-1" := sample_pin ]} in
  (next_retry_at <$> db !! "pin-1") = Some (Some (now - 55 * 60000)).
Proof. vm_compute. done. Qed.

(** How the executor reaches the policy. A failed API call passes the row's
    [retry_count || 0]; the missing-token branch passes nothing, so the
    count restarts from the default 0 there. *)
Lemma processScheduledPin_failure now att id p w :
  pins w !! id = Some p →
  (∃ s, title p = JStr s) →
  claim_error att = false →
  failed_error att = false →
  has_token p = false ∨ (∃ msg, api att = Refused msg) →
  0 ≤ default 0 (retry_count p) →
  let passed := if has_token p then default 0 (retry_count p) else 0 in
  passed + 1 ≤ 3 →
  ∃ w' p', processScheduledPin now att (id, p) w = Some w'
    ∧ pins w' !! id = Some p'
    ∧ status p' = JStr "failed"
    ∧ retry_count p' = Some (passed + 1)
    ∧ next_retry_at p' = Some (add_minutes (host w) now (5 * 3 ^ passed)).
Proof.
  intros Hp [s Ht] Hclaim Hlands Hfail Hrc passed Hle. subst passed.
  unfold processScheduledPin, claim_pin. cbn -[handlePinError].
  rewrite Ht, Hclaim, Hlands.
  destruct (has_token p) eqn:Htok; cbn -[handlePinError].
  - destruct Hfail as [[=] | [msg ->]].
    eexists _, _. split; [reflexivity|]. cbn -[handlePinError].
    rewrite handlePinError_retry by (unfold maxRetries; lia).
    rewrite update_eq_id_lookup, Hp. simpl.
    by rewrite backoff_minutes_nonneg.
  - eexists _, _. split; [reflexivity|]. cbn -[handlePinError].
    rewrite handlePinError_retry by (unfold maxRetries; lia).
    rewrite update_eq_id_lookup, Hp. simpl. done.
Qed.

(** A pin that has failed twice and then loses its access token is sent
    back to a count of 1 and a delay of 5 minutes. *)
Example missing_token_restarts_the_count :
  let p := set_retry (Some 2) (Some 4000) (Some "rate limited")
             (set_status (JStr "failed")
                {| user_id := "user-1"; title := JStr "Spring sale";
                   description := JStr "Ten percent off"; timezone := JStr "UTC";
                   status := JStr "scheduled"; scheduled_for := 1000;
                   is_recurring := JBool false; recurrence_pattern := JNull;
                   retry_count := Some 0; next_retry_at := None;
                   error_message := None; credits_deducted := false;
                   pinterest_pin_id := None; access_token := None;
                   pin_metrics := None; metrics_last_updated := None |}) in
  let w' := processScheduledPins (quiet_tick 5000 (ApiOk None)) (world_of {[ "pin-1" := p ]}) in
  (retry_count <$> pins w' !! "pin-1") = Some (Some 1)
  ∧ (next_retry_at <$> pins w' !! "pin-1") = Some (Some 305000).
Proof. vm_compute. done. Qed.

(** ** The due-job query *)

Lemma is_due_spec now1 now2 p :
  is_due now1 now2 p = true ↔
    (status p = JStr "scheduled" ∨ status p = JStr "failed")
    ∧ scheduled_for p ≤ now1
    ∧ (next_retry_at p = None ∨ ∃ t, next_retry_at p = Some t ∧ t ≤ now2).
Proof.
  unfold is_due.
  rewrite !andb_true_iff, orb_true_iff, !js_is_true, Z.leb_le.
  destruct (next_retry_at p) as [t|].
  - rewrite Z.leb_le. split.
    + intros [[? ?] ?]. eauto 10.
    + intros (? & ? & [[=] | (t' & [= <-] & ?)]). done.
  - split; [intros [[? ?] _]; eauto | intros (? & ? & _); done].
Qed.

Lemma elem_of_fetchDue now1 now2 db r :
  r ∈ fetchDue now1 now2 db → db !! r.1 = Some r.2 ∧ is_due now1 now2 r.2 = true.
Proof.
  unfold fetchDue. intros Hin.
  apply subseteq_take in Hin.
  rewrite merge_sort_Permutation in Hin.
  apply list_elem_of_filter in Hin as [Hdue Hin].
  destruct r as [id p]. by apply elem_of_map_to_list in Hin.
Qed.

Lemma fetchDue_sorted now1 now2 db :
  StronglySorted by_scheduled_for (fetchDue now1 now2 db).
Proof.
  unfold fetchDue.
  eapply StronglySorted_app_1_l. rewrite take_drop.
  apply StronglySorted_merge_sort; apply _.
Qed.

Lemma fetchDue_NoDup now1 now2 db : NoDup (fetchDue now1 now2 db).*1.
Proof.
  unfold fetchDue.
  eapply sublist_NoDup; [|apply fmap_sublist, sublist_take].
  rewrite merge_sort_Permutation.
  eapply sublist_NoDup; [|apply fmap_sublist, sublist_filter].
  apply NoDup_fst_map_to_list.
Qed.

(** C5. Whatever the store and the clock, the due-job query returns at most
    10 rows, in ascending order of [scheduled_for], each of them a row of
    the store whose status is [scheduled] or [failed] (so neither [posted]
    nor [cancelled]), whose [scheduled_for] is not after the clock reading
    of its filter and whose [next_retry_at] is null or not after the clock
    reading of its filter. *)
Theorem fetchDue_sound (db : gmap string pin) (now1 now2 : Z) :
  let due := fetchDue now1 now2 db in
  (length due ≤ 10)%nat
  ∧ StronglySorted (λ r1 r2, scheduled_for r1.2 ≤ scheduled_for r2.2) due
  ∧ ∀ id p, (id, p) ∈ due →
      db !! id = Some p
      ∧ (status p = JStr "scheduled" ∨ status p = JStr "failed")
      ∧ status p ≠ JStr "posted" ∧ status p ≠ JStr "cancelled"
      ∧ scheduled_for p ≤ now1
      ∧ (next_retry_at p = None ∨ ∃ t, next_retry_at p = Some t ∧ t ≤ now2).
Proof.
  intros due. split; [|split].
  - unfold due, fetchDue. rewrite length_take. unfold batch_limit. lia.
  - apply fetchDue_sorted.
  - intros id p Hin. apply elem_of_fetchDue in Hin as [Hdb Hdue]. simpl in *.
    apply is_due_spec in Hdue as (Hst & Hsched & Hretry).
    repeat split; try done; destruct Hst as [-> | ->]; congruence.
Qed.

(** ** A pin that ran out of retries *)

Lemma size_update_eq_id f id (db : gmap string pin) :
  size (update_eq_id f id db) = size db.
Proof.
  unfold update_eq_id.
  rewrite <- !(size_dom (D := gset string)). by rewrite dom_alter_L.
Qed.

Lemma size_handlePinError rt now id msg rc updateError db :
  size (handlePinError rt now id msg rc updateError db) = size db.
Proof.
  unfold handlePinError. destruct updateError; [done|].
  destruct (_ <=? _); apply size_update_eq_id.
Qed.

Lemma fetchDue_complete now1 now2 (db : gmap string pin) id p :
  (size db ≤ batch_limit)%nat →
  db !! id = Some p →
  is_due now1 now2 p = true →
  (id, p) ∈ fetchDue now1 now2 db.
Proof.
  intros Hsize Hdb Hdue. unfold fetchDue.
  rewrite take_ge.
  - rewrite merge_sort_Permutation. apply list_elem_of_filter. split; [done|].
    by apply elem_of_map_to_list.
  - rewrite merge_sort_Permutation.
    etrans; [apply length_filter|]. by rewrite length_map_to_list.
Qed.

(** C1, on the code. A pin whose [retry_count] is 3 and whose attempt fails
    is written back as [failed] with [next_retry_at] null and [retry_count]
    still 3; the due-job query has no test on [retry_count], so at every
    later poll (any clock readings [t1], [t2] not before [scheduled_for])
    the query selects the pin again. The store is taken small enough for
    the batch limit not to cut the pin off. *)
Theorem exhausted_pin_is_due_again (w : world) (id : string) (p : pin)
    (now : Z) (msg : string) (t1 t2 : Z) :
  pins w !! id = Some p →
  (∃ s, title p = JStr s) →
  has_token p = true →
  retry_count p = Some 3 →
  scheduled_for p ≤ t1 →
  (size (pins w) ≤ 10)%nat →
  ∃ w' p',
    processScheduledPin now (ApiFail msg) (id, p) w = Some w'
    ∧ pins w' !! id = Some p'
    ∧ status p' = JStr "failed"
    ∧ next_retry_at p' = None
    ∧ retry_count p' = Some 3
    ∧ (id, p') ∈ fetchDue t1 t2 (pins w').
Proof.
  intros Hp [s Ht] Htok Hrc Hsched Hsize.
  unfold processScheduledPin. cbn -[handlePinError]. rewrite Ht, Htok, Hrc.
  cbn -[handlePinError].
  eexists _, _. split; [reflexivity|]. cbn -[handlePinError].
  assert (handlePinError (host w) now id msg 3 false
            (update_eq_id (set_status (JStr "posting")) id (pins w)) !! id
          = Some (set_retry (Some 3) None (Some ("Max retries reached: " +:+ msg))
                    (set_status (JStr "failed") (set_status (JStr "posting") p)))) as Hl.
  { rewrite handlePinError_final by (unfold maxRetries; lia).
    rewrite update_eq_id_lookup, Hp. simpl. by rewrite Hrc. }
  split; [exact Hl|]. repeat split.
  apply fetchDue_complete; [| exact Hl |].
  - by rewrite size_handlePinError, size_update_eq_id.
  - apply is_due_spec. simpl. split; [by right|]. split; [done | by left].
Qed.

Lemma exhausted_pin_is_due_again_witness :
  ∃ w' p',
    processScheduledPin 5000 (ApiFail "rate limited") ("pin-1", exhausted_pin)
      (world_of {[ "pin-1" := exhausted_pin ]}) = Some w'
    ∧ pins w' !! "pin-1" = Some p'
    ∧ status p' = JStr "failed"
    ∧ next_retry_at p' = None
    ∧ retry_count p' = Some 3
    ∧ ("pin-1", p') ∈ fetchDue 86400000 86400000 (pins w').
Proof.
  apply (exhausted_pin_is_due_again (world_of {[ "pin-1" := exhausted_pin ]})
           "pin-1" exhausted_pin 5000 "rate limited" 86400000 86400000).
  - reflexivity.
  - by eexists.
  - reflexivity.
  - reflexivity.
  - simpl. lia.
  - simpl. rewrite map_size_singleton. lia.
Defined.

(** The same on a run: after the failure that exhausts the retries, every
    later poll attempts the pin again. *)
Example exhausted_pin_polled_forever :
  let w1 := processScheduledPins (quiet_tick 5000 (ApiFail "rate limited"))
              (world_of {[ "pin-1" := exhausted_pin ]}) in
  let w2 := processScheduledPins (quiet_tick 65000 (ApiFail "rate limited")) w1 in
  let w3 := processScheduledPins (quiet_tick 125000 (ApiFail "rate limited")) w2 in
  (next_retry_at <$> pins w1 !! "pin-1") = Some None
  ∧ publishes "pin-1" w1 = 1%nat
  ∧ publishes "pin-1" w2 = 2%nat
  ∧ publishes "pin-1" w3 = 3%nat.
Proof. vm_compute. done. Qed.

(** ** Claiming a pin *)

Lemma count_if_app f tr1 tr2 :
  count_if f (tr1 ++ tr2) = (count_if f tr1 + count_if f tr2)%nat.
Proof. induction tr1 as [|e tr1 IH]; simpl; [done|]. rewrite IH. lia. Qed.

(** C2, on the code. The claiming write is keyed by the pin id alone and
    its only failure is an error of the store, so it does not tell a pin
    that is still [scheduled] from one that another poller has claimed.
    When two pollers have both read the same due row [(id, p)] from the
    store before either claims it, both claims go through: the first
    poller posts the pin, the second one claims the already [posted] pin
    again, and the pin is published twice. *)
Theorem concurrent_claims_both_publish (w : world) (id : string) (p : pin)
    (a1 a2 b1 b2 nowA nowB : Z) (pinA pinB : option string) :
  (id, p) ∈ fetchDue a1 a2 (pins w) →
  (id, p) ∈ fetchDue b1 b2 (pins w) →
  (∃ s, title p = JStr s) →
  has_token p = true →
  ∃ wA wB,
    is_Some (claim_pin (ApiOk pinA) id (pins w))
    ∧ processScheduledPin nowA (ApiOk pinA) (id, p) w = Some wA
    ∧ status_of id wA = Some (JStr "posted")
    ∧ is_Some (claim_pin (ApiOk pinB) id (pins wA))
    ∧ processScheduledPin nowB (ApiOk pinB) (id, p) wA = Some wB
    ∧ status_of id wB = Some (JStr "posted")
    ∧ publishes id wA = (publishes id w + 1)%nat
    ∧ publishes id wB = (publishes id w + 2)%nat.
Proof.
  intros HA _ [s Ht] Htok.
  apply elem_of_fetchDue in HA as [Hdb _]. simpl in Hdb.
  unfold processScheduledPin, status_of, publishes. simpl. rewrite Ht, Htok. simpl.
  destruct (credits_deducted p); simpl;
    (eexists _, _; split; [by eexists|]; split; [reflexivity|]; simpl;
     rewrite ?update_eq_id_lookup, Hdb; simpl;
     split; [reflexivity|]; split; [by eexists|]; split; [reflexivity|]; simpl;
     rewrite ?update_eq_id_lookup, Hdb; simpl;
     split; [reflexivity|];
     rewrite !count_if_app; simpl; rewrite String.eqb_refl; split; lia).
Qed.

Lemma concurrent_claims_both_publish_witness :
  let w := world_of {[ "pin-1" := sample_pin ]} in
  ∃ wA wB,
    is_Some (claim_pin (ApiOk (Some "pinterest-77")) "pin-1" (pins w))
    ∧ processScheduledPin 2000 (ApiOk (Some "pinterest-77")) ("pin-1", sample_pin) w
      = Some wA
    ∧ status_of "pin-1" wA = Some (JStr "posted")
    ∧ is_Some (claim_pin (ApiOk (Some "pinterest-78")) "pin-1" (pins wA))
    ∧ processScheduledPin 2001 (ApiOk (Some "pinterest-78")) ("pin-1", sample_pin) wA
      = Some wB
    ∧ status_of "pin-1" wB = Some (JStr "posted")
    ∧ publishes "pin-1" wA = (publishes "pin-1" w + 1)%nat
    ∧ publishes "pin-1" wB = (publishes "pin-1" w + 2)%nat.
Proof.
  apply (concurrent_claims_both_publish (world_of {[ "pin-1" := sample_pin ]})
           "pin-1" sample_pin 2000 2000 2000 2000 2000 2001).
  - vm_compute. apply list_elem_of_here.
  - vm_compute. apply list_elem_of_here.
  - by eexists.
  - reflexivity.
Defined.

(** The second of two such pollers also debits the owner again: its row was
    read before the first one set [credits_deducted]. *)
Example concurrent_claims_debit_twice :
  let w := world_of {[ "pin-1" := sample_pin ]} in
  let wA := default w (processScheduledPin 2000 (ApiOk (Some "pinterest-77"))
                         ("pin-1", sample_pin) w) in
  let wB := default wA (processScheduledPin 2001 (ApiOk (Some "pinterest-78"))
                          ("pin-1", sample_pin) wA) in
  debits "pin-1" wB = 2%nat ∧ profiles wB !! "user-1" = Some (Some 3).
Proof. vm_compute. done. Qed.

(** ** Credit accounting *)

Lemma update_eq_id_preserves {B} (g : pin → B) f i j db :
  (∀ p, g (f p) = g p) →
  g <$> update_eq_id f i db !! j = g <$> db !! j.
Proof.
  intros Hg. unfold update_eq_id. rewrite lookup_alter. case_decide; [|done].
  subst. destruct (db !! j); simpl; [by rewrite Hg | done].
Qed.

Lemma processScheduledPin_other now att r w w' j :
  processScheduledPin now att r w = Some w' →
  r.1 ≠ j →
  pins w' !! j = pins w !! j
  ∧ debits j w' = debits j w ∧ flags j w' = flags j w ∧ publishes j w' = publishes j w.
Proof.
  intros Hrun Hne. apply String.eqb_neq in Hne as Heqb.
  unfold processScheduledPin in Hrun.
  unfold debits, flags, publishes.
  unfold claim_pin in Hrun.
  repeat case_match; simplify_eq; cbn -[handlePinError];
    rewrite ?count_if_app; simpl; rewrite ?Heqb;
    rewrite ?handlePinError_other, ?update_eq_id_lookup_ne by done;
    repeat split; lia.
Qed.

Lemma processScheduledPin_own now att j p w w' :
  writes_land att →
  pins w !! j = Some p →
  status p = JStr "scheduled" ∨ status p = JStr "failed" →
  processScheduledPin now att (j, p) w = Some w' →
  uncharged j w w' ∨ charged j w w'.
Proof.
  intros (Hposted & Hflag & _) Hp Hst Hrun.
  unfold processScheduledPin, claim_pin in Hrun. cbn -[handlePinError] in Hrun.
  rewrite Hposted, Hflag in Hrun.
  unfold uncharged, charged, debits, flags.
  destruct (title p); try discriminate.
  destruct (claim_error att); [left; by inversion Hrun|].
  destruct (has_token p); cbn -[handlePinError] in Hrun;
    [destruct (api att); [destruct (credits_deducted p) eqn:Hcd|] |];
    cbn -[handlePinError] in Hrun;
    inversion Hrun; subst; clear Hrun; cbn -[handlePinError];
    rewrite ?count_if_app; simpl; rewrite ?String.eqb_refl;
    try (left; split; lia).
  right. repeat split; try lia.
  - by exists p.
  - rewrite !update_eq_id_lookup, Hp. simpl. by eexists.
Qed.

Lemma process_batch_other tk l w j :
  (∀ r, r ∈ l → r.1 ≠ j) →
  pins (process_batch tk l w) !! j = pins w !! j
  ∧ debits j (process_batch tk l w) = debits j w
  ∧ flags j (process_batch tk l w) = flags j w.
Proof.
  revert w. induction l as [|r l IH]; intros w Hl; simpl; [done|].
  destruct (processScheduledPin _ _ r w) as [w1|] eqn:Hrun; [|done].
  apply (processScheduledPin_other _ _ _ _ _ j) in Hrun as (Hp & Hd & Hf & _);
    [|apply Hl; left].
  destruct (IH w1) as (Hp' & Hd' & Hf'); [intros; apply Hl; by right|].
  rewrite Hp', Hd', Hf'. done.
Qed.

Lemma process_batch_own tk l w j :
  (∀ id, writes_land (outcome tk id)) →
  NoDup l.*1 →
  (∀ p, (j, p) ∈ l →
        pins w !! j = Some p ∧ (status p = JStr "scheduled" ∨ status p = JStr "failed")) →
  uncharged j w (process_batch tk l w) ∨ charged j w (process_batch tk l w).
Proof.
  intros Hlands.
  revert w. induction l as [|[i p] l IH]; intros w Hnd Hl; simpl; [by left|].
  apply NoDup_cons in Hnd as [Hi Hnd]. simpl in Hi.
  destruct (processScheduledPin _ _ (i, p) w) as [w1|] eqn:Hrun; [|by left].
  destruct (decide (i = j)) as [->|Hne].
  - destruct (Hl p) as [Hp Hst]; [left|].
    destruct (process_batch_other tk l w1 j) as (Hp' & Hd' & Hf').
    { intros [i' p'] Hin Heq. simpl in Heq. subst i'.
      apply Hi. apply list_elem_of_fmap. by exists (j, p'). }
    destruct (processScheduledPin_own _ _ _ _ _ _ (Hlands j) Hp Hst Hrun)
      as [[Hd Hf] | (Hd & Hf & Hbefore & Hafter)]; [left | right].
    + split; congruence.
    + split; [congruence|]. split; [congruence|]. split; [done|]. by rewrite Hp'.
  - apply (processScheduledPin_other _ _ _ _ _ j) in Hrun as (Hp & Hd & Hf & _); [|done].
    destruct (IH w1 Hnd) as [[Hd' Hf'] | (Hd' & Hf' & Hbefore & Hafter)].
    + intros q Hin. rewrite Hp. apply Hl. by right.
    + left. split; congruence.
    + right. split; [congruence|]. split; [congruence|]. split; [by rewrite <- Hp | done].
Qed.

Lemma select_own_Some user id w p :
  select_own user id w = Some p → pins w !! id = Some p ∧ user_id p = user.
Proof.
  unfold select_own. destruct (pins w !! id) as [q|]; [|done].
  case_bool_decide; [|done]. by intros [= ->].
Qed.

Lemma absorbed_not_due now1 now2 w r j :
  absorbed j w → r ∈ fetchDue now1 now2 (pins w) → r.1 ≠ j.
Proof.
  intros Habs Hin <-. apply elem_of_fetchDue in Hin as [Hdb Hdue].
  apply is_due_spec in Hdue as (Hst & _).
  unfold absorbed, status_of in Habs. rewrite Hdb in Habs. simpl in Habs.
  destruct Habs as [[=] | [= Hposted]]. destruct Hst; congruence.
Qed.

Lemma processScheduledPins_absorbed tk w j :
  absorbed j w →
  pins (processScheduledPins tk w) !! j = pins w !! j
  ∧ uncharged j w (processScheduledPins tk w).
Proof.
  intros Habs. unfold processScheduledPins, uncharged.
  destruct (fetchError tk); [done|].
  apply process_batch_other. intros r Hin. by eapply absorbed_not_due.
Qed.

Lemma processScheduledPins_charge tk w j :
  (∀ id, writes_land (outcome tk id)) →
  uncharged j w (processScheduledPins tk w) ∨ charged j w (processScheduledPins tk w).
Proof.
  intros Hlands.
  unfold processScheduledPins. destruct (fetchError tk); [by left|].
  apply process_batch_own; [done | apply fetchDue_NoDup|].
  intros p Hin. apply elem_of_fetchDue in Hin as [Hdb Hdue]. simpl in *.
  split; [done|]. by apply is_due_spec in Hdue as (Hst & _).
Qed.

Section RefreshFrame.

Variable ToNumber_other : jsvalue → float.

Lemma refresh_pin_preserves {B} (g : pin → B) rt si limit r db j :
  (∀ m now p, g (set_metrics m now p) = g p) →
  g <$> refresh_pin ToNumber_other rt si limit r db !! j = g <$> db !! j.
Proof.
  intros Hg. unfold refresh_pin.
  destruct (skipped _ _); [done|].
  destruct (analytics si r.1); [done|].
  destruct (metrics_of_answer _ _ _); [|done].
  destruct (sync_updateError si r.1); [done|].
  by apply update_eq_id_preserves.
Qed.

Lemma refresh_all_preserves {B} (g : pin → B) rt si limit l db j :
  (∀ m now p, g (set_metrics m now p) = g p) →
  g <$> foldl (λ db r, refresh_pin ToNumber_other rt si limit r db) db l !! j = g <$> db !! j.
Proof.
  intros Hg. revert db. induction l as [|r l IH]; intros db; simpl; [done|].
  rewrite IH. by apply refresh_pin_preserves.
Qed.

Lemma syncUserAnalytics_preserves {B} (g : pin → B) userId accessToken si w j :
  (∀ m now p, g (set_metrics m now p) = g p) →
  g <$> pins (syncUserAnalytics ToNumber_other userId accessToken si w) !! j
    = g <$> pins w !! j
  ∧ trace (syncUserAnalytics ToNumber_other userId accessToken si w) = trace w.
Proof.
  intros Hg. unfold syncUserAnalytics.
  destruct accessToken as [t|]; [|done]. destruct (String.eqb t ""); [done|].
  destruct (sync_fetchError si); [done|].
  simpl. split; [|done]. by apply refresh_all_preserves.
Qed.

Lemma sync_analytics_preserves {B} (g : pin → B) user accessToken force_sync si w j :
  (∀ m now p, g (set_metrics m now p) = g p) →
  g <$> pins (sync_analytics ToNumber_other user accessToken force_sync si w) !! j
    = g <$> pins w !! j
  ∧ trace (sync_analytics ToNumber_other user accessToken force_sync si w) = trace w.
Proof.
  intros Hg. unfold sync_analytics.
  destruct user as [u|]; [|done]. destruct accessToken as [t|]; [|done].
  destruct (String.eqb t ""); [done|].
  destruct (sync_fetchError si); [done|].
  simpl. split; [|done]. by apply refresh_all_preserves.
Qed.

End RefreshFrame.

Section HistoryProperties.

Variable JSON_parse : string → option jsvalue.
Variable Date_parse : jsvalue → option Z.
Variable ToNumber_other : jsvalue → float.

Local Abbreviation run_op := (run_op JSON_parse Date_parse ToNumber_other).
Local Abbreviation run := (run JSON_parse Date_parse ToNumber_other).

Lemma run_op_trace o w : is_tick o = false → trace (run_op o w) = trace w.
Proof.
  destruct o; simpl; try discriminate; intros _.
  - unfold schedule_pin. repeat case_match; done.
  - unfold update_scheduled_pin. repeat case_match; done.
  - unfold cancel_scheduled_pin. repeat case_match; done.
  - unfold delete_scheduled_pin_permanent. repeat case_match; done.
  - by destruct (syncUserAnalytics_preserves ToNumber_other status userId accessToken
                   si w "") as [_ ->].
  - by destruct (sync_analytics_preserves ToNumber_other status user accessToken
                   force_sync si w "") as [_ ->].
Qed.

Lemma run_op_charge o w j :
  op_writes_land o →
  uncharged j w (run_op o w) ∨ charged j w (run_op o w).
Proof.
  intros Hlands. destruct (is_tick o) eqn:Htick.
  - destruct o; try discriminate. by apply processScheduledPins_charge.
  - left. unfold uncharged, debits, flags. by rewrite run_op_trace.
Qed.

Lemma run_op_absorbed o w j :
  inserted_id o ≠ Some j → absorbed j w → absorbed j (run_op o w).
Proof.
  intros Hins Habs. unfold absorbed, status_of in *.
  destruct o; simpl in *.
  - by destruct (processScheduledPins_absorbed tk w j Habs) as [-> _].
  - unfold schedule_pin. repeat case_match; simpl; try done;
      (rewrite lookup_insert_ne; [done | congruence]).
  - unfold update_scheduled_pin.
    destruct user as [u|]; [|done].
    destruct (select_own u id w) as [q|] eqn:Hsel; [|done].
    apply select_own_Some in Hsel as [Hq _].
    destruct (js_is "posted" (status q)) eqn:Hposted; [done|].
    assert (id ≠ j) as Hne.
    { intros ->. rewrite Hq in Habs. simpl in Habs.
      destruct Habs as [[=] | [= Hst]]. rewrite Hst in Hposted. discriminate. }
    repeat case_match; simpl; try done; by rewrite lookup_insert_ne.
  - unfold cancel_scheduled_pin.
    destruct user as [u|]; [|done].
    destruct (select_own u id w) as [q|] eqn:Hsel; [|done].
    apply select_own_Some in Hsel as [Hq _].
    destruct (js_is "posted" (status q)) eqn:Hposted; [done|].
    assert (id ≠ j) as Hne.
    { intros ->. rewrite Hq in Habs. simpl in Habs.
      destruct Habs as [[=] | [= Hst]]. rewrite Hst in Hposted. discriminate. }
    repeat case_match; simpl; try done; by rewrite lookup_insert_ne.
  - unfold delete_scheduled_pin_permanent. repeat case_match; simpl; try done.
    destruct (decide (id = j)) as [->|Hne].
    + left. by rewrite lookup_delete_eq.
    + by rewrite lookup_delete_ne.
  - by destruct (syncUserAnalytics_preserves ToNumber_other status userId accessToken
                   si w j) as [-> _].
  - by destruct (sync_analytics_preserves ToNumber_other status user accessToken
                   force_sync si w j) as [-> _].
Qed.

Lemma run_op_absorbed_uncharged o w j :
  absorbed j w → uncharged j w (run_op o w).
Proof.
  intros Habs. destruct (is_tick o) eqn:Htick.
  - destruct o; try discriminate.
    by destruct (processScheduledPins_absorbed tk w j Habs).
  - unfold uncharged, debits, flags. by rewrite run_op_trace.
Qed.

Lemma charged_absorbed j w w' : charged j w w' → absorbed j w'.
Proof.
  intros (_ & _ & _ & p' & Hp' & Hst & _). right.
  unfold status_of. by rewrite Hp', <- Hst.
Qed.

Lemma run_absorbed h w j :
  Forall (λ o, inserted_id o ≠ Some j) h →
  absorbed j w →
  absorbed j (run h w) ∧ uncharged j w (run h w).
Proof.
  intros Hh. revert w. induction Hh as [|o h Ho Hh IH]; intros w Habs; simpl.
  - done.
  - destruct (IH (run_op o w)) as [Habs' [Hd Hf]]; [by apply run_op_absorbed|].
    destruct (run_op_absorbed_uncharged o w j Habs) as [Hd0 Hf0].
    split; [done|]. split; congruence.
Qed.

Lemma run_charge h w j :
  Forall op_writes_land h →
  Forall (λ o, inserted_id o ≠ Some j) h →
  uncharged j w (run h w)
  ∨ (debits j (run h w) = S (debits j w) ∧ flags j (run h w) = S (flags j w)
     ∧ absorbed j (run h w)).
Proof.
  intros Hlands Hh. revert w.
  induction Hh as [|o h Ho Hh IH]; intros w; simpl; [by left|].
  apply Forall_cons in Hlands as [Hland Hlands].
  - destruct (run_op_charge o w j Hland) as [[Hd Hf] | Hch].
    + destruct (IH Hlands (run_op o w)) as [[Hd' Hf'] | (Hd' & Hf' & Habs)].
      * left. split; congruence.
      * right. split; [congruence|]. split; [congruence | done].
    + pose proof (charged_absorbed _ _ _ Hch) as Habs.
      destruct Hch as (Hd & Hf & _).
      destruct (run_absorbed h (run_op o w) j Hh Habs) as [Habs' [Hd' Hf']].
      right. split; [congruence|]. split; [congruence | done].
Qed.

(** Where no two scheduler runs overlap and the store takes every write.
    Along every history of scheduler runs, user operations and analytics
    refreshes in which no later insert reuses the pin's key, a pin is
    debited at most once and its [credits_deducted] flag is written at most
    once; a step that debits or flags the pin is a scheduler run that takes
    it from [scheduled] or [failed], flag unset, to [posted], flag set; and
    a pin that the history leaves in the table in any status but [posted]
    has not been debited or flagged at all. *)
Theorem credits_debited_at_most_once (j : string) (h : list op) (w : world) :
  Forall op_writes_land h →
  Forall (λ o, inserted_id o ≠ Some j) h →
  ((debits j (run h w) ≤ debits j w + 1)%nat ∧ (flags j (run h w) ≤ flags j w + 1)%nat)
  ∧ (∀ o w0,
       op_writes_land o →
       debits j (run_op o w0) ≠ debits j w0 ∨ flags j (run_op o w0) ≠ flags j w0 →
       is_tick o = true ∧ charged j w0 (run_op o w0))
  ∧ ((∃ p, pins (run h w) !! j = Some p ∧ status p ≠ JStr "posted") →
       debits j (run h w) = debits j w ∧ flags j (run h w) = flags j w).
Proof.
  intros Hlands Hh. split; [|split].
  - destruct (run_charge h w j Hlands Hh) as [[-> ->] | (-> & -> & _)]; lia.
  - intros o w0 Hland Hdiff.
    destruct (is_tick o) eqn:Htick.
    + split; [done|].
      destruct (run_op_charge o w0 j Hland) as [[Hd Hf] | Hch]; [|done].
      destruct Hdiff; congruence.
    + unfold debits, flags in Hdiff. rewrite run_op_trace in Hdiff by done.
      destruct Hdiff; congruence.
  - intros (p & Hp & Hst).
    destruct (run_charge h w j Hlands Hh) as [Hq | (_ & _ & Habs)]; [done|].
    unfold absorbed, status_of in Habs. rewrite Hp in Habs. simpl in Habs.
    destruct Habs as [[=] | [= Hposted]]. congruence.
Qed.

End HistoryProperties.

Lemma credits_debited_at_most_once_witness :
  let w := world_of {[ "pin-1" := sample_pin ]} in
  let w' := run no_JSON_parse no_Date_parse no_ToNumber three_failures_then_success w in
  (debits "pin-1" w' ≤ debits "pin-1" w + 1)%nat ∧ (flags "pin-1" w' ≤ flags "pin-1" w + 1)%nat.
Proof.
  apply (credits_debited_at_most_once no_JSON_parse no_Date_parse no_ToNumber "pin-1"
           three_failures_then_success (world_of {[ "pin-1" := sample_pin ]})).
  - unfold three_failures_then_success. repeat constructor.
  - unfold three_failures_then_success. repeat constructor; discriminate.
Defined.

(** C3, on the code. The test [if (!pin.credits_deducted)] reads the row as
    the query returned it, not the store, and nothing keeps a second run
    from a pin that a first run is working on. When two runs have both
    read the same due row [(id, p)], its flag unset, before either claims
    it, and the API accepts both attempts, each run debits the owner and
    writes the flag: the first run leaves the flag set in the store, the
    second debits all the same, and the pin ends debited twice and flagged
    twice, the owner's balance two credits lower (stopped at zero). *)
Theorem overlapping_runs_debit_twice (w : world) (id : string) (p : pin)
    (a1 a2 b1 b2 nowA nowB : Z) (pinA pinB : option string) (c : option Z) :
  (id, p) ∈ fetchDue a1 a2 (pins w) →
  (id, p) ∈ fetchDue b1 b2 (pins w) →
  (∃ s, title p = JStr s) →
  has_token p = true →
  credits_deducted p = false →
  profiles w !! user_id p = Some c →
  ∃ wA wB,
    processScheduledPin nowA (ApiOk pinA) (id, p) w = Some wA
    ∧ processScheduledPin nowB (ApiOk pinB) (id, p) wA = Some wB
    ∧ (credits_deducted <$> pins wA !! id) = Some true
    ∧ debits id wA = (debits id w + 1)%nat
    ∧ flags id wA = (flags id w + 1)%nat
    ∧ debits id wB = (debits id w + 2)%nat
    ∧ flags id wB = (flags id w + 2)%nat
    ∧ profiles wB !! user_id p = Some (Some (Z.max 0 (Z.max 0 (balance c - 1) - 1))).
Proof.
  intros HA _ [s Ht] Htok Hflag Hc.
  apply elem_of_fetchDue in HA as [Hdb _]. simpl in Hdb.
  unfold processScheduledPin, claim_pin, debits, flags. simpl. rewrite Ht, Htok, Hflag. simpl.
  eexists _, _. split; [reflexivity|]. split; [reflexivity|]. simpl.
  rewrite !update_eq_id_lookup, Hdb. simpl.
  split; [reflexivity|].
  rewrite !count_if_app. simpl. rewrite String.eqb_refl.
  do 4 (split; [lia|]).
  unfold deductUserCredits. simpl. rewrite Hc. simpl.
  by rewrite !lookup_insert_eq.
Qed.

Lemma overlapping_runs_debit_twice_witness :
  let w := world_of {[ "pin-1" := sample_pin ]} in
  ∃ wA wB,
    processScheduledPin 2000 (ApiOk (Some "pinterest-77")) ("pin-1", sample_pin) w = Some wA
    ∧ processScheduledPin 2001 (ApiOk (Some "pinterest-78")) ("pin-1", sample_pin) wA
      = Some wB
    ∧ (credits_deducted <$> pins wA !! "pin-1") = Some true
    ∧ debits "pin-1" wA = (debits "pin-1" w + 1)%nat
    ∧ flags "pin-1" wA = (flags "pin-1" w + 1)%nat
    ∧ debits "pin-1" wB = (debits "pin-1" w + 2)%nat
    ∧ flags "pin-1" wB = (flags "pin-1" w + 2)%nat
    ∧ profiles wB !! user_id sample_pin
      = Some (Some (Z.max 0 (Z.max 0 (balance (Some 5) - 1) - 1))).
Proof.
  apply (overlapping_runs_debit_twice (world_of {[ "pin-1" := sample_pin ]})
           "pin-1" sample_pin 2000 2000 2000 2000 2000 2001 (Some "pinterest-77")
           (Some "pinterest-78") (Some 5)).
  - vm_compute. apply list_elem_of_here.
  - vm_compute. apply list_elem_of_here.
  - by eexists.
  - reflexivity.
  - reflexivity.
  - reflexivity.
Defined.

(** A pin that has run out of retries is not out of the query (C1): the
    failure that writes [Max retries reached] leaves it due, the next run
    attempts it again, and when that attempt succeeds the pin is posted
    and its owner debited. *)
Example exhausted_pin_is_debited_on_a_later_success :
  let w1 := processScheduledPins (quiet_tick 5000 (ApiFail "rate limited"))
              (world_of {[ "pin-1" := exhausted_pin ]}) in
  let w2 := processScheduledPins (quiet_tick 65000 (ApiOk (Some "pinterest-77"))) w1 in
  (error_message <$> pins w1 !! "pin-1") = Some (Some "Max retries reached: rate limited")
  ∧ (next_retry_at <$> pins w1 !! "pin-1") = Some None
  ∧ debits "pin-1" w1 = 0%nat
  ∧ status_of "pin-1" w2 = Some (JStr "posted")
  ∧ debits "pin-1" w2 = 1%nat
  ∧ profiles w2 !! "user-1" = Some (Some 4).
Proof. vm_compute. done. Qed.

(** The writes of a success are not checked either. A run whose [posted]
    and flag writes the store refuses leaves the pin [posting], debited
    once; after the owner sets it back to [scheduled], the next run
    publishes and debits it again. *)
Example lost_writes_debit_twice :
  let lost := {| claim_error := false; api := Created (Some (Some "pinterest-77"));
                 posted_error := true; profile_fetch_error := false;
                 profile_update_error := false; flag_error := true;
                 failed_error := false |} in
  let back := {| u_title := JUndefined; u_description := JUndefined;
                 u_scheduled_for := JUndefined; u_timezone := JUndefined;
                 u_status := JStr "scheduled"; u_is_recurring := JUndefined;
                 u_recurrence_pattern := JUndefined |} in
  let w := world_of {[ "pin-1" := sample_pin ]} in
  let w1 := processScheduledPins (quiet_tick 5000 lost) w in
  let w2 := (update_scheduled_pin no_Date_parse (Some "user-1") "pin-1" back 6000 false w1).1 in
  let w3 := processScheduledPins (quiet_tick 65000 (ApiOk (Some "pinterest-78"))) w2 in
  status_of "pin-1" w1 = Some (JStr "posting")
  ∧ status_of "pin-1" w2 = Some (JStr "scheduled")
  ∧ status_of "pin-1" w3 = Some (JStr "posted")
  ∧ debits "pin-1" w3 = 2%nat
  ∧ profiles w3 !! "user-1" = Some (Some 3).
Proof. vm_compute. done. Qed.

(** Three failures and a success: posted, debited exactly once, retry count
    back to 0. *)
Example three_failures_then_success_run :
  let w' := run no_JSON_parse no_Date_parse no_ToNumber three_failures_then_success
              (world_of {[ "pin-1" := sample_pin ]}) in
  status_of "pin-1" w' = Some (JStr "posted")
  ∧ (retry_count <$> pins w' !! "pin-1") = Some (Some 0)
  ∧ (credits_deducted <$> pins w' !! "pin-1") = Some true
  ∧ (publishes "pin-1" w', debits "pin-1" w', flags "pin-1" w') = (4, 1, 1)%nat
  ∧ profiles w' !! "user-1" = Some (Some 4).
Proof. vm_compute. done. Qed.

(** Four failures: failed with no retry instant, never debited. *)
Example four_failures_run :
  let w' := run no_JSON_parse no_Date_parse no_ToNumber four_failures
              (world_of {[ "pin-1" := sample_pin ]}) in
  status_of "pin-1" w' = Some (JStr "failed")
  ∧ (next_retry_at <$> pins w' !! "pin-1") = Some None
  ∧ (retry_count <$> pins w' !! "pin-1") = Some (Some 3)
  ∧ (publishes "pin-1" w', debits "pin-1" w', flags "pin-1" w') = (4, 0, 0)%nat
  ∧ profiles w' !! "user-1" = Some (Some 5).
Proof. vm_compute. done. Qed.

(** ** Terminal statuses *)



Section StatusProperties.

Variable JSON_parse : string → option jsvalue.
Variable Date_parse : jsvalue → option Z.
Variable ToNumber_other : jsvalue → float.

Local Abbreviation run_op := (run_op JSON_parse Date_parse ToNumber_other).
Local Abbreviation run := (run JSON_parse Date_parse ToNumber_other).




End StatusProperties.



(** ** Derived rates *)


Section Rates.

Variable ToNumber_other : jsvalue → float.
Variable rt : runtime.

Local Abbreviation ToNumber := (ToNumber ToNumber_other).
Local Abbreviation derive := (derive_metrics ToNumber_other rt).
Local Abbreviation refresh := (refresh_pin ToNumber_other rt).





End Rates.



(** How far the two are apart. Up to 200 impressions and a count not above
    them, the rate computed in binary64 is the rate in words but for five
    pairs, each an exact tie over 160 impressions. *)
Example rates_that_differ_up_to_200 :
  rates_that_differ 200 = [(23, 160); (41, 160); (51, 160); (87, 160); (97, 160)].
Proof. vm_compute. reflexivity. Qed.

(** The rates of the sample answer: 13.61, 4.54 and 6.32 per cent; a count of
    1 over 20000 impressions is the tie 0.005, stored as 0.01; no
    impressions, no rates. *)
Example sample_rates :
  let derive i o s c := derive_metrics no_ToNumber utc_host (JNum i) (JNum o) (JNum s)
                          (JNum c) (JNum 0) in
  engagement_rate sample_metrics = (1361 / 100)%float
  ∧ click_through_rate sample_metrics = (454 / 100)%float
  ∧ save_rate sample_metrics = (632 / 100)%float
  ∧ save_rate (derive 20000 0 1 0)%float = (1 / 100)%float
  ∧ engagement_rate (derive 0 3 2 1)%float = 0%float.
Proof. vm_compute. done. Qed.

(** A counter that is not a number is computed with as it is: impressions
    given as the string 200 divide like the number, and saves given as the
    string 5 are joined to the 6 pin clicks, 56 over 200. *)
Example text_counters :
  let number_of v := match v with
                     | JStr "200" => 200%float
                     | JStr "5" => 5%float
                     | JStr "56" => 56%float
                     | _ => nan
                     end in
  let rt := {| LocalTZA := λ _ _, 0; toLocaleString := λ _, "";
               String_of := λ v, match v with JNum _ => "6" | _ => "" end |} in
  let m := derive_metrics number_of rt (JStr "200") (JNum 10) (JStr "5") (JNum 6) (JNum 0) in
  click_through_rate m = 5%float ∧ save_rate m = (25 / 10)%float
  ∧ engagement_rate m = 28%float.
Proof. vm_compute. done. Qed.

(** ** The schedule handler *)

Section HandlerProperties.

Variable JSON_parse : string → option jsvalue.
Variable Date_parse : jsvalue → option Z.
Variable ToNumber_other : jsvalue → float.
Variable parseInt : string → option Z.

Lemma validate_recurrence_unparsable is_recurring text :
  truthy is_recurring = true →
  text ≠ "" →
  JSON_parse text = None →
  validate_recurrence JSON_parse ToNumber_other is_recurring (JStr text)
  = Throw "SyntaxError".
Proof.
  intros Hrec Htext Hparse. unfold validate_recurrence. rewrite Hrec. simpl.
  apply String.eqb_neq in Htext. rewrite Htext. simpl. by rewrite Hparse.
Qed.

(** C8. A schedule request that passes the checks on its required fields,
    its date and its account, and that is recurring with a
    [recurrence_pattern] string on which [JSON.parse] throws, ends in an
    uncaught SyntaxError: the parse runs before the handler's [try], and no
    response, validation error or other, is sent. *)
Theorem schedule_pin_unparsable_pattern (user : string) (b : schedule_body)
    (now oneYearFromNow : Z) (accessToken joined_token : option string)
    (new_id : string) (insertError : bool) (w : world) (text : string) :
  truthy (s_image_url b) = true →
  truthy (s_title b) = true →
  truthy (s_description b) = true →
  truthy (s_board_id b) = true →
  truthy (s_scheduled_for b) = true →
  date_le (Date_parse (s_scheduled_for b)) now = false →
  date_gt (Date_parse (s_scheduled_for b)) oneYearFromNow = false →
  (∃ t, accessToken = Some t ∧ t ≠ "") →
  s_is_recurring b = JBool true →
  s_recurrence_pattern b = JStr text →
  text ≠ "" →
  JSON_parse text = None →
  schedule_pin JSON_parse Date_parse ToNumber_other (Some user) b now oneYearFromNow
    accessToken joined_token new_id insertError w
  = (w, Uncaught "SyntaxError").
Proof.
  intros Himg Htitle Hdesc Hboard Hsched Hle Hgt (t & -> & Ht) Hrec Hpat Htext Hparse.
  unfold schedule_pin.
  rewrite Himg, Htitle, Hdesc, Hboard, Hsched, Hle, Hgt. simpl.
  apply String.eqb_neq in Ht as ->. simpl.
  rewrite Hrec, Hpat. simpl.
  by rewrite validate_recurrence_unparsable.
Qed.

End HandlerProperties.

Lemma schedule_pin_unparsable_pattern_witness :
  schedule_pin JSON_parse_ref Date_parse_ref no_ToNumber (Some "user-1")
    (recurring_body (JStr "every day")) 3600000 31539600000 (Some "token-1") (Some "token-1")
    "pin-9" false (world_of ∅)
  = (world_of ∅, Uncaught "SyntaxError").
Proof.
  apply (schedule_pin_unparsable_pattern JSON_parse_ref Date_parse_ref no_ToNumber
           "user-1" (recurring_body (JStr "every day")) 3600000 31539600000
           (Some "token-1") (Some "token-1") "pin-9" false (world_of ∅) "every day").
  - reflexivity.
  - reflexivity.
  - reflexivity.
  - reflexivity.
  - vm_compute. reflexivity.
  - vm_compute. reflexivity.
  - vm_compute. reflexivity.
  - exists "token-1". split; [reflexivity | discriminate].
  - reflexivity.
  - reflexivity.
  - discriminate.
  - vm_compute. reflexivity.
Defined.

(** The same request with a pattern that parses is accepted, and with a
    pattern object of a wrong type it gets the validation error; the text
    [null] parses and then fails on [pattern.type], uncaught as well. *)
Example schedule_pin_patterns :
  let post pattern :=
    (schedule_pin JSON_parse_ref Date_parse_ref no_ToNumber (Some "user-1")
       (recurring_body pattern) 3600000 31539600000 (Some "token-1") (Some "token-1")
       "pin-9" false (world_of ∅)).2 in
  post (JStr daily_pattern_text)
  = Respond 200
      (PinBody ("pin-9", new_pin "user-1" (recurring_body (JStr daily_pattern_text))
                           7200000 (Some "token-1")) "Pin scheduled for ")
  ∧ post (JObj [("type", JStr "hourly"); ("interval", JNum 2)])
    = Respond 400 (ErrorBody "Invalid recurrence type. Must be daily, weekly, or monthly.")
  ∧ post (JObj [("type", JStr "weekly"); ("interval", JNum 31)])
    = Respond 400 (ErrorBody "Invalid recurrence interval. Must be between 1 and 30.")
  ∧ post (JStr "null") = Uncaught "TypeError"
  ∧ post (JStr "every day") = Uncaught "SyntaxError".
Proof. vm_compute. done. Qed.

(** ** The update handler *)

Lemma js_is_false lit v : v ≠ JStr lit → js_is lit v = false.
Proof.
  intros Hne. destruct (js_is lit v) eqn:H; [|done].
  apply js_is_true in H. done.
Qed.

Section UpdateProperties.

Variable Date_parse : jsvalue → option Z.

(** C9. On a pin of the caller that is not [posted], the update operation
    leaves every column whose supplied value is falsy as it was, whatever
    else the request does; [is_recurring] alone is written whenever a
    boolean is supplied (so also [false]). A request whose fields are all
    falsy is not rejected. Hence a truthy title, description or timezone
    stays truthy, and the schedule time is either kept or replaced by a
    parsed instant after [now]: none of them can be cleared. *)
Theorem update_ignores_falsy_fields (user id : string) (b : update_body)
    (now : Z) (updateError : bool) (w : world) (p : pin) :
  select_own user id w = Some p →
  status p ≠ JStr "posted" →
  let result := update_scheduled_pin Date_parse (Some user) id b now updateError w in
  ∃ p', pins result.1 !! id = Some p'
    ∧ (truthy (u_title b) = false → title p' = title p)
    ∧ (truthy (u_description b) = false → description p' = description p)
    ∧ (truthy (u_scheduled_for b) = false → scheduled_for p' = scheduled_for p)
    ∧ (truthy (u_timezone b) = false → timezone p' = timezone p)
    ∧ (truthy (u_status b) = false → status p' = status p)
    ∧ (truthy (u_recurrence_pattern b) = false →
         recurrence_pattern p' = recurrence_pattern p)
    ∧ (is_boolean (u_is_recurring b) = false → is_recurring p' = is_recurring p)
    ∧ (∀ flag body, u_is_recurring b = JBool flag → result.2 = Respond 200 body →
         is_recurring p' = JBool flag)
    ∧ (truthy (u_scheduled_for b) = false → updateError = false →
         result.2 = Respond 200 (PinBody (id, p') "Scheduled pin updated successfully"))
    ∧ (truthy (title p) = true → truthy (title p') = true)
    ∧ (truthy (description p) = true → truthy (description p') = true)
    ∧ (truthy (timezone p) = true → truthy (timezone p') = true)
    ∧ (scheduled_for p' = scheduled_for p
       ∨ ∃ d, Date_parse (u_scheduled_for b) = Some d ∧ now < d ∧ scheduled_for p' = d).
Proof.
  intros Hsel Hst result. subst result.
  unfold update_scheduled_pin. rewrite Hsel, (js_is_false _ _ Hst).
  apply select_own_Some in Hsel as [Hp _].
  destruct (truthy (u_scheduled_for b)) eqn:Hsf; simpl.
  - destruct (Date_parse (u_scheduled_for b)) as [d|] eqn:Hd; simpl.
    + destruct (Z.leb_spec d now) as [Hle|Hlt]; simpl.
      { exists p. split; [done|]. repeat split; intros; try done. by left. }
      destruct updateError; simpl.
      { exists p. split; [done|]. repeat split; intros; try done. by left. }
      eexists. split; [apply lookup_insert_eq|].
      unfold apply_updates; simpl. rewrite Hsf.
      repeat split; try (by intros ->); try done.
      * intros flag body ->. done.
      * intros Ht. destruct (truthy (u_title b)) eqn:E; done.
      * intros Ht. destruct (truthy (u_description b)) eqn:E; done.
      * intros Ht. destruct (truthy (u_timezone b)) eqn:E; done.
      * right. by exists d.
    + exists p. split; [done|]. repeat split; intros; try done. by left.
  - destruct updateError; simpl.
    { exists p. split; [done|]. repeat split; intros; try done. by left. }
    eexists. split; [apply lookup_insert_eq|].
    unfold apply_updates; simpl. rewrite Hsf.
    repeat split; try (by intros ->); try done.
    * intros flag body ->. done.
    * intros Ht. destruct (truthy (u_title b)) eqn:E; done.
    * intros Ht. destruct (truthy (u_description b)) eqn:E; done.
    * intros Ht. destruct (truthy (u_timezone b)) eqn:E; done.
    * by left.
Qed.

End UpdateProperties.

Lemma update_ignores_falsy_fields_witness :
  let result := update_scheduled_pin Date_parse_ref (Some "user-1") "pin-1" clearing_body
                  5000 false (world_of {[ "pin-1" := sample_pin ]}) in
  ∃ p', pins result.1 !! "pin-1" = Some p'
    ∧ (truthy (u_title clearing_body) = false → title p' = title sample_pin)
    ∧ (truthy (u_description clearing_body) = false → description p' = description sample_pin)
    ∧ (truthy (u_scheduled_for clearing_body) = false →
         scheduled_for p' = scheduled_for sample_pin)
    ∧ (truthy (u_timezone clearing_body) = false → timezone p' = timezone sample_pin)
    ∧ (truthy (u_status clearing_body) = false → status p' = status sample_pin)
    ∧ (truthy (u_recurrence_pattern clearing_body) = false →
         recurrence_pattern p' = recurrence_pattern sample_pin)
    ∧ (is_boolean (u_is_recurring clearing_body) = false →
         is_recurring p' = is_recurring sample_pin)
    ∧ (∀ flag body, u_is_recurring clearing_body = JBool flag →
         result.2 = Respond 200 body → is_recurring p' = JBool flag)
    ∧ (truthy (u_scheduled_for clearing_body) = false → false = false →
         result.2 = Respond 200 (PinBody ("pin-1", p') "Scheduled pin updated successfully"))
    ∧ (truthy (title sample_pin) = true → truthy (title p') = true)
    ∧ (truthy (description sample_pin) = true → truthy (description p') = true)
    ∧ (truthy (timezone sample_pin) = true → truthy (timezone p') = true)
    ∧ (scheduled_for p' = scheduled_for sample_pin
       ∨ ∃ d, Date_parse_ref (u_scheduled_for clearing_body) = Some d
              ∧ 5000 < d ∧ scheduled_for p' = d).
Proof.
  apply (update_ignores_falsy_fields Date_parse_ref "user-1" "pin-1" clearing_body 5000
           false (world_of {[ "pin-1" := sample_pin ]}) sample_pin).
  - reflexivity.
  - discriminate.
Defined.

(** A request that tries to clear every field changes nothing and is
    answered with success. *)
Example update_cannot_clear :
  update_scheduled_pin Date_parse_ref (Some "user-1") "pin-1" clearing_body 5000 false
    (world_of {[ "pin-1" := sample_pin ]})
  = (world_of {[ "pin-1" := sample_pin ]},
     Respond 200 (PinBody ("pin-1", sample_pin) "Scheduled pin updated successfully")).
Proof. vm_compute. reflexivity. Qed.

(** ** The list handler *)

Section ListProperties.

Variable parseInt : string → option Z.

Lemma range_Some {A} from to (rows page : list A) :
  range from to rows = Some page →
  ∃ f t, from = Some f ∧ to = Some t ∧ 0 ≤ f ∧ 0 ≤ t - f + 1
         ∧ page = take (Z.to_nat (t - f + 1)) (drop (Z.to_nat f) rows).
Proof.
  unfold range. destruct from as [f|], to as [t|]; try discriminate.
  destruct (Z.ltb_spec f 0); [discriminate|].
  destruct (Z.ltb_spec (t - f + 1) 0); [discriminate|]. simpl.
  intros [= <-]. by exists f, t.
Qed.

(** C10. Whenever the list handler answers with a page, [total] is the
    length of that page, which is the window [offset, offset + limit) of
    the caller's rows matching the filter: [total] is the smaller of
    [limit] and what is left of the matching rows after [offset], not the
    number of matching rows. *)
Theorem list_total_is_page_length (user : option string)
    (q_status q_limit q_offset : option string) (fetchError : bool) (w : world)
    (page : list (string * pin)) (total : nat) :
  list_scheduled_pins parseInt user q_status q_limit q_offset fetchError w
  = Respond 200 (ListBody page total) →
  ∃ u offset limit,
    user = Some u
    ∧ query_int parseInt 0 q_offset = Some offset
    ∧ query_int parseInt 50 q_limit = Some limit
    ∧ 0 ≤ offset ∧ 0 ≤ limit
    ∧ page = take (Z.to_nat limit) (drop (Z.to_nat offset) (own_rows u q_status w))
    ∧ total = length page
    ∧ total = Nat.min (Z.to_nat limit)
                (length (own_rows u q_status w) - Z.to_nat offset).
Proof.
  unfold list_scheduled_pins. destruct user as [u|]; [|discriminate].
  destruct fetchError; [discriminate|].
  destruct (range _ _ _) as [rows|] eqn:Hrange; [|discriminate].
  intros [= <- <-].
  apply range_Some in Hrange as (f & t & Hf & Ht & Hf0 & Hl0 & ->).
  destruct (query_int parseInt 0 q_offset) as [o|]; [|discriminate].
  destruct (query_int parseInt 50 q_limit) as [l|]; [|discriminate].
  injection Hf as <-. injection Ht as <-.
  replace (o + l - 1 - o + 1) with l in * by lia.
  exists u, o, l. repeat split; try done.
  by rewrite length_take, length_drop.
Qed.

End ListProperties.

Lemma list_total_is_page_length_witness :
  ∃ u offset limit,
    Some "user-1" = Some u
    ∧ query_int parseInt_ref 0 (Some "1") = Some offset
    ∧ query_int parseInt_ref 50 (Some "1") = Some limit
    ∧ 0 ≤ offset ∧ 0 ≤ limit
    ∧ [("pin-3", cancelled_pin)]
      = take (Z.to_nat limit)
          (drop (Z.to_nat offset) (own_rows u None (world_of three_pins)))
    ∧ 1%nat = length [("pin-3", cancelled_pin)]
    ∧ 1%nat = Nat.min (Z.to_nat limit)
                (length (own_rows u None (world_of three_pins)) - Z.to_nat offset).
Proof.
  apply (list_total_is_page_length parseInt_ref (Some "user-1") None (Some "1") (Some "1")
           false (world_of three_pins)).
  vm_compute. reflexivity.
Defined.

(** Three pins of the caller, a page of two: [total] is 2. *)
Example list_total_of_a_page :
  match list_scheduled_pins parseInt_ref (Some "user-1") None (Some "2") None false
          (world_of three_pins) with
  | Respond 200 (ListBody page total) =>
      total = 2%nat ∧ length (own_rows "user-1" None (world_of three_pins)) = 3%nat
  | _ => False
  end.
Proof. vm_compute. done. Qed.

(** * Further properties *)

(** ** The due-job query: earliest first *)

Lemma fetchDue_split now1 now2 (db : gmap string pin) :
  let all := merge_sort by_scheduled_for
               (filter (λ r, is_due now1 now2 r.2 = true) (map_to_list db)) in
  fetchDue now1 now2 db = take batch_limit all
  ∧ StronglySorted by_scheduled_for all
  ∧ ∀ id p, db !! id = Some p → is_due now1 now2 p = true → (id, p) ∈ all.
Proof.
  intros all. split; [done|]. split.
  - apply StronglySorted_merge_sort; apply _.
  - intros id p Hdb Hdue. unfold all. rewrite merge_sort_Permutation.
    apply list_elem_of_filter. split; [done|]. by apply elem_of_map_to_list.
Qed.

(** X1. The batch limit cuts the latest: when a due pin is left out of the
    query's answer, the answer holds 10 pins and each of them is scheduled
    no later than the pin left out. *)
Theorem fetchDue_earliest_first (db : gmap string pin) (now1 now2 : Z)
    (id : string) (p : pin) :
  db !! id = Some p →
  is_due now1 now2 p = true →
  id ∉ (fetchDue now1 now2 db).*1 →
  length (fetchDue now1 now2 db) = 10%nat
  ∧ ∀ i q, (i, q) ∈ fetchDue now1 now2 db → scheduled_for q ≤ scheduled_for p.
Proof.
  intros Hdb Hdue Hout.
  destruct (fetchDue_split now1 now2 db) as (Hfetch & Hsorted & Hall).
  set (all := merge_sort _ _) in *.
  specialize (Hall id p Hdb Hdue).
  rewrite <- (take_drop batch_limit all) in Hall, Hsorted.
  rewrite <- Hfetch in Hall, Hsorted.
  apply elem_of_app in Hall as [Hin | Hin].
  { exfalso. apply Hout. apply list_elem_of_fmap. by exists (id, p). }
  split.
  - rewrite Hfetch, length_take.
    assert (drop batch_limit all ≠ []) as Hne by (intros E; rewrite E in Hin; inversion Hin).
    assert (batch_limit < length all)%nat.
    { destruct (decide (batch_limit < length all)%nat); [done|].
      exfalso. apply Hne. apply drop_ge. lia. }
    unfold batch_limit in *. lia.
  - intros i q Hq.
    apply StronglySorted_app in Hsorted as (Hle & _ & _).
    apply (Hle (i, q) (id, p) Hq Hin).
Qed.

Lemma fetchDue_earliest_first_witness :
  length (fetchDue 5000 5000 eleven_pins) = 10%nat
  ∧ ∀ i q, (i, q) ∈ fetchDue 5000 5000 eleven_pins →
           scheduled_for q ≤ scheduled_for (pin_due_at 1100).
Proof.
  apply (fetchDue_earliest_first eleven_pins 5000 5000 "pin-k" (pin_due_at 1100)).
  - reflexivity.
  - reflexivity.
  - apply (bool_decide_unpack _). vm_compute. exact I.
Defined.

(** ** The scheduler loop: what a run touches *)

Lemma dom_update_eq_id f id (db : gmap string pin) :
  dom (update_eq_id f id db) = dom db.
Proof. unfold update_eq_id. apply dom_alter_L. Qed.

Lemma dom_handlePinError rt now id msg rc updateError db :
  dom (handlePinError rt now id msg rc updateError db) = dom db.
Proof.
  unfold handlePinError. destruct updateError; [done|].
  destruct (_ <=? _); apply dom_update_eq_id.
Qed.

Lemma processScheduledPin_dom now att r w w' :
  processScheduledPin now att r w = Some w' → dom (pins w') = dom (pins w).
Proof.
  unfold processScheduledPin, claim_pin. intros Hrun.
  repeat case_match; simplify_eq; cbn -[handlePinError];
    by rewrite ?dom_handlePinError, ?dom_update_eq_id.
Qed.

Lemma process_batch_dom tk l w : dom (pins (process_batch tk l w)) = dom (pins w).
Proof.
  revert w. induction l as [|r l IH]; intros w; simpl; [done|].
  destruct (processScheduledPin _ _ r w) as [w1|] eqn:Hrun; [|done].
  rewrite IH. by eapply processScheduledPin_dom.
Qed.

(** X2. A run of the scheduler neither inserts nor deletes rows, and every
    row that its due query did not return is left exactly as it was. *)
Theorem processScheduledPins_frame (tk : tick) (w : world) :
  let w' := processScheduledPins tk w in
  dom (pins w') = dom (pins w)
  ∧ ∀ j, j ∉ (fetchDue (now1 tk) (now2 tk) (pins w)).*1 → pins w' !! j = pins w !! j.
Proof.
  unfold processScheduledPins. destruct (fetchError tk); simpl; [done|].
  split; [apply process_batch_dom|].
  intros j Hj. apply process_batch_other.
  intros r Hr <-. apply Hj. apply list_elem_of_fmap. by exists r.
Qed.

(** ** The scheduler loop: where an attempt ends *)

Lemma processScheduledPin_result now att j p w w' :
  writes_land att →
  pins w !! j = Some p →
  processScheduledPin now att (j, p) w = Some w' →
  ∃ p', pins w' !! j = Some p' ∧ attempt_result att p p'.
Proof.
  intros (Hposted & Hflag & Hfailed) Hp Hrun.
  unfold processScheduledPin, claim_pin in Hrun. cbn -[handlePinError] in Hrun.
  rewrite Hposted, Hflag, Hfailed in Hrun.
  unfold attempt_result.
  destruct (title p); try discriminate.
  destruct (claim_error att).
  { inversion Hrun; subst. by exists p. }
  destruct (has_token p); cbn -[handlePinError] in Hrun.
  - destruct (api att) as [pid | msg].
    + destruct (credits_deducted p) eqn:Hcd; inversion Hrun; subst; simpl;
        rewrite !update_eq_id_lookup, Hp; simpl;
        (eexists; split; [reflexivity|]; simpl; rewrite ?Hcd; done).
    + inversion Hrun; subst; simpl.
      destruct (_ <=? _); rewrite !update_eq_id_lookup, Hp; simpl;
        (eexists; split; [reflexivity|]; simpl; eauto).
  - injection Hrun as <-. cbn -[handlePinError].
    unfold update_eq_id. rewrite !lookup_alter_eq, Hp. simpl. by eexists.
Qed.

Lemma process_batch_result tk l w j p :
  NoDup l.*1 →
  (∀ r, r ∈ l → ∃ s, title r.2 = JStr s) →
  (∀ r, r ∈ l → pins w !! r.1 = Some r.2) →
  (j, p) ∈ l →
  writes_land (outcome tk j) →
  ∃ p', pins (process_batch tk l w) !! j = Some p' ∧ attempt_result (outcome tk j) p p'.
Proof.
  intros Hnd Htitle Hrows Hin Hlands. revert w Hnd Htitle Hrows Hin.
  induction l as [|[i q] l IH]; intros w Hnd Htitle Hrows Hin; [inversion Hin|].
  apply NoDup_cons in Hnd as [Hi Hnd]. simpl in Hi.
  simpl.
  destruct (processScheduledPin _ _ (i, q) w) as [w1|] eqn:Hrun.
  2:{ unfold processScheduledPin in Hrun. simpl in Hrun.
      destruct (Htitle (i, q)) as [s Hs]; [left|]. simpl in Hs. rewrite Hs in Hrun.
      repeat case_match; discriminate. }
  apply elem_of_cons in Hin as [[= -> ->] | Hin].
  - destruct (processScheduledPin_result _ _ _ _ _ _ Hlands (Hrows (i, q) ltac:(left)) Hrun)
      as (p' & Hp' & Hres).
    exists p'. split; [|done].
    destruct (process_batch_other tk l w1 i) as (-> & _); [|done].
    intros [i' q'] Hin' Heq. simpl in Heq. subst i'.
    apply Hi. apply list_elem_of_fmap. by exists (i, q').
  - apply IH; try done.
    + intros r Hr. apply Htitle. by right.
    + intros r Hr.
      destruct (processScheduledPin_other _ _ _ _ _ r.1 Hrun) as (-> & _).
      * simpl. intros ->. apply Hi. apply list_elem_of_fmap. by exists r.
      * apply Hrows. by right.
Qed.

(** X3. In a run whose query succeeds and whose fetched pins all have a
    string title, every fetched pin whose writes the store takes gets its
    attempt: after the run it is [posted] with its retry bookkeeping
    cleared, the credit flag set and the Pinterest id recorded (or, where
    the API's answer carries none, the id column as it was) when it has a
    token and the API accepted it; it is [failed] with an error message
    when the token is missing or the API refused; and it is as before only
    when the store refused the claim. Such a pin is not left [posting]. *)
Theorem processScheduledPins_outcomes (tk : tick) (w : world) (j : string) (p : pin) :
  fetchError tk = false →
  (∀ r, r ∈ fetchDue (now1 tk) (now2 tk) (pins w) → ∃ s, title r.2 = JStr s) →
  (j, p) ∈ fetchDue (now1 tk) (now2 tk) (pins w) →
  writes_land (outcome tk j) →
  ∃ p', pins (processScheduledPins tk w) !! j = Some p'
        ∧ attempt_result (outcome tk j) p p'
        ∧ status p' ≠ JStr "posting".
Proof.
  intros Hfetch Htitles Hin Hlands. unfold processScheduledPins. rewrite Hfetch.
  destruct (process_batch_result tk _ w j p (fetchDue_NoDup _ _ _) Htitles)
    as (p' & Hp' & Hres); [|done|done|].
  { intros r Hr. by apply elem_of_fetchDue in Hr as [? _]. }
  exists p'. split; [done|]. split; [done|].
  apply elem_of_fetchDue in Hin as [_ Hdue]. simpl in Hdue.
  apply is_due_spec in Hdue as (Hst & _).
  unfold attempt_result in Hres.
  destruct (claim_error (outcome tk j)).
  - subst p'. destruct Hst; congruence.
  - destruct (has_token p); simpl in Hres.
    + destruct (api (outcome tk j)); destruct Hres as (-> & _); discriminate.
    + destruct Hres as (-> & _). discriminate.
Qed.

Lemma processScheduledPins_outcomes_witness :
  let tk := quiet_tick 5000 (ApiOk (Some "pinterest-77")) in
  let w := world_of {[ "pin-1" := sample_pin ]} in
  ∃ p', pins (processScheduledPins tk w) !! "pin-1" = Some p'
        ∧ attempt_result (outcome tk "pin-1") sample_pin p'
        ∧ status p' ≠ JStr "posting".
Proof.
  intros tk w.
  apply (processScheduledPins_outcomes tk w "pin-1" sample_pin).
  - reflexivity.
  - intros r Hr. apply elem_of_fetchDue in Hr as [Hdb _].
    destruct r as [i q]. simpl in *.
    destruct (decide (i = "pin-1")) as [->|Hne].
    + rewrite lookup_singleton_eq in Hdb. injection Hdb as <-. by eexists.
    + by rewrite lookup_singleton_ne in Hdb.
  - vm_compute. apply list_elem_of_here.
  - repeat split.
Defined.

(** A refused claim leaves everything as it was. The writes after the
    claim are not checked: when the store refuses the write of a success,
    the pin has been published and debited and stays [posting], which no
    later query selects. When the answer of the API carries no id, the id
    column keeps what it held. *)
Example lost_write_leaves_the_pin_posting :
  let lost := {| claim_error := false; api := Created (Some (Some "pinterest-77"));
                 posted_error := true; profile_fetch_error := false;
                 profile_update_error := false; flag_error := false;
                 failed_error := false |} in
  let no_id := {| claim_error := false; api := Created None;
                  posted_error := false; profile_fetch_error := false;
                  profile_update_error := false; flag_error := false;
                  failed_error := false |} in
  let w := world_of {[ "pin-1" := sample_pin ]} in
  let w1 := processScheduledPins (quiet_tick 5000 lost) w in
  let w2 := processScheduledPins (quiet_tick 65000 (ApiOk (Some "pinterest-78"))) w1 in
  let w3 := processScheduledPins (quiet_tick 5000 no_id)
              (world_of {[ "pin-1" := set_pinterest_pin_id (Some "old-id") sample_pin ]}) in
  processScheduledPins (quiet_tick 5000 ClaimError) w = w
  ∧ status_of "pin-1" w1 = Some (JStr "posting")
  ∧ publishes "pin-1" w1 = 1%nat ∧ debits "pin-1" w1 = 1%nat
  ∧ w2 = w1
  ∧ status_of "pin-1" w3 = Some (JStr "posted")
  ∧ (pinterest_pin_id <$> pins w3 !! "pin-1") = Some (Some "old-id").
Proof. vm_compute. done. Qed.

(** ** The scheduler loop: an exception ends the run *)

Lemma process_batch_throw tk l1 r l2 w :
  (∀ s, title r.2 ≠ JStr s) →
  process_batch tk (l1 ++ r :: l2) w = process_batch tk l1 w.
Proof.
  intros Htitle. revert w. induction l1 as [|a l1 IH]; intros w; simpl.
  - unfold processScheduledPin. destruct (title r.2) eqn:Ht; try done.
    by destruct (Htitle s).
  - destruct (processScheduledPin _ _ a w); [apply IH | done].
Qed.

(** X4. [pin.title.substring] is evaluated before the [try] of
    [processScheduledPin], and the loop over the batch sits inside the
    [try] of [processScheduledPins]: a fetched pin whose title is not a
    string ends the run. The run is the run on the pins before it; that
    pin and the pins after it in the batch are not attempted and stay as
    they were fetched. *)
Theorem title_exception_ends_the_run (tk : tick) (w : world)
    (l1 l2 : list (string * pin)) (r : string * pin) :
  fetchError tk = false →
  fetchDue (now1 tk) (now2 tk) (pins w) = l1 ++ r :: l2 →
  (∀ s, title r.2 ≠ JStr s) →
  processScheduledPins tk w = process_batch tk l1 w
  ∧ ∀ r', r' ∈ r :: l2 → pins (processScheduledPins tk w) !! r'.1 = Some r'.2.
Proof.
  intros Hfetch Hsplit Htitle. unfold processScheduledPins. rewrite Hfetch, Hsplit.
  rewrite process_batch_throw by done. split; [done|].
  intros r' Hr'.
  pose proof (fetchDue_NoDup (now1 tk) (now2 tk) (pins w)) as Hnd.
  rewrite Hsplit, fmap_app in Hnd. apply NoDup_app in Hnd as (_ & Hdisj & _).
  destruct (process_batch_other tk l1 w r'.1) as (-> & _).
  - intros a Ha Heq. apply (Hdisj a.1).
    + apply list_elem_of_fmap. by exists a.
    + rewrite Heq. apply list_elem_of_fmap. by exists r'.
  - assert (r' ∈ fetchDue (now1 tk) (now2 tk) (pins w)) as Hin.
    { rewrite Hsplit. apply elem_of_app. by right. }
    by apply elem_of_fetchDue in Hin as [? _].
Qed.

Lemma title_exception_ends_the_run_witness :
  let tk := quiet_tick 5000 (ApiOk (Some "pinterest-77")) in
  let w := world_of {[ "pin-a" := untitled_pin; "pin-b" := pin_due_at 200 ]} in
  processScheduledPins tk w = process_batch tk [] w
  ∧ ∀ r', r' ∈ [("pin-a", untitled_pin); ("pin-b", pin_due_at 200)] →
          pins (processScheduledPins tk w) !! r'.1 = Some r'.2.
Proof.
  intros tk w.
  apply (title_exception_ends_the_run tk w [] [("pin-b", pin_due_at 200)]
           ("pin-a", untitled_pin)).
  - reflexivity.
  - vm_compute. reflexivity.
  - intros s. discriminate.
Defined.

(** ** The scheduler loop: how much a run publishes *)

Lemma processScheduledPin_publishes now att r w w' :
  processScheduledPin now att r w = Some w' →
  (all_publishes w' ≤ all_publishes w + 1)%nat
  ∧ (publishes r.1 w' ≤ publishes r.1 w + 1)%nat.
Proof.
  unfold processScheduledPin, claim_pin, all_publishes, publishes. intros Hrun.
  repeat case_match; simplify_eq; cbn -[handlePinError];
    rewrite ?count_if_app; simpl; rewrite ?String.eqb_refl; lia.
Qed.

Lemma process_batch_all_publishes tk l w :
  (all_publishes (process_batch tk l w) ≤ all_publishes w + length l)%nat.
Proof.
  revert w. induction l as [|r l IH]; intros w; simpl; [lia|].
  destruct (processScheduledPin _ _ r w) as [w1|] eqn:Hrun; [|lia].
  apply processScheduledPin_publishes in Hrun as [Hall _].
  specialize (IH w1). lia.
Qed.

Lemma process_batch_publishes tk l w j :
  NoDup l.*1 →
  (publishes j (process_batch tk l w) ≤ publishes j w + 1)%nat.
Proof.
  revert w. induction l as [|r l IH]; intros w Hnd; simpl; [lia|].
  apply NoDup_cons in Hnd as [Hr Hnd].
  destruct (processScheduledPin _ _ r w) as [w1|] eqn:Hrun; [|lia].
  destruct (decide (r.1 = j)) as [<-|Hne].
  - apply processScheduledPin_publishes in Hrun as [_ Hone].
    assert (publishes r.1 (process_batch tk l w1) = publishes r.1 w1) as ->; [|done].
    clear -Hr. revert w1. induction l as [|a l IH]; intros w1; simpl; [done|].
    apply not_elem_of_cons in Hr as [Hne Hr].
    destruct (processScheduledPin _ _ a w1) as [w2|] eqn:Hrun; [|done].
    rewrite IH by done.
    by destruct (processScheduledPin_other _ _ _ _ _ r.1 Hrun) as (_ & _ & _ & ->).
  - destruct (processScheduledPin_other _ _ _ _ _ j Hrun Hne) as (_ & _ & _ & <-).
    by apply IH.
Qed.

Lemma fetchDue_length now1 now2 db : (length (fetchDue now1 now2 db) ≤ 10)%nat.
Proof. unfold fetchDue. rewrite length_take. unfold batch_limit. lia. Qed.

(** X5. One run of the scheduler calls the Pinterest API at most 10 times
    in all and at most once for any one pin. *)
Theorem processScheduledPins_publish_bound (tk : tick) (w : world) :
  let w' := processScheduledPins tk w in
  (all_publishes w' ≤ all_publishes w + 10)%nat
  ∧ ∀ j, (publishes j w' ≤ publishes j w + 1)%nat.
Proof.
  unfold processScheduledPins. destruct (fetchError tk); simpl; [split; intros; lia|].
  split.
  - etrans; [apply process_batch_all_publishes|].
    pose proof (fetchDue_length (now1 tk) (now2 tk) (pins w)). lia.
  - intros j. apply process_batch_publishes, fetchDue_NoDup.
Qed.

(** ** Retry policy: the delay is honoured *)

(** X6. After a failure with retries left, handled at [now] and written
    to the store, the pin's wake-up instant is the one [setMinutes] gives
    on the local clock; the due query does not return the pin at any clock
    reading before that instant, and returns it from then on (the store
    being small enough for the batch limit not to matter). Where the zone
    offset is the same at both ends, the wake-up instant is [now] plus the
    delay, and so after [now]. *)
Theorem failed_pin_waits_its_delay (rt : runtime) (now : Z) (id msg : string) (rc : Z)
    (db : gmap string pin) (p : pin) :
  db !! id = Some p →
  0 ≤ rc →
  rc + 1 ≤ 3 →
  let db' := handlePinError rt now id msg rc false db in
  let wake := UTC rt (LocalTime rt now + 5 * 3 ^ rc * 60000) in
  (steady_offset rt now (5 * 3 ^ rc * 60000) →
   wake = now + 5 * 3 ^ rc * 60000 ∧ now < wake)
  ∧ (∀ t1 t2, t2 < wake → id ∉ (fetchDue t1 t2 db').*1)
  ∧ (∀ t1 t2, scheduled_for p ≤ t1 → wake ≤ t2 → (size db ≤ 10)%nat →
       id ∈ (fetchDue t1 t2 db').*1).
Proof.
  intros Hp Hrc Hle db' wake.
  assert (db' !! id
          = Some (set_retry (Some (rc + 1)) (Some wake) (Some msg)
                    (set_status (JStr "failed") p))) as Hrow.
  { unfold db'. rewrite handlePinError_retry by (unfold maxRetries; lia).
    rewrite Hp, backoff_minutes_nonneg by done. done. }
  split; [|split].
  - intros Hsteady.
    assert (wake = now + 5 * 3 ^ rc * 60000) as Hwake.
    { apply (add_minutes_steady rt now (5 * 3 ^ rc) Hsteady). }
    split; [done|]. rewrite Hwake.
    assert (0 < 3 ^ rc) by (apply Z.pow_pos_nonneg; lia). lia.
  - intros t1 t2 Ht2 Hin.
    apply list_elem_of_fmap in Hin as ([i q] & -> & Hin).
    apply elem_of_fetchDue in Hin as [Hdb Hdue]. simpl in *.
    rewrite Hrow in Hdb. injection Hdb as <-.
    apply is_due_spec in Hdue as (_ & _ & [[=] | (t & [= <-] & Ht)]). lia.
  - intros t1 t2 Ht1 Ht2 Hsize.
    apply list_elem_of_fmap. eexists (id, _). split; [done|].
    apply fetchDue_complete; [| exact Hrow |].
    + unfold db'. by rewrite size_handlePinError.
    + apply is_due_spec. simpl. split; [by right|]. split; [done|]. right. by eexists.
Qed.

Lemma failed_pin_waits_its_delay_witness :
  let db' := handlePinError new_york 1793511000000 "pin-1" "rate limited" 1 false
               {[ "pin-1" := sample_pin ]} in
  let wake := UTC new_york (LocalTime new_york 1793511000000 + 5 * 3 ^ 1 * 60000) in
  (steady_offset new_york 1793511000000 (5 * 3 ^ 1 * 60000) →
   wake = 1793511000000 + 5 * 3 ^ 1 * 60000 ∧ 1793511000000 < wake)
  ∧ (∀ t1 t2, t2 < wake → "pin-1" ∉ (fetchDue t1 t2 db').*1)
  ∧ (∀ t1 t2, scheduled_for sample_pin ≤ t1 → wake ≤ t2 →
       (size ({[ "pin-1" := sample_pin ]} : gmap string pin) ≤ 10)%nat →
       "pin-1" ∈ (fetchDue t1 t2 db').*1).
Proof.
  apply (failed_pin_waits_its_delay new_york 1793511000000 "pin-1" "rate limited" 1
           {[ "pin-1" := sample_pin ]} sample_pin).
  - reflexivity.
  - lia.
  - lia.
Defined.

(** ** Retry policy: the count stays within the cap *)

Lemma all_rows_update_eq_id (P : pin → Prop) f id db :
  all_rows P db → (∀ p, P p → P (f p)) → all_rows P (update_eq_id f id db).
Proof.
  intros Hdb Hf j q Hq. unfold update_eq_id in Hq.
  apply lookup_alter_Some in Hq as [(-> & p & Hp & ->) | (_ & Hq)]; eauto.
Qed.

Lemma all_rows_insert (P : pin → Prop) id p db :
  all_rows P db → P p → all_rows P (<[id := p]> db).
Proof.
  intros Hdb Hp j q Hq.
  apply lookup_insert_Some in Hq as [(_ & <-) | (_ & Hq)]; eauto.
Qed.

Lemma all_rows_delete (P : pin → Prop) id db :
  all_rows P db → all_rows P (delete id db).
Proof. intros Hdb j q Hq. apply lookup_delete_Some in Hq as [_ Hq]. eauto. Qed.

Lemma retry_count_ok_handlePinError rt now id msg rc updateError db :
  0 ≤ rc → all_rows retry_count_ok db →
  all_rows retry_count_ok (handlePinError rt now id msg rc updateError db).
Proof.
  intros Hrc Hdb. unfold handlePinError. destruct updateError; [done|].
  destruct (Z.leb_spec (rc + 1) maxRetries); apply all_rows_update_eq_id; try done.
  all: intros p Hp n Hn; simpl in Hn; first [by apply Hp | injection Hn as <-; lia].
Qed.

Lemma retry_count_ok_processScheduledPin now att r w w' :
  all_rows retry_count_ok (pins w) → retry_count_ok r.2 →
  processScheduledPin now att r w = Some w' →
  all_rows retry_count_ok (pins w').
Proof.
  intros Hdb Hr Hrun. unfold processScheduledPin in Hrun.
  assert (0 ≤ default 0 (retry_count r.2)) as Hrc.
  { destruct (retry_count r.2) as [n|] eqn:E; simpl; [|lia]. by apply Hr. }
  assert (all_rows retry_count_ok
            (update_eq_id (set_status (JStr "posting")) r.1 (pins w))) as Hclaimed.
  { apply all_rows_update_eq_id; [done|]. intros p Hp n Hn. by apply Hp. }
  unfold claim_pin in Hrun.
  repeat case_match; simplify_eq; cbn -[handlePinError];
    repeat first
      [ apply retry_count_ok_handlePinError; [lia|]
      | apply all_rows_update_eq_id;
        [| intros p Hp n; simpl; first [ intros [= <-]; unfold maxRetries; lia | apply Hp ] ]
      | done ].
Qed.

Lemma retry_count_ok_process_batch tk l w :
  all_rows retry_count_ok (pins w) →
  (∀ r, r ∈ l → retry_count_ok r.2) →
  all_rows retry_count_ok (pins (process_batch tk l w)).
Proof.
  revert w. induction l as [|r l IH]; intros w Hdb Hl; simpl; [done|].
  destruct (processScheduledPin _ _ r w) as [w1|] eqn:Hrun; [|done].
  apply IH; [|intros; apply Hl; by right].
  eapply retry_count_ok_processScheduledPin; [done | apply Hl; left | done].
Qed.

Lemma all_rows_refresh (P : pin → Prop) ToNumber_other rt si limit l db :
  (∀ m now p, P p → P (set_metrics m now p)) →
  all_rows P db →
  all_rows P (foldl (λ db r, refresh_pin ToNumber_other rt si limit r db) db l).
Proof.
  intros HP. revert db. induction l as [|r l IH]; intros db Hdb; simpl; [done|].
  apply IH. unfold refresh_pin.
  destruct (skipped _ _); [done|].
  destruct (analytics si r.1); [done|].
  destruct (metrics_of_answer _ _ _); [|done].
  destruct (sync_updateError si r.1); [done|].
  apply all_rows_update_eq_id; [done|]. intros p. apply HP.
Qed.

Section RetryBound.

Variable JSON_parse : string → option jsvalue.
Variable Date_parse : jsvalue → option Z.
Variable ToNumber_other : jsvalue → float.

Local Abbreviation run_op := (run_op JSON_parse Date_parse ToNumber_other).
Local Abbreviation run := (run JSON_parse Date_parse ToNumber_other).

Lemma retry_bounded_run_op o w :
  all_rows retry_count_ok (pins w) → all_rows retry_count_ok (pins (run_op o w)).
Proof.
  intros Hdb. destruct o; simpl.
  - unfold processScheduledPins. destruct (fetchError tk); [done|].
    apply retry_count_ok_process_batch; [done|].
    intros r Hr. apply elem_of_fetchDue in Hr as [Hr _]. by eapply Hdb.
  - unfold schedule_pin. repeat case_match; simpl; try done.
    apply all_rows_insert; [done|]. intros n [= <-]. unfold maxRetries. lia.
  - unfold update_scheduled_pin.
    destruct user as [u|]; [|done].
    destruct (select_own u id w) as [q|] eqn:Hsel; [|done].
    apply select_own_Some in Hsel as [Hq _].
    repeat case_match; simpl; try done.
    all: apply all_rows_insert; [done|]; intros n Hn; by apply (Hdb _ _ Hq n).
  - unfold cancel_scheduled_pin.
    destruct user as [u|]; [|done].
    destruct (select_own u id w) as [q|] eqn:Hsel; [|done].
    apply select_own_Some in Hsel as [Hq _].
    repeat case_match; simpl; try done.
    all: apply all_rows_insert; [done|]; intros n Hn; by apply (Hdb _ _ Hq n).
  - unfold delete_scheduled_pin_permanent. repeat case_match; simpl; try done.
    by apply all_rows_delete.
  - unfold syncUserAnalytics. repeat case_match; simpl; try done.
    apply all_rows_refresh; [|done]. intros m now p Hp n Hn. by apply Hp.
  - unfold sync_analytics. repeat case_match; simpl; try done.
    apply all_rows_refresh; [|done]. intros m now p Hp n Hn. by apply Hp.
Qed.

(** X7. If every stored retry count is between 0 and 3, it stays so along
    every history of scheduler runs, pin handlers and analytics refreshes:
    the scheduler writes a count only when it is at most 3, and sets it to
    0 on success. *)
Theorem retry_count_stays_bounded (h : list op) (w : world) :
  retry_bounded w → retry_bounded (run h w).
Proof.
  unfold retry_bounded. intros Hw.
  assert (all_rows retry_count_ok (pins (run h w))) as Hall.
  { revert w Hw. induction h as [|o h IH]; intros w Hw; simpl.
    - intros id p Hp n Hn. by eapply Hw.
    - apply IH. intros id p n Hp Hn.
      eapply (retry_bounded_run_op o w); [|done|done].
      intros i q Hq m Hm. by eapply Hw. }
  intros id p n Hp Hn. by eapply Hall.
Qed.

End RetryBound.

Lemma retry_count_stays_bounded_witness :
  retry_bounded (run no_JSON_parse no_Date_parse no_ToNumber four_failures
                   (world_of {[ "pin-1" := sample_pin ]})).
Proof.
  apply (retry_count_stays_bounded no_JSON_parse no_Date_parse no_ToNumber four_failures
           (world_of {[ "pin-1" := sample_pin ]})).
  intros id p n Hp Hn. simpl in Hp.
  apply lookup_singleton_Some in Hp as [_ <-]. simpl in Hn. injection Hn as <-.
  unfold maxRetries. lia.
Defined.

(** ** The credit ledger *)











Section Ledger.

Variable JSON_parse : string → option jsvalue.
Variable Date_parse : jsvalue → option Z.
Variable ToNumber_other : jsvalue → float.

Local Abbreviation run_op := (run_op JSON_parse Date_parse ToNumber_other).
Local Abbreviation run := (run JSON_parse Date_parse ToNumber_other).







End Ledger.

(** Two posts for a user with one credit left: two debits, balance 0. A
    post whose profile update the store refuses is counted as a debit and
    leaves the balance as it was. *)
Example balance_stops_at_zero :
  let w := {| pins := {[ "pin-a" := pin_due_at 100; "pin-b" := pin_due_at 200 ]};
              profiles := {[ "user-1" := Some 1 ]}; trace := []; host := utc_host |} in
  let w' := processScheduledPins (quiet_tick 5000 (ApiOk (Some "pinterest-77"))) w in
  let refused := {| claim_error := false; api := Created (Some (Some "pinterest-77"));
                    posted_error := false; profile_fetch_error := false;
                    profile_update_error := true; flag_error := false;
                    failed_error := false |} in
  let w'' := processScheduledPins (quiet_tick 5000 refused) w in
  user_debits "user-1" w' = 2%nat ∧ profiles w' !! "user-1" = Some (Some 0)
  ∧ user_debits "user-1" w'' = 2%nat ∧ profiles w'' !! "user-1" = Some (Some 1).
Proof. vm_compute. done. Qed.

(** ** The pin handlers: ownership and refusals *)

Section PinHandlerProperties.

Variable JSON_parse : string → option jsvalue.
Variable Date_parse : jsvalue → option Z.
Variable ToNumber_other : jsvalue → float.

Lemma select_own_None user id w :
  (∀ p, pins w !! id = Some p → user_id p ≠ user) → select_own user id w = None.
Proof.
  intros Hforeign. unfold select_own. destruct (pins w !! id) as [p|] eqn:Hp; [|done].
  case_bool_decide; [|done]. by destruct (Hforeign p).
Qed.

(** X9. A pin that does not exist or belongs to another user cannot be
    updated, cancelled or permanently deleted: each of the three handlers
    answers 404 and leaves the store as it was. *)
Theorem foreign_pin_not_found (user id : string) (b : update_body) (now : Z)
    (storeError : bool) (w : world) :
  (∀ p, pins w !! id = Some p → user_id p ≠ user) →
  update_scheduled_pin Date_parse (Some user) id b now storeError w
  = (w, Respond 404 (ErrorBody "Scheduled pin not found"))
  ∧ cancel_scheduled_pin (Some user) id storeError w
    = (w, Respond 404 (ErrorBody "Scheduled pin not found"))
  ∧ delete_scheduled_pin_permanent (Some user) id storeError w
    = (w, Respond 404 (ErrorBody "Scheduled pin not found")).
Proof.
  intros Hforeign. apply select_own_None in Hforeign.
  unfold update_scheduled_pin, cancel_scheduled_pin, delete_scheduled_pin_permanent.
  by rewrite Hforeign.
Qed.

(** X10. The four handlers that write to [scheduled_pins] change the store
    only when they answer 200: every other outcome, an uncaught exception
    included, leaves it as it was. *)
Theorem refusal_changes_nothing (user : option string) (id : string) (w : world) :
  (∀ b now oneYearFromNow accessToken joined_token insertError result,
     schedule_pin JSON_parse Date_parse ToNumber_other user b now oneYearFromNow
       accessToken joined_token id insertError w = result →
     (∀ body, result.2 ≠ Respond 200 body) → result.1 = w)
  ∧ (∀ b now updateError result,
       update_scheduled_pin Date_parse user id b now updateError w = result →
       (∀ body, result.2 ≠ Respond 200 body) → result.1 = w)
  ∧ (∀ updateError result,
       cancel_scheduled_pin user id updateError w = result →
       (∀ body, result.2 ≠ Respond 200 body) → result.1 = w)
  ∧ (∀ deleteError result,
       delete_scheduled_pin_permanent user id deleteError w = result →
       (∀ body, result.2 ≠ Respond 200 body) → result.1 = w).
Proof.
  repeat split.
  - intros b now oneYearFromNow accessToken joined_token insertError result <- Hresp.
    unfold schedule_pin in *. repeat case_match; simpl in *; try done.
    exfalso; by eapply Hresp.
  - intros b now updateError result <- Hresp.
    unfold update_scheduled_pin in *. repeat case_match; simpl in *; try done.
    all: exfalso; by eapply Hresp.
  - intros updateError result <- Hresp.
    unfold cancel_scheduled_pin in *. repeat case_match; simpl in *; try done.
    all: exfalso; by eapply Hresp.
  - intros deleteError result <- Hresp.
    unfold delete_scheduled_pin_permanent in *. repeat case_match; simpl in *; try done.
    exfalso; by eapply Hresp.
Qed.

(** X11. Cancelling an own pin that is not [posted], the store accepting
    the write, answers 200, leaves the pin [cancelled] with every other
    column and every other row as before, and takes it out of the due
    set for every clock reading. *)
Theorem cancel_takes_pin_out_of_due_set (user id : string) (w : world) (p : pin) :
  select_own user id w = Some p →
  status p ≠ JStr "posted" →
  let result := cancel_scheduled_pin (Some user) id false w in
  result.2 = Respond 200 (MessageBody "Scheduled pin cancelled successfully")
  ∧ pins result.1 = <[id := set_status (JStr "cancelled") p]> (pins w)
  ∧ (∀ t1 t2, id ∉ (fetchDue t1 t2 (pins result.1)).*1).
Proof.
  intros Hsel Hst result. subst result.
  unfold cancel_scheduled_pin. rewrite Hsel, (js_is_false _ _ Hst).
  assert (∀ t1 t2,
            id ∉ (fetchDue t1 t2 (<[id := set_status (JStr "cancelled") p]> (pins w))).*1)
    as Hout.
  { intros t1 t2 Hin. apply list_elem_of_fmap in Hin as ([i q] & -> & Hin).
    apply elem_of_fetchDue in Hin as [Hdb Hdue]. simpl in *.
    rewrite lookup_insert_eq in Hdb. injection Hdb as <-.
    apply is_due_spec in Hdue as ([Hs | Hs] & _); discriminate. }
  destruct (js_is "posting" (status p)); simpl; done.
Qed.

(** X12. Permanent deletion of an own pin succeeds exactly when the pin is
    [cancelled] or [posted] and the store accepts the delete; it then
    removes that row and no other. An own pin in any other status is
    refused with 400. *)
Theorem permanent_delete_only_finished (user id : string) (deleteError : bool)
    (w : world) (p : pin) :
  select_own user id w = Some p →
  let result := delete_scheduled_pin_permanent (Some user) id deleteError w in
  ((∃ body, result.2 = Respond 200 body)
   ↔ (status p = JStr "cancelled" ∨ status p = JStr "posted") ∧ deleteError = false)
  ∧ ((∃ body, result.2 = Respond 200 body) → pins result.1 = delete id (pins w))
  ∧ (status p ≠ JStr "cancelled" → status p ≠ JStr "posted" →
       result = (w, Respond 400
                      (ErrorBody "Can only permanently delete cancelled or posted pins"))).
Proof.
  intros Hsel result. subst result.
  unfold delete_scheduled_pin_permanent. rewrite Hsel.
  assert (js_is "cancelled" (status p) || js_is "posted" (status p) = true
          ↔ status p = JStr "cancelled" ∨ status p = JStr "posted") as Hfin.
  { by rewrite orb_true_iff, !js_is_true. }
  destruct (js_is "cancelled" (status p) || js_is "posted" (status p)) eqn:Hb; simpl.
  - pose proof (proj1 Hfin eq_refl) as Hst.
    destruct deleteError; simpl.
    + split; [|split].
      * split; [intros [? [=]] | intros [_ [=]]].
      * intros [? [=]].
      * intros Hnc Hnp. destruct Hst; congruence.
    + split; [|split].
      * split; [done | intros _; by eexists].
      * done.
      * intros Hnc Hnp. destruct Hst; congruence.
  - split; [|split].
    + split; [intros [? [=]] | intros [Hst _]]. apply Hfin in Hst. discriminate.
    + intros [? [=]].
    + done.
Qed.

End PinHandlerProperties.

Lemma foreign_pin_not_found_witness :
  update_scheduled_pin Date_parse_ref (Some "user-2") "pin-1" reschedule_body 5000 false
    (world_of {[ "pin-1" := sample_pin ]})
  = (world_of {[ "pin-1" := sample_pin ]}, Respond 404 (ErrorBody "Scheduled pin not found"))
  ∧ cancel_scheduled_pin (Some "user-2") "pin-1" false (world_of {[ "pin-1" := sample_pin ]})
    = (world_of {[ "pin-1" := sample_pin ]}, Respond 404 (ErrorBody "Scheduled pin not found"))
  ∧ delete_scheduled_pin_permanent (Some "user-2") "pin-1" false
      (world_of {[ "pin-1" := sample_pin ]})
    = (world_of {[ "pin-1" := sample_pin ]}, Respond 404 (ErrorBody "Scheduled pin not found")).
Proof.
  apply (foreign_pin_not_found Date_parse_ref "user-2" "pin-1" reschedule_body 5000 false
           (world_of {[ "pin-1" := sample_pin ]})).
  intros p Hp. simpl in Hp. apply lookup_singleton_Some in Hp as [_ <-]. discriminate.
Defined.

Lemma cancel_takes_pin_out_of_due_set_witness :
  let result := cancel_scheduled_pin (Some "user-1") "pin-1" false
                  (world_of {[ "pin-1" := sample_pin ]}) in
  result.2 = Respond 200 (MessageBody "Scheduled pin cancelled successfully")
  ∧ pins result.1
    = <[ "pin-1" := set_status (JStr "cancelled") sample_pin ]>
        (pins (world_of {[ "pin-1" := sample_pin ]}))
  ∧ (∀ t1 t2, "pin-1" ∉ (fetchDue t1 t2 (pins result.1)).*1).
Proof.
  apply (cancel_takes_pin_out_of_due_set "user-1" "pin-1"
           (world_of {[ "pin-1" := sample_pin ]}) sample_pin).
  - reflexivity.
  - discriminate.
Defined.

Lemma permanent_delete_only_finished_witness :
  let w := world_of {[ "pin-1" := cancelled_pin ]} in
  let result := delete_scheduled_pin_permanent (Some "user-1") "pin-1" false w in
  ((∃ body, result.2 = Respond 200 body)
   ↔ (status cancelled_pin = JStr "cancelled" ∨ status cancelled_pin = JStr "posted")
     ∧ false = false)
  ∧ ((∃ body, result.2 = Respond 200 body) → pins result.1 = delete "pin-1" (pins w))
  ∧ (status cancelled_pin ≠ JStr "cancelled" → status cancelled_pin ≠ JStr "posted" →
       result = (w, Respond 400
                      (ErrorBody "Can only permanently delete cancelled or posted pins"))).
Proof.
  apply (permanent_delete_only_finished "user-1" "pin-1" false
           (world_of {[ "pin-1" := cancelled_pin ]}) cancelled_pin).
  reflexivity.
Defined.

(** ** The schedule handler: what gets in *)

Section ScheduleProperties.

Variable JSON_parse : string → option jsvalue.
Variable Date_parse : jsvalue → option Z.
Variable ToNumber_other : jsvalue → float.

(** X13. A schedule request that is answered 200 has put exactly one new
    row under the key the store assigned, a key that was free; the row
    belongs to the caller, carries the title and description of the
    request, both truthy, and the parsed schedule date, which lies after
    [now] and not after [oneYearFromNow]; a request that is not recurring
    stores no pattern. The new pin is not in the due set at any clock
    reading up to [now]. *)
Theorem scheduled_pin_is_future_dated (user : option string) (b : schedule_body)
    (now oneYearFromNow : Z) (accessToken joined_token : option string)
    (new_id : string) (insertError : bool) (w w' : world)
    (id : string) (p : pin) (message : string) :
  schedule_pin JSON_parse Date_parse ToNumber_other user b now oneYearFromNow accessToken
    joined_token new_id insertError w
  = (w', Respond 200 (PinBody (id, p) message)) →
  id = new_id
  ∧ pins w !! new_id = None
  ∧ pins w' = <[new_id := p]> (pins w)
  ∧ user = Some (user_id p)
  ∧ title p = s_title b ∧ truthy (title p) = true
  ∧ description p = s_description b ∧ truthy (description p) = true
  ∧ Date_parse (s_scheduled_for b) = Some (scheduled_for p)
  ∧ now < scheduled_for p ≤ oneYearFromNow
  ∧ (truthy (is_recurring p) = false → recurrence_pattern p = JNull)
  ∧ (∀ t1 t2, t1 ≤ now → new_id ∉ (fetchDue t1 t2 (pins w')).*1).
Proof.
  unfold schedule_pin. intros Hrun.
  destruct user as [u|]; [|discriminate].
  destruct (truthy (s_image_url b)); [|discriminate].
  destruct (truthy (s_title b)) eqn:Htitle; [|discriminate].
  destruct (truthy (s_description b)) eqn:Hdesc; [|discriminate].
  destruct (truthy (s_board_id b)); [|discriminate].
  destruct (truthy (s_scheduled_for b)); [|discriminate].
  cbn [negb orb] in Hrun.
  destruct (Date_parse (s_scheduled_for b)) as [d|] eqn:Hd; cbn [date_le date_gt] in Hrun.
  2:{ repeat case_match; discriminate. }
  destruct (Z.leb_spec d now); [discriminate|].
  destruct (Z.ltb_spec oneYearFromNow d); [discriminate|].
  destruct (negb _); [discriminate|].
  destruct (validate_recurrence _ _ _ _); try discriminate.
  destruct (insertError || _) eqn:Hins; [discriminate|].
  apply orb_false_iff in Hins as [_ Hfree]. apply bool_decide_eq_false in Hfree.
  injection Hrun as <- <- <- <-. simpl.
  repeat split; try done; try lia.
  - destruct (pins w !! new_id) eqn:E; [|done]. exfalso. apply Hfree. by eexists.
  - intros Hrec. by rewrite Hrec.
  - intros t1 t2 Ht1 Hin.
    apply list_elem_of_fmap in Hin as ([i q] & -> & Hin).
    apply elem_of_fetchDue in Hin as [Hdb Hdue]. simpl in *.
    rewrite lookup_insert_eq in Hdb. injection Hdb as <-.
    apply is_due_spec in Hdue as (_ & Hsched & _). simpl in Hsched. lia.
Qed.

End ScheduleProperties.

Lemma scheduled_pin_is_future_dated_witness :
  let b := recurring_body (JStr daily_pattern_text) in
  let p := new_pin "user-1" b 7200000 (Some "token-1") in
  "pin-9" = "pin-9"
  ∧ pins (world_of ∅) !! "pin-9" = None
  ∧ pins (set_pins (<[ "pin-9" := p ]> (pins (world_of ∅))) (world_of ∅))
    = <[ "pin-9" := p ]> (pins (world_of ∅))
  ∧ Some "user-1" = Some (user_id p)
  ∧ title p = s_title b ∧ truthy (title p) = true
  ∧ description p = s_description b ∧ truthy (description p) = true
  ∧ Date_parse_ref (s_scheduled_for b) = Some (scheduled_for p)
  ∧ 3600000 < scheduled_for p ≤ 31539600000
  ∧ (truthy (is_recurring p) = false → recurrence_pattern p = JNull)
  ∧ (∀ t1 t2, t1 ≤ 3600000 →
       "pin-9" ∉ (fetchDue t1 t2
                    (pins (set_pins (<[ "pin-9" := p ]> (pins (world_of ∅)))
                             (world_of ∅)))).*1).
Proof.
  intros b p.
  apply (scheduled_pin_is_future_dated JSON_parse_ref Date_parse_ref no_ToNumber
           (Some "user-1") b 3600000 31539600000 (Some "token-1") (Some "token-1")
           "pin-9" false (world_of ∅) _ "pin-9" p "Pin scheduled for ").
  vm_compute. reflexivity.
Defined.

(** ** The recurrence check of the schedule handler *)

(** Comparison on binary64, as [<] and [>] of the interval test use it. *)
Lemma SFcompare_swap (a b : spec_float) :
  SFcompare b a = option_map CompOpp (SFcompare a b).
Proof.
  destruct a as [[]| []| |[] m e], b as [[]| []| |[] m' e']; simpl; try reflexivity.
  all: rewrite (Z.compare_antisym e e'); destruct (e ?= e'); simpl; try reflexivity.
  all: change (PosDef.Pos.compare_cont Eq m' m) with (Pos.compare m' m);
    change (PosDef.Pos.compare_cont Eq m m') with (Pos.compare m m');
    rewrite (Pos.compare_antisym m m'); destruct (m' ?= m)%positive; reflexivity.
Qed.

Lemma SFcompare_None (a b : spec_float) :
  SFcompare a b = None → a = S754_nan ∨ b = S754_nan.
Proof.
  destruct a as [[]| []| |[] m e], b as [[]| []| |[] m' e']; simpl; try discriminate; auto.
  all: destruct (e ?= e'); try discriminate; destruct (m ?= m')%positive; discriminate.
Qed.

Lemma is_nan_false_Prim2SF (x : float) :
  PrimFloat.is_nan x = false → Prim2SF x ≠ S754_nan.
Proof.
  unfold PrimFloat.is_nan. rewrite FloatAxioms.eqb_spec. intros H E.
  rewrite E in H. discriminate.
Qed.

Lemma is_nan_true_Prim2SF (x : float) :
  PrimFloat.is_nan x = true → Prim2SF x = S754_nan.
Proof.
  unfold PrimFloat.is_nan. rewrite FloatAxioms.eqb_spec. unfold SFeqb.
  destruct (Prim2SF x) as [[]| []| |[] m e]; simpl; try discriminate; auto.
  all: rewrite Z.compare_refl, Pos.compare_refl; discriminate.
Qed.

Lemma float_not_ltb_leb (x y : float) :
  PrimFloat.is_nan x = false → PrimFloat.is_nan y = false →
  PrimFloat.ltb x y = false → PrimFloat.leb y x = true.
Proof.
  intros Hx%is_nan_false_Prim2SF Hy%is_nan_false_Prim2SF.
  rewrite FloatAxioms.ltb_spec, FloatAxioms.leb_spec. unfold SFltb, SFleb.
  rewrite (SFcompare_swap (Prim2SF x) (Prim2SF y)).
  destruct (SFcompare (Prim2SF x) (Prim2SF y)) as [[]|] eqn:E; simpl; try done.
  apply SFcompare_None in E as [|]; done.
Qed.

Lemma float_nan_ltb (x y : float) :
  PrimFloat.is_nan x = true → PrimFloat.ltb x y = false ∧ PrimFloat.ltb y x = false.
Proof.
  intros Hx%is_nan_true_Prim2SF.
  rewrite !FloatAxioms.ltb_spec. unfold SFltb. rewrite Hx.
  split; [done|]. by destruct (Prim2SF y) as [[]| []| |[] m e].
Qed.

Section RecurrenceProperties.

Variable JSON_parse : string → option jsvalue.
Variable ToNumber_other : jsvalue → float.

(** X14. A recurring request whose pattern passes the check has a pattern
    (after [JSON.parse] when it came as text) whose type is one of daily,
    weekly and monthly and whose interval is truthy; an interval that is a
    number lies between 1 and 30, both included. *)
Theorem accepted_pattern_is_in_range (is_recurring recurrence_pattern : jsvalue) :
  truthy is_recurring = true →
  truthy recurrence_pattern = true →
  validate_recurrence JSON_parse ToNumber_other is_recurring recurrence_pattern = Pass →
  ∃ pattern type interval,
    match recurrence_pattern with
    | JStr text => JSON_parse text
    | _ => Some recurrence_pattern
    end = Some pattern
    ∧ get_prop "type" pattern = Some type
    ∧ (type = JStr "daily" ∨ type = JStr "weekly" ∨ type = JStr "monthly")
    ∧ get_prop "interval" pattern = Some interval
    ∧ truthy interval = true
    ∧ (∀ x, interval = JNum x →
         PrimFloat.leb 1%float x = true ∧ PrimFloat.leb x 30%float = true).
Proof.
  intros Hrec Hpat. unfold validate_recurrence. rewrite Hrec, Hpat. cbn [andb].
  destruct (match recurrence_pattern with JStr text => JSON_parse text | _ => _ end)
    as [pattern|] eqn:Hparse; [|discriminate].
  destruct (get_prop "type" pattern) as [type|] eqn:Hty; [|discriminate].
  destruct (get_prop "interval" pattern) as [interval|] eqn:Hiv; [|discriminate].
  destruct (js_is "daily" type || js_is "weekly" type || js_is "monthly" type) eqn:Htype;
    cbn [negb]; [|discriminate].
  destruct (truthy interval) eqn:Hint; cbn [negb orb]; [|discriminate].
  destruct (PrimFloat.ltb (ToNumber ToNumber_other interval) 1) eqn:Hlo; [discriminate|].
  destruct (PrimFloat.ltb 30 (ToNumber ToNumber_other interval)) eqn:Hhi; [discriminate|].
  intros _. exists pattern, type, interval. repeat split; try done.
  - apply orb_true_iff in Htype as [Htype|Htype];
      [apply orb_true_iff in Htype as [Htype|Htype]|];
      apply js_is_true in Htype; auto.
  - subst. simpl in Hint, Hlo.
    apply andb_true_iff in Hint as [_ Hnan%negb_true_iff].
    by apply float_not_ltb_leb.
  - subst. simpl in Hint, Hhi.
    apply andb_true_iff in Hint as [_ Hnan%negb_true_iff].
    by apply float_not_ltb_leb.
Qed.

(** X15. The interval test lets through every truthy interval that
    converts to NaN, such as a word or an object: both comparisons with NaN
    are false, so a pattern of a known type is accepted with it. *)
Theorem non_numeric_interval_is_accepted (is_recurring recurrence_pattern : jsvalue)
    (fields : list (string * jsvalue)) :
  recurrence_pattern = JObj fields →
  (assoc "type" fields = JStr "daily" ∨ assoc "type" fields = JStr "weekly"
   ∨ assoc "type" fields = JStr "monthly") →
  truthy (assoc "interval" fields) = true →
  PrimFloat.is_nan (ToNumber ToNumber_other (assoc "interval" fields)) = true →
  validate_recurrence JSON_parse ToNumber_other is_recurring recurrence_pattern = Pass.
Proof.
  intros -> Htype Hint Hnan. unfold validate_recurrence.
  destruct (truthy is_recurring); [|done]. cbn [truthy andb get_prop].
  rewrite Hint. destruct (float_nan_ltb _ 1%float Hnan) as [-> _].
  destruct (float_nan_ltb _ 30%float Hnan) as [_ ->].
  by destruct Htype as [-> | [-> | ->]].
Qed.

End RecurrenceProperties.

Lemma accepted_pattern_is_in_range_witness :
  ∃ pattern type interval,
    JSON_parse_ref daily_pattern_text = Some pattern
    ∧ get_prop "type" pattern = Some type
    ∧ (type = JStr "daily" ∨ type = JStr "weekly" ∨ type = JStr "monthly")
    ∧ get_prop "interval" pattern = Some interval
    ∧ truthy interval = true
    ∧ (∀ x, interval = JNum x →
         PrimFloat.leb 1%float x = true ∧ PrimFloat.leb x 30%float = true).
Proof.
  apply (accepted_pattern_is_in_range JSON_parse_ref no_ToNumber (JBool true)
           (JStr daily_pattern_text)).
  - reflexivity.
  - reflexivity.
  - vm_compute. reflexivity.
Defined.

Lemma non_numeric_interval_is_accepted_witness :
  validate_recurrence no_JSON_parse no_ToNumber (JBool true)
    (JObj [("type", JStr "weekly"); ("interval", JStr "often")]) = Pass.
Proof.
  apply (non_numeric_interval_is_accepted no_JSON_parse no_ToNumber (JBool true) _
           [("type", JStr "weekly"); ("interval", JStr "often")]).
  - reflexivity.
  - right. left. reflexivity.
  - reflexivity.
  - vm_compute. reflexivity.
Defined.

(** ** The list handler: whose rows, in which order *)

Lemma StronglySorted_sublist {A} (R : relation A) (l1 l2 : list A) :
  l1 `sublist_of` l2 → StronglySorted R l2 → StronglySorted R l1.
Proof.
  induction 1 as [|x l1 l2 Hsub IH|x l1 l2 Hsub IH]; intros Hsorted.
  - constructor.
  - apply StronglySorted_cons in Hsorted as [Hall Hsorted].
    apply StronglySorted_cons. split; [|by apply IH].
    rewrite Forall_forall in *. intros y Hy. apply Hall.
    by eapply sublist_subseteq.
  - apply StronglySorted_cons in Hsorted as [_ Hsorted]. by apply IH.
Qed.

Lemma own_rows_sublist (user : string) (q_status : option string) (w : world) :
  own_rows user q_status w
    `sublist_of` merge_sort by_scheduled_for
                   (filter (λ r, user_id r.2 = user) (map_to_list (pins w))).
Proof.
  unfold own_rows. destruct q_status as [st|]; [|done].
  destruct (negb (String.eqb st "")); [|done]. apply sublist_filter.
Qed.

Lemma elem_of_own_rows (user : string) (q_status : option string) (w : world)
    (id : string) (p : pin) :
  (id, p) ∈ own_rows user q_status w ↔
  pins w !! id = Some p ∧ user_id p = user
  ∧ ∀ st, q_status = Some st → st ≠ "" → status p = JStr st.
Proof.
  assert (Hbase : (id, p) ∈ merge_sort by_scheduled_for
                     (filter (λ r, user_id r.2 = user) (map_to_list (pins w)))
                  ↔ pins w !! id = Some p ∧ user_id p = user).
  { rewrite merge_sort_Permutation, list_elem_of_filter, elem_of_map_to_list. simpl.
    tauto. }
  unfold own_rows. destruct q_status as [st|].
  - destruct (String.eqb_spec st "") as [->|Hne]; simpl.
    + rewrite Hbase. split; [|tauto]. intros [? ?]. repeat split; try done.
      intros st [= <-]. done.
    + rewrite list_elem_of_filter, Hbase. simpl. split.
      * intros [Hst [? ?]]. repeat split; try done.
        intros st' [= <-] _. by apply js_is_true.
      * intros (? & ? & Hst). repeat split; try done.
        rewrite (Hst st eq_refl Hne). simpl. apply String.eqb_refl.
  - rewrite Hbase. split; [|tauto]. intros [? ?]. repeat split; done.
Qed.

Section ListOrder.

Variable parseInt : string → option Z.

(** X16. A page the list handler answers with holds rows of the table that
    belong to the caller and, when a non-empty [status] was asked for, have
    that status; the page is in ascending order of [scheduled_for] and no
    pin is on it twice. With offset 0 and a limit that is at least the size
    of the table, every pin of the caller that matches the filter is on it. *)
Theorem listed_pins_are_own_and_ordered (user : string)
    (q_status q_limit q_offset : option string) (fetchError : bool) (w : world)
    (page : list (string * pin)) (total : nat) :
  list_scheduled_pins parseInt (Some user) q_status q_limit q_offset fetchError w
  = Respond 200 (ListBody page total) →
  (∀ id p, (id, p) ∈ page →
     pins w !! id = Some p ∧ user_id p = user
     ∧ ∀ st, q_status = Some st → st ≠ "" → status p = JStr st)
  ∧ StronglySorted by_scheduled_for page
  ∧ NoDup page.*1
  ∧ (∀ limit, query_int parseInt 0 q_offset = Some 0 →
       query_int parseInt 50 q_limit = Some limit →
       Z.of_nat (size (pins w)) ≤ limit →
       ∀ id p, pins w !! id = Some p → user_id p = user →
         (∀ st, q_status = Some st → st ≠ "" → status p = JStr st) →
         (id, p) ∈ page).
Proof.
  unfold list_scheduled_pins. destruct fetchError; [discriminate|].
  destruct (range _ _ _) as [rows|] eqn:Hrange; [|discriminate].
  intros [= <- <-].
  apply range_Some in Hrange as (f & t & Hf & Ht & Hf0 & Hl0 & ->).
  set (all := own_rows user q_status w).
  assert (Hsub : take (Z.to_nat (t - f + 1)) (drop (Z.to_nat f) all) `sublist_of` all).
  { etrans; [apply sublist_take | apply sublist_drop]. }
  repeat split.
  - eapply elem_of_own_rows, sublist_subseteq; done.
  - eapply elem_of_own_rows, sublist_subseteq; done.
  - eapply elem_of_own_rows, sublist_subseteq; done.
  - eapply StronglySorted_sublist; [done|].
    eapply StronglySorted_sublist; [apply own_rows_sublist|].
    apply StronglySorted_merge_sort; apply _.
  - eapply sublist_NoDup; [|apply fmap_sublist, Hsub].
    eapply sublist_NoDup; [|apply fmap_sublist, own_rows_sublist].
    rewrite merge_sort_Permutation.
    eapply sublist_NoDup; [|apply fmap_sublist, sublist_filter].
    apply NoDup_fst_map_to_list.
  - intros limit Hoff Hlim Hsize id p Hdb Hown Hst.
    rewrite Hoff, Hlim in Ht. rewrite Hoff in Hf.
    injection Hf as <-. injection Ht as <-.
    replace (0 + limit - 1 - 0 + 1) with limit by lia.
    simpl. rewrite take_ge; [by apply elem_of_own_rows|].
    pose proof (sublist_length _ _ (own_rows_sublist user q_status w)) as Hlen.
    rewrite merge_sort_Permutation in Hlen.
    pose proof (length_filter (λ r : string * pin, user_id r.2 = user)
                  (map_to_list (pins w))) as Hlen'.
    rewrite length_map_to_list in Hlen'. fold all in Hlen. rewrite length_drop. lia.
Qed.

End ListOrder.

Lemma listed_pins_are_own_and_ordered_witness :
  let page := [("pin-2", set_status (JStr "failed") sample_pin)] in
  let w := world_of three_pins in
  (∀ id p, (id, p) ∈ page →
     pins w !! id = Some p ∧ user_id p = "user-1"
     ∧ ∀ st, Some "failed" = Some st → st ≠ "" → status p = JStr st)
  ∧ StronglySorted by_scheduled_for page
  ∧ NoDup page.*1
  ∧ (∀ limit, query_int parseInt_ref 0 None = Some 0 →
       query_int parseInt_ref 50 None = Some limit →
       Z.of_nat (size (pins w)) ≤ limit →
       ∀ id p, pins w !! id = Some p → user_id p = "user-1" →
         (∀ st, Some "failed" = Some st → st ≠ "" → status p = JStr st) →
         (id, p) ∈ page).
Proof.
  intros page w.
  apply (listed_pins_are_own_and_ordered parseInt_ref "user-1" (Some "failed") None None
           false w page 1%nat).
  vm_compute. reflexivity.
Defined.

(** ** The update handler: what it leaves alone *)

Section UpdateFrame.

Variable Date_parse : jsvalue → option Z.

(** X17. An update that is answered 200 rewrites the one row it was asked
    for, a row of the caller that was not posted, and no other; the row
    keeps its owner and every column the worker and the analytics refresh
    maintain (retry count, retry time, error message, credits flag,
    Pinterest id, account token, metrics and their date). A schedule time,
    when one is supplied, is stored as parsed and lies after [now]. Credit
    balances and the calls made to the outside are as before. *)
Theorem update_keeps_worker_columns (user : option string) (id : string)
    (b : update_body) (now : Z) (updateError : bool) (w w' : world) (answer : body) :
  update_scheduled_pin Date_parse user id b now updateError w = (w', Respond 200 answer) →
  ∃ old new,
    select_own (default "" user) id w = Some old ∧ user = Some (user_id old)
    ∧ status old ≠ JStr "posted"
    ∧ answer = PinBody (id, new) "Scheduled pin updated successfully"
    ∧ pins w' = <[id := new]> (pins w)
    ∧ user_id new = user_id old
    ∧ retry_count new = retry_count old
    ∧ next_retry_at new = next_retry_at old
    ∧ error_message new = error_message old
    ∧ credits_deducted new = credits_deducted old
    ∧ pinterest_pin_id new = pinterest_pin_id old
    ∧ access_token new = access_token old
    ∧ pin_metrics new = pin_metrics old
    ∧ metrics_last_updated new = metrics_last_updated old
    ∧ (truthy (u_scheduled_for b) = true →
         Date_parse (u_scheduled_for b) = Some (scheduled_for new)
         ∧ now < scheduled_for new)
    ∧ profiles w' = profiles w ∧ trace w' = trace w.
Proof.
  unfold update_scheduled_pin. destruct user as [u|]; [|discriminate]. simpl.
  destruct (select_own u id w) as [old|] eqn:Hsel; [|discriminate].
  destruct (js_is "posted" (status old)) eqn:Hposted; [discriminate|].
  destruct (truthy (u_scheduled_for b)) eqn:Hsf; cbn [andb].
  - destruct (Date_parse (u_scheduled_for b)) as [d|] eqn:Hd; cbn [date_le];
      [|discriminate].
    destruct (Z.leb_spec d now); [discriminate|].
    destruct updateError; [discriminate|]. intros [= <- <-].
    exists old, (apply_updates b d old).
    pose proof Hsel as Hsel'.
    apply select_own_Some in Hsel' as [Hdb Hown].
    repeat split; try done.
    + by rewrite Hown.
    + intros E. apply js_is_true in E. congruence.
    + simpl. by rewrite Hsf.
    + simpl. rewrite Hsf. lia.
  - destruct updateError; [discriminate|]. intros [= <- <-].
    exists old, (apply_updates b 0 old).
    pose proof Hsel as Hsel'.
    apply select_own_Some in Hsel' as [Hdb Hown].
    repeat split; try done.
    + by rewrite Hown.
    + intros E. apply js_is_true in E. congruence.
Qed.

End UpdateFrame.

Lemma update_keeps_worker_columns_witness :
  let w := world_of {[ "pin-1" := exhausted_pin ]} in
  ∃ old new,
    select_own (default "" (Some "user-1")) "pin-1" w = Some old
    ∧ Some "user-1" = Some (user_id old)
    ∧ status old ≠ JStr "posted"
    ∧ PinBody ("pin-1", apply_updates reschedule_body 0 exhausted_pin)
        "Scheduled pin updated successfully"
      = PinBody ("pin-1", new) "Scheduled pin updated successfully"
    ∧ pins (set_pins (<["pin-1" := apply_updates reschedule_body 0 exhausted_pin]> (pins w)) w)
      = <["pin-1" := new]> (pins w)
    ∧ user_id new = user_id old
    ∧ retry_count new = retry_count old
    ∧ next_retry_at new = next_retry_at old
    ∧ error_message new = error_message old
    ∧ credits_deducted new = credits_deducted old
    ∧ pinterest_pin_id new = pinterest_pin_id old
    ∧ access_token new = access_token old
    ∧ pin_metrics new = pin_metrics old
    ∧ metrics_last_updated new = metrics_last_updated old
    ∧ (truthy (u_scheduled_for reschedule_body) = true →
         Date_parse_ref (u_scheduled_for reschedule_body) = Some (scheduled_for new)
         ∧ 5000 < scheduled_for new)
    ∧ profiles (set_pins (<["pin-1" := apply_updates reschedule_body 0 exhausted_pin]>
                            (pins w)) w) = profiles w
    ∧ trace (set_pins (<["pin-1" := apply_updates reschedule_body 0 exhausted_pin]>
                         (pins w)) w) = trace w.
Proof.
  intros w.
  apply (update_keeps_worker_columns Date_parse_ref (Some "user-1") "pin-1" reschedule_body
           5000 false w).
  vm_compute. reflexivity.
Defined.

(** ** Analytics refresh: which rows it rewrites *)


Lemma elem_of_posted_pins user n db r :
  r ∈ posted_pins user n db → db !! r.1 = Some r.2 ∧ refreshable user r.2.
Proof.
  unfold posted_pins. intros Hin. apply subseteq_take in Hin.
  apply list_elem_of_filter in Hin as [(Hu & Hst & Hid) Hin].
  destruct r as [id p]. apply elem_of_map_to_list in Hin. simpl in *.
  split; [done|]. repeat split; try done. by apply js_is_true.
Qed.

Lemma posted_pins_NoDup user n db : NoDup (posted_pins user n db).*1.
Proof.
  unfold posted_pins.
  eapply sublist_NoDup; [|apply fmap_sublist, sublist_take].
  eapply sublist_NoDup; [|apply fmap_sublist, sublist_filter].
  apply NoDup_fst_map_to_list.
Qed.

Lemma posted_pins_all user n db id p :
  (size db ≤ n)%nat → db !! id = Some p → refreshable user p →
  (id, p) ∈ posted_pins user n db.
Proof.
  intros Hsize Hp (Hu & Hst & Hid). unfold posted_pins.
  rewrite take_ge.
  - apply list_elem_of_filter. simpl. repeat split; try done.
    + by apply js_is_true.
    + by apply elem_of_map_to_list.
  - etrans; [apply length_filter|]. by rewrite length_map_to_list.
Qed.

Section RefreshRows.

Variable ToNumber_other : jsvalue → float.
Variable rt : runtime.
Variable si : sync_input.
Variable limit : string → option Z.

Local Abbreviation refresh := (refresh_pin ToNumber_other rt si limit).
Local Abbreviation refreshed_row := (λ id, refreshed ToNumber_other rt si (limit id) id).

Lemma refresh_pin_lookup id p db :
  db !! id = Some p → refresh (id, p) db !! id = Some (refreshed_row id p).
Proof.
  intros Hp. unfold refresh_pin, refreshed. simpl.
  destruct (skipped _ _); [done|].
  destruct (analytics si id); [done|].
  destruct (metrics_of_answer _ _ _); [|done].
  destruct (sync_updateError si id); [done|].
  by rewrite update_eq_id_lookup, Hp.
Qed.

Lemma refresh_pin_lookup_ne r db j : r.1 ≠ j → refresh r db !! j = db !! j.
Proof.
  intros Hne. unfold refresh_pin.
  destruct (skipped _ _); [done|].
  destruct (analytics si r.1); [done|].
  destruct (metrics_of_answer _ _ _); [|done].
  destruct (sync_updateError si r.1); [done|].
  by apply update_eq_id_lookup_ne.
Qed.


Lemma refresh_all_lookup l db :
  NoDup l.*1 →
  (∀ r, r ∈ l → db !! r.1 = Some r.2) →
  ∀ j,
    (j ∉ l.*1 → foldl (λ db r, refresh r db) db l !! j = db !! j)
    ∧ (∀ p, (j, p) ∈ l →
         foldl (λ db r, refresh r db) db l !! j = Some (refreshed_row j p)).
Proof.
  revert db. induction l as [|[i q] l IH]; intros db Hnd Hrows j; simpl.
  { split; [done|]. intros p Hin. inversion Hin. }
  apply NoDup_cons in Hnd as [Hi Hnd]. simpl in Hi.
  assert (Hrows' : ∀ r, r ∈ l → refresh (i, q) db !! r.1 = Some r.2).
  { intros r Hr. rewrite refresh_pin_lookup_ne; [apply Hrows; by right|].
    simpl. intros ->. apply Hi. apply list_elem_of_fmap. by exists r. }
  destruct (IH _ Hnd Hrows' j) as [IH1 IH2]. split.
  - intros Hj. apply not_elem_of_cons in Hj as [Hne Hj].
    rewrite IH1 by done. by apply refresh_pin_lookup_ne.
  - intros p Hin. apply elem_of_cons in Hin as [[= -> ->] | Hin]; [|by apply IH2].
    rewrite IH1 by done. apply refresh_pin_lookup. apply (Hrows (i, q)). by left.
Qed.

Lemma refreshed_cases id p :
  refreshed_row id p = p
  ∨ ∃ analyticsData m,
      skipped (limit id) p = false
      ∧ analytics si id = Answer analyticsData
      ∧ metrics_of_answer ToNumber_other rt analyticsData = Some m
      ∧ sync_updateError si id = false
      ∧ refreshed_row id p = set_metrics m (write_time si id) p.
Proof.
  unfold refreshed. destruct (skipped _ _); [by left|].
  destruct (analytics si id) as [|a]; [by left|].
  destruct (metrics_of_answer _ _ a) as [m|] eqn:Hm; [|by left].
  destruct (sync_updateError si id) eqn:Hupd; [by left|].
  right. by exists a, m.
Qed.

(** The loop both refresh paths run over the rows their query selected. *)
Lemma refresh_rows_frame user n db j p :
  db !! j = Some p →
  let db' := foldl (λ db r, refresh r db) db (posted_pins user n db) in
  (db' !! j = Some p
   ∨ refreshable user p
     ∧ ∃ analyticsData m,
         skipped (limit j) p = false
         ∧ analytics si j = Answer analyticsData
         ∧ metrics_of_answer ToNumber_other rt analyticsData = Some m
         ∧ sync_updateError si j = false
         ∧ db' !! j = Some (set_metrics m (write_time si j) p))
  ∧ (j ∉ (posted_pins user n db).*1 → db' !! j = Some p)
  ∧ ((size db ≤ n)%nat → refreshable user p → db' !! j = Some (refreshed_row j p)).
Proof.
  intros Hp db'.
  destruct (refresh_all_lookup (posted_pins user n db) db
              (posted_pins_NoDup user n db)
              (λ r Hr, proj1 (elem_of_posted_pins user n db r Hr)) j) as [H1 H2].
  fold db' in H1, H2. repeat split.
  - destruct (decide (j ∈ (posted_pins user n db).*1)) as [Hin|Hnin].
    + apply list_elem_of_fmap in Hin as ([i q] & -> & Hin). simpl in *.
      pose proof (elem_of_posted_pins _ _ _ _ Hin) as [Hq Hsel]. simpl in *.
      assert (q = p) as -> by congruence.
      rewrite (H2 p Hin).
      destruct (refreshed_cases i p) as [-> | (a & m & ? & ? & ? & ? & ->)];
        [by left|]. right. split; [done|]. by exists a, m.
    + left. by rewrite H1.
  - intros Hnin. by rewrite H1.
  - intros Hsize Hsel. apply H2. by apply posted_pins_all.
Qed.

End RefreshRows.

Section RefreshProperties.

Variable ToNumber_other : jsvalue → float.



End RefreshProperties.



(** The pin refreshed at 80000000 is left alone by the manual refresh at
    90000000 and rewritten by one 25 hours after its date; where the store
    refuses the write, it stays as it was. *)
Example stale_pin_is_refreshed :
  let w := world_of {[ "pin-1" := fresh_posted_pin ]} in
  let si refuse := {| sync_now := 80000000 + 25 * 3600000;
                      check_time := λ _, 80000000 + 25 * 3600000;
                      write_time := λ _, 80000000 + 25 * 3600000 + 700;
                      analytics := λ _, Answer sample_answer;
                      sync_fetchError := false; sync_updateError := λ _, refuse |} in
  let manual si := pins (sync_analytics no_ToNumber (Some "user-1") (Some "token-1")
                           JUndefined si w) !! "pin-1" in
  manual sample_sync = Some fresh_posted_pin
  ∧ manual (si false)
    = Some (set_metrics sample_metrics (80000000 + 25 * 3600000 + 700) posted_pin)
  ∧ manual (si true) = Some fresh_posted_pin.
Proof. vm_compute. done. Qed.

(** ** A pin whose account has no token *)

Lemma tokenless_retry_again rt t t' p :
  tokenless_retry rt t' (tokenless_retry rt t p) = tokenless_retry rt t' p.
Proof. done. Qed.

Lemma process_batch_other_publishes tk l w j :
  j ∉ l.*1 → publishes j (process_batch tk l w) = publishes j w.
Proof.
  revert w. induction l as [|r l IH]; intros w Hj; simpl; [done|].
  apply not_elem_of_cons in Hj as [Hne Hj].
  destruct (processScheduledPin _ _ r w) as [w1|] eqn:Hrun; [|done].
  rewrite IH by done.
  by destruct (processScheduledPin_other _ _ _ _ _ j Hrun ltac:(done)) as (_ & _ & _ & ->).
Qed.

Lemma processScheduledPin_host now att r w w' :
  processScheduledPin now att r w = Some w' → host w' = host w.
Proof.
  unfold processScheduledPin, claim_pin. intros Hrun.
  repeat case_match; by simplify_eq.
Qed.

Lemma process_batch_host tk l w : host (process_batch tk l w) = host w.
Proof.
  revert w. induction l as [|r l IH]; intros w; simpl; [done|].
  destruct (processScheduledPin _ _ r w) as [w1|] eqn:Hrun; [|done].
  rewrite IH. by eapply processScheduledPin_host.
Qed.

Lemma processScheduledPins_host tk w : host (processScheduledPins tk w) = host w.
Proof.
  unfold processScheduledPins. destruct (fetchError tk); [done|]. apply process_batch_host.
Qed.

(** An attempt on a pin without a token: the row is as it was (the claim
    was refused), claimed and left [posting] (the write of the failure was
    lost), or set to retry. *)
Lemma processScheduledPin_tokenless now att id p w w' :
  pins w !! id = Some p →
  has_token p = false →
  processScheduledPin now att (id, p) w = Some w' →
  (pins w' !! id = Some p
   ∨ failed_error att = true ∧ pins w' !! id = Some (set_status (JStr "posting") p)
   ∨ pins w' !! id = Some (tokenless_retry (host w) now p))
  ∧ trace w' = trace w ∧ profiles w' = profiles w.
Proof.
  intros Hp Htok. unfold processScheduledPin, claim_pin. cbn -[handlePinError].
  rewrite Htok. cbn [negb].
  destruct (title p); try discriminate.
  destruct (claim_error att); [intros [= <-]; split; [by left | done]|].
  intros [= <-]. cbn -[handlePinError]. split; [|done].
  destruct (failed_error att) eqn:Hfailed.
  - right. left. split; [done|]. rewrite handlePinError_lost.
    by rewrite update_eq_id_lookup, Hp.
  - right. right. rewrite handlePinError_retry by (unfold maxRetries; lia).
    by rewrite update_eq_id_lookup, Hp.
Qed.

Section Tokenless.

Variable rt : runtime.
Variable id : string.

Variable R : pin → Prop.
Hypothesis R_tokenless : ∀ q, R q → has_token q = false.

Local Abbreviation keeps := (keeps rt id R).

Lemma process_batch_tokenless tk l w q :
  keeps tk →
  host w = rt →
  NoDup l.*1 →
  (∀ q', (id, q') ∈ l → q' = q) →
  pins w !! id = Some q →
  R q →
  let w' := process_batch tk l w in
  (∃ q', pins w' !! id = Some q' ∧ R q')
  ∧ publishes id w' = publishes id w ∧ debits id w' = debits id w.
Proof.
  intros Hkeeps. revert w.
  induction l as [|[i q0] l IH]; intros w Hhost Hnd Hrow Hq HR; simpl.
  { split; [by exists q | done]. }
  apply NoDup_cons in Hnd as [Hi Hnd]. simpl in Hi.
  destruct (processScheduledPin _ _ (i, q0) w) as [w1|] eqn:Hrun.
  2:{ split; [by exists q | done]. }
  destruct (decide (i = id)) as [->|Hne].
  - rewrite (Hrow q0) in Hrun by left.
    destruct (processScheduledPin_tokenless _ _ _ _ _ _ Hq (R_tokenless q HR) Hrun)
      as (Hcase & Htr & _).
    destruct (process_batch_other tk l w1 id) as (-> & -> & _).
    { intros [i' q'] Hin Heq. simpl in Heq. subst i'.
      apply Hi. apply list_elem_of_fmap. by exists (id, q'). }
    rewrite process_batch_other_publishes by done.
    unfold publishes, debits. rewrite Htr. split; [|done].
    destruct (Hkeeps q HR) as [Hposting Hretry]. rewrite Hhost in Hcase.
    destruct Hcase as [Hsame | [[Hlost Hclaimed] | Hfailed]]; eauto.
  - destruct (processScheduledPin_other _ _ _ _ _ id Hrun Hne) as (Hp1 & Hd & _ & Hpub).
    rewrite <- Hpub, <- Hd. apply IH; try done.
    + rewrite <- Hhost. by eapply processScheduledPin_host.
    + intros q' Hq'. apply Hrow. by right.
    + by rewrite Hp1.
Qed.

Lemma processScheduledPins_tokenless tk w q :
  keeps tk →
  host w = rt →
  pins w !! id = Some q →
  R q →
  let w' := processScheduledPins tk w in
  (∃ q', pins w' !! id = Some q' ∧ R q')
  ∧ publishes id w' = publishes id w ∧ debits id w' = debits id w.
Proof.
  intros Hkeeps Hhost Hq HR. unfold processScheduledPins.
  destruct (fetchError tk); [split; [by exists q | done]|].
  apply (process_batch_tokenless tk _ w q); try done.
  - apply fetchDue_NoDup.
  - intros q' Hq'. apply elem_of_fetchDue in Hq' as [Hq' _]. simpl in Hq'. congruence.
Qed.

Lemma run_ticks_tokenless (ticks : list tick) (w : world) (q : pin) :
  Forall keeps ticks →
  host w = rt →
  pins w !! id = Some q →
  R q →
  let w' := run_ticks ticks w in
  publishes id w' = publishes id w ∧ debits id w' = debits id w
  ∧ ∃ q', pins w' !! id = Some q' ∧ R q'.
Proof.
  unfold run_ticks. intros Hkeeps. revert w q.
  induction Hkeeps as [|tk ticks Htk Hkeeps IH]; intros w q Hhost Hq HR; simpl.
  - split; [done|]. split; [done|]. by exists q.
  - destruct (processScheduledPins_tokenless tk w q Htk Hhost Hq HR)
      as ((q' & Hq' & HR') & Hpub & Hdeb).
    rewrite <- Hpub, <- Hdeb. apply (IH _ q'); try done.
    by rewrite processScheduledPins_host.
Qed.

End Tokenless.

(** X20. A pin whose account carries no token is never sent to Pinterest
    and never charged, however many runs of the scheduler pick it up.
    Where the store takes the writes of the failures, each run that takes
    the pin leaves it [failed] with retry count 1 and due again five
    minutes later on the local clock (300000 ms later where the zone
    offset is the same at both ends), so it never reaches the final
    failure of the retry policy: after the runs the row is as it was at
    the start, or as such an attempt of one of the runs left it. *)
Theorem tokenless_pin_is_retried_forever (ticks : list tick) (w : world)
    (id : string) (p : pin) :
  pins w !! id = Some p →
  has_token p = false →
  let w' := run_ticks ticks w in
  publishes id w' = publishes id w
  ∧ debits id w' = debits id w
  ∧ (Forall (λ tk, failed_error (outcome tk id) = false) ticks →
     pins w' !! id = Some p
     ∨ ∃ tk, tk ∈ ticks
             ∧ pins w' !! id = Some (tokenless_retry (host w) (error_time tk id) p))
  ∧ ∀ t, let q := tokenless_retry (host w) t p in
      status q = JStr "failed"
      ∧ retry_count q = Some 1
      ∧ error_message q = Some "No Pinterest access token found"
      ∧ next_retry_at q = Some (UTC (host w) (LocalTime (host w) t + 5 * 60000))
      ∧ (steady_offset (host w) t (5 * 60000) → next_retry_at q = Some (t + 5 * 60000)).
Proof.
  intros Hp Htok w'.
  destruct (run_ticks_tokenless (host w) id (λ q, has_token q = false) ltac:(done)
              ticks w p) as (Hpub & Hdeb & _); try done.
  { apply Forall_forall. intros tk _ q Hq. done. }
  split; [done|]. split; [done|]. split.
  - intros Hlands.
    destruct (run_ticks_tokenless (host w) id
                (λ q, q = p ∨ ∃ tk, tk ∈ ticks
                                    ∧ q = tokenless_retry (host w) (error_time tk id) p)
                ltac:(by intros q [-> | (tk & _ & ->)]) ticks w p)
      as (_ & _ & q' & Hq' & Hshape); try done; [| by left |].
    + apply Forall_forall. intros tk Hin q Hq.
      rewrite Forall_forall in Hlands. rewrite (Hlands tk Hin). split; [done|].
      right. exists tk. split; [done|].
      destruct Hq as [-> | (tk0 & _ & ->)]; [done | apply tokenless_retry_again].
    + fold w' in Hq'. destruct Hshape as [-> | (tk & Hin & ->)]; [by left|].
      right. by exists tk.
  - intros t q. subst q. cbn [tokenless_retry status retry_count error_message
      next_retry_at set_retry set_status].
    repeat split. intros Hsteady. f_equal.
    by apply (add_minutes_steady (host w) t 5).
Qed.

Lemma tokenless_pin_is_retried_forever_witness :
  let p := tokenless_pin in
  let w := world_of {[ "pin-1" := p ]} in
  let w' := run_ticks four_runs w in
  publishes "pin-1" w' = publishes "pin-1" w
  ∧ debits "pin-1" w' = debits "pin-1" w
  ∧ (Forall (λ tk, failed_error (outcome tk "pin-1") = false) four_runs →
     pins w' !! "pin-1" = Some p
     ∨ ∃ tk, tk ∈ four_runs
             ∧ pins w' !! "pin-1"
               = Some (tokenless_retry (host w) (error_time tk "pin-1") p))
  ∧ ∀ t, let q := tokenless_retry (host w) t p in
      status q = JStr "failed"
      ∧ retry_count q = Some 1
      ∧ error_message q = Some "No Pinterest access token found"
      ∧ next_retry_at q = Some (UTC (host w) (LocalTime (host w) t + 5 * 60000))
      ∧ (steady_offset (host w) t (5 * 60000) → next_retry_at q = Some (t + 5 * 60000)).
Proof.
  intros p w w'.
  apply (tokenless_pin_is_retried_forever four_runs w "pin-1" p); reflexivity.
Defined.

(** Four runs, each after the delay of the one before: the fourth attempt
    still ends with retry count 1 and a retry five minutes ahead. *)
Example tokenless_pin_after_four_runs :
  let p := tokenless_pin in
  pins (run_ticks four_runs (world_of {[ "pin-1" := p ]})) !! "pin-1"
  = Some (tokenless_retry utc_host 1200000 p)
  ∧ next_retry_at (tokenless_retry utc_host 1200000 p) = Some 1500000.
Proof. vm_compute. done. Qed.

(** ** The automatic analytics run: one refresh per user *)

Lemma usersWithPins_acc (acc : list (string * option string)) (rows : list (string * pin)) :
  NoDup acc.*1 →
  let step := λ (usersMap : list (string * option string)) (r : string * pin),
                if bool_decide (user_id r.2 ∈ usersMap.*1) then usersMap
                else usersMap ++ [(user_id r.2, access_token r.2)] in
  let res := foldl step acc rows in
  NoDup res.*1
  ∧ (∀ x, x ∈ acc → x ∈ res)
  ∧ (∀ r, r ∈ rows → user_id r.2 ∈ res.*1)
  ∧ (∀ u tok, (u, tok) ∈ res →
       (u, tok) ∈ acc
       ∨ (u ∉ acc.*1)
         ∧ ∃ before r after,
             rows = before ++ r :: after
             ∧ user_id r.2 = u ∧ access_token r.2 = tok
             ∧ ∀ r', r' ∈ before → user_id r'.2 ≠ u).
Proof.
  intros Hnd step res. subst res. revert acc Hnd.
  induction rows as [|r rows IH]; intros acc Hnd; simpl.
  { repeat split; try done. - intros r Hr. inversion Hr. - intros u tok Hin. by left. }
  assert (Hstep : NoDup (step acc r).*1).
  { unfold step. case_bool_decide; [done|].
    rewrite fmap_app. apply NoDup_app. repeat split; try done.
    - intros x Hx Hx'. simpl in Hx'. apply list_elem_of_singleton in Hx'. by subst.
    - simpl. apply NoDup_singleton. }
  destruct (IH _ Hstep) as (Hnd' & Hkeep & Hall & Hfrom).
  assert (Hacc : ∀ x, x ∈ acc → x ∈ step acc r).
  { intros x Hx. unfold step. case_bool_decide; [done|]. apply elem_of_app. by left. }
  repeat split; try done.
  - intros x Hx. by apply Hkeep, Hacc.
  - intros r' Hr'. apply elem_of_cons in Hr' as [-> | Hr']; [|by apply Hall].
    assert (Hin : user_id r.2 ∈ (step acc r).*1).
    { unfold step. case_bool_decide; [done|].
      rewrite fmap_app. apply elem_of_app. right. simpl. by left. }
    apply list_elem_of_fmap in Hin as (x & Hx1 & Hx). rewrite Hx1.
    apply list_elem_of_fmap. exists x. split; [done|]. by apply Hkeep.
  - intros u tok Hin. destruct (Hfrom u tok Hin) as [Hhere | (Hnew & Hrest)].
    + unfold step in Hhere. case_bool_decide as Hseen; [by left|].
      apply elem_of_app in Hhere as [Hhere | Hhere]; [by left|].
      apply list_elem_of_singleton in Hhere. injection Hhere as -> ->.
      right. split; [done|]. exists [], r, rows. repeat split; try done.
      intros r' Hr'. inversion Hr'.
    + destruct Hrest as (before & r0 & after & -> & Hu & Htok & Hfirst).
      assert (Hu_acc : u ∉ acc.*1).
      { intros Hu'. apply Hnew. apply list_elem_of_fmap in Hu' as (x & -> & Hx).
        apply list_elem_of_fmap. exists x. split; [done|]. by apply Hacc. }
      right. split; [done|].
      exists (r :: before), r0, after. repeat split; try done.
      intros r' Hr'. apply elem_of_cons in Hr' as [-> | Hr']; [|by apply Hfirst].
      intros Hr. apply Hnew. unfold step. rewrite Hr.
      case_bool_decide; [done|]. rewrite fmap_app. apply elem_of_app. right.
      simpl. by left.
Qed.

Lemma usersWithPins_spec (rows : list (string * pin)) :
  NoDup (usersWithPins rows).*1
  ∧ (∀ r, r ∈ rows → user_id r.2 ∈ (usersWithPins rows).*1)
  ∧ (∀ u tok, (u, tok) ∈ usersWithPins rows →
       ∃ before r after,
         rows = before ++ r :: after
         ∧ user_id r.2 = u ∧ access_token r.2 = tok
         ∧ ∀ r', r' ∈ before → user_id r'.2 ≠ u).
Proof.
  destruct (usersWithPins_acc [] rows (NoDup_nil_2)) as (Hnd & _ & Hall & Hfrom).
  repeat split; try done.
  intros u tok Hin. destruct (Hfrom u tok Hin) as [Hnil | [_ Hrow]]; [inversion Hnil | done].
Qed.

Section AnalyticsRun.

Variable ToNumber_other : jsvalue → float.

Lemma syncUserAnalytics_row user accessToken si w j p :
  pins w !! j = Some p →
  let w' := syncUserAnalytics ToNumber_other user accessToken si w in
  (pins w' !! j = Some p
   ∨ refreshable user p
     ∧ ∃ t analyticsData m,
         accessToken = Some t ∧ t ≠ ""
         ∧ sync_fetchError si = false
         ∧ skipped (automatic_limit (host w) si j) p = false
         ∧ analytics si j = Answer analyticsData
         ∧ metrics_of_answer ToNumber_other (host w) analyticsData = Some m
         ∧ sync_updateError si j = false
         ∧ pins w' !! j = Some (set_metrics m (write_time si j) p))
  ∧ profiles w' = profiles w ∧ trace w' = trace w ∧ host w' = host w.
Proof.
  intros Hp w'. subst w'. unfold syncUserAnalytics.
  destruct accessToken as [t|]; [|split; [by left | done]].
  destruct (String.eqb_spec t "") as [->|Hne]; [split; [by left | done]|].
  destruct (sync_fetchError si) eqn:Hfetch; [split; [by left | done]|].
  simpl. split; [|done].
  destruct (refresh_rows_frame ToNumber_other (host w) si (automatic_limit (host w) si)
              user 20 (pins w) j p Hp)
    as ([Hsame | (Hsel & a & m & ? & ? & ? & ? & ?)] & _ & _); [by left|].
  right. split; [done|]. by exists t, a, m.
Qed.

Lemma sync_users_row (si : string → sync_input) (l : list (string * option string))
    (w : world) (j : string) (p : pin) :
  NoDup l.*1 →
  pins w !! j = Some p →
  let w' := foldl (λ w userPin,
                     syncUserAnalytics ToNumber_other userPin.1 userPin.2 (si userPin.1) w)
              w l in
  (user_id p ∉ l.*1 → pins w' !! j = Some p)
  ∧ (pins w' !! j = Some p
     ∨ refreshable (user_id p) p
       ∧ ∃ t analyticsData m,
           (user_id p, Some t) ∈ l ∧ t ≠ ""
           ∧ sync_fetchError (si (user_id p)) = false
           ∧ skipped (automatic_limit (host w) (si (user_id p)) j) p = false
           ∧ analytics (si (user_id p)) j = Answer analyticsData
           ∧ metrics_of_answer ToNumber_other (host w) analyticsData = Some m
           ∧ sync_updateError (si (user_id p)) j = false
           ∧ pins w' !! j = Some (set_metrics m (write_time (si (user_id p)) j) p))
  ∧ profiles w' = profiles w ∧ trace w' = trace w.
Proof.
  revert w p. induction l as [|[u tok] l IH]; intros w p Hnd Hp; simpl.
  { repeat split; try done. by left. }
  apply NoDup_cons in Hnd as [Hu Hnd]. simpl in Hu.
  destruct (syncUserAnalytics_row u tok (si u) w j p Hp) as (Hcase & Hpr & Htr & Hhost).
  destruct Hcase
    as [Hsame | (Hsel & t & a & m & -> & Ht & Hfetch & Hskip & Hans & Hm & Hupd & Hnew)].
  - destruct (IH _ p Hnd Hsame) as (Hout & Hin & Hpr' & Htr').
    repeat split; try congruence.
    + intros Hnot. apply Hout. intros Hl. apply Hnot. by right.
    + destruct Hin as [? | (? & t & a & m & ? & ? & ? & ? & ? & ? & ? & ?)]; [by left|].
      right. split; [done|]. exists t, a, m. rewrite <- Hhost.
      repeat split; try done. by right.
  - destruct Hsel as (Hown & Hst & Hid).
    destruct (IH _ (set_metrics m (write_time (si u) j) p) Hnd Hnew)
      as (Hout & _ & Hpr' & Htr').
    simpl in Hout. rewrite Hown in Hout. specialize (Hout Hu).
    repeat split; try congruence.
    + intros Hnot. exfalso. apply Hnot. rewrite Hown. by left.
    + right. split; [done|]. exists t, a, m. rewrite Hown. repeat split; try done. by left.
Qed.

(** X21. One automatic analytics run refreshes each user at most once,
    with the token joined to the first of their posted rows; the users it
    visits are exactly the owners of posted pins with a Pinterest id. A row
    is rewritten at most once in the run, and only when it is such a pin,
    its owner entered the run with a non-empty token, the store answered
    the owner's query, the pin's metrics are not dated after the limit
    that [setHours] puts 12 hours before the start of the owner's refresh,
    the API answered and the store took the write; it then differs from
    before in its metrics and their date, the clock reading of the write,
    alone. Balances and outside calls are untouched. *)
Theorem analytics_run_refreshes_each_user_once (fetchError : bool)
    (si : string → sync_input) (w : world) (j : string) (p : pin) :
  pins w !! j = Some p →
  let users := usersWithPins (all_posted_pins (pins w)) in
  let w' := processAnalyticsSync ToNumber_other fetchError si w in
  NoDup users.*1
  ∧ (∀ u, u ∈ users.*1 ↔ ∃ i q, pins w !! i = Some q ∧ refreshable u q)
  ∧ (∀ u tok, (u, tok) ∈ users →
       ∃ before r after,
         all_posted_pins (pins w) = before ++ r :: after
         ∧ user_id r.2 = u ∧ access_token r.2 = tok
         ∧ ∀ r', r' ∈ before → user_id r'.2 ≠ u)
  ∧ (pins w' !! j = Some p
     ∨ refreshable (user_id p) p
       ∧ ∃ t analyticsData m,
           (user_id p, Some t) ∈ users ∧ t ≠ ""
           ∧ sync_fetchError (si (user_id p)) = false
           ∧ skipped (automatic_limit (host w) (si (user_id p)) j) p = false
           ∧ analytics (si (user_id p)) j = Answer analyticsData
           ∧ metrics_of_answer ToNumber_other (host w) analyticsData = Some m
           ∧ sync_updateError (si (user_id p)) j = false
           ∧ pins w' !! j = Some (set_metrics m (write_time (si (user_id p)) j) p))
  ∧ profiles w' = profiles w ∧ trace w' = trace w.
Proof.
  intros Hp users w'.
  destruct (usersWithPins_spec (all_posted_pins (pins w))) as (Hnd & Hall & Hfrom).
  fold users in Hnd, Hall, Hfrom.
  assert (Hrows : ∀ i q, (i, q) ∈ all_posted_pins (pins w)
                         ↔ pins w !! i = Some q ∧ refreshable (user_id q) q).
  { intros i q. unfold all_posted_pins, refreshable.
    rewrite list_elem_of_filter, elem_of_map_to_list. simpl. rewrite js_is_true. tauto. }
  split; [done|]. split.
  { intros u. split.
    - intros Hu. apply list_elem_of_fmap in Hu as ([u' tok] & -> & Hin).
      destruct (Hfrom _ _ Hin) as (before & [i q] & after & Heq & Hown & _ & _).
      simpl in *. exists i, q.
      assert (Hq : (i, q) ∈ all_posted_pins (pins w)).
      { rewrite Heq. apply elem_of_app. right. by left. }
      apply Hrows in Hq as [Hq Hsel]. by rewrite Hown in Hsel.
    - intros (i & q & Hq & Hsel). pose proof Hsel as (Hown & _).
      rewrite <- Hown. apply (Hall (i, q)). apply Hrows. by rewrite Hown. }
  split; [done|].
  subst w'. unfold processAnalyticsSync. destruct fetchError.
  { split; [by left | done]. }
  by destruct (sync_users_row si users w j p Hnd Hp) as (_ & Hcase & Hpr & Htr).
Qed.

End AnalyticsRun.

Lemma analytics_run_refreshes_each_user_once_witness :
  let w := world_of {[ "pin-1" := posted_pin; "pin-2" := fresh_posted_pin;
                       "pin-3" := sample_pin ]} in
  let users := usersWithPins (all_posted_pins (pins w)) in
  let w' := processAnalyticsSync no_ToNumber false (λ _, sample_sync) w in
  NoDup users.*1
  ∧ (∀ u, u ∈ users.*1 ↔ ∃ i q, pins w !! i = Some q ∧ refreshable u q)
  ∧ (∀ u tok, (u, tok) ∈ users →
       ∃ before r after,
         all_posted_pins (pins w) = before ++ r :: after
         ∧ user_id r.2 = u ∧ access_token r.2 = tok
         ∧ ∀ r', r' ∈ before → user_id r'.2 ≠ u)
  ∧ (pins w' !! "pin-1" = Some posted_pin
     ∨ refreshable (user_id posted_pin) posted_pin
       ∧ ∃ t analyticsData m,
           (user_id posted_pin, Some t) ∈ users ∧ t ≠ ""
           ∧ sync_fetchError sample_sync = false
           ∧ skipped (automatic_limit (host w) sample_sync "pin-1") posted_pin = false
           ∧ analytics sample_sync "pin-1" = Answer analyticsData
           ∧ metrics_of_answer no_ToNumber (host w) analyticsData = Some m
           ∧ sync_updateError sample_sync "pin-1" = false
           ∧ pins w' !! "pin-1"
             = Some (set_metrics m (write_time sample_sync "pin-1") posted_pin))
  ∧ profiles w' = profiles w ∧ trace w' = trace w.
Proof.
  intros w users w'.
  apply (analytics_run_refreshes_each_user_once no_ToNumber false (λ _, sample_sync) w
           "pin-1" posted_pin).
  reflexivity.
Defined.

(** Two posted pins of one user, one stale and one fresh, and a pin still
    scheduled: the run visits the user once and rewrites the stale pin only. *)
Example analytics_run_on_three_pins :
  let w := world_of {[ "pin-1" := posted_pin; "pin-2" := fresh_posted_pin;
                       "pin-3" := sample_pin ]} in
  let w' := processAnalyticsSync no_ToNumber false (λ _, sample_sync) w in
  usersWithPins (all_posted_pins (pins w)) = [("user-1", Some "token-1")]
  ∧ pins w' !! "pin-1" = Some (set_metrics sample_metrics 90000500 posted_pin)
  ∧ pins w' !! "pin-2" = Some fresh_posted_pin
  ∧ pins w' !! "pin-3" = Some sample_pin.
Proof. vm_compute. done. Qed.

(** ** Billing: what the webhook does to a profile *)

Section BillingProperties.

Variable parseInt : string → option Z.
Variable parseInt10 : string → option Z.

(** X23. Whatever event is delivered and whatever the store does, the
    webhook creates no profile and removes none, and changes at most one
    row; it changes nothing at all when Stripe is not configured, when the
    signature check fails, when the session has no metadata, and for every
    event type other than the three it handles. *)
Theorem webhook_changes_at_most_one_profile (configured : bool)
    (event : option stripe_event) (f : faults) (tbl : gmap string profile) :
  let result := stripe_webhook parseInt parseInt10 configured event f tbl in
  dom result.1 = dom tbl
  ∧ (∃ id, ∀ j, j ≠ id → result.1 !! j = tbl !! j)
  ∧ (result.2 ≠ Received → result.1 = tbl)
  ∧ (event = Some OtherEvent → result.1 = tbl).
Proof.
  assert (Hsame : ∀ answer : webhook_answer, dom (tbl, answer).1 = dom tbl
            ∧ (∃ id : string, ∀ j, j ≠ id → (tbl, answer).1 !! j = tbl !! j)).
  { intros answer. split; [done|]. by exists "". }
  assert (Halter : ∀ (g : profile → profile) id,
            dom (alter g id tbl) = dom tbl
            ∧ ∀ j, j ≠ id → alter g id tbl !! j = tbl !! j).
  { intros g id. split; [apply dom_alter_L|]. intros j Hj. by apply lookup_alter_ne. }
  unfold stripe_webhook. destruct configured; simpl.
  2:{ destruct (Hsame NotConfigured) as [? ?]. repeat split; done. }
  destruct event as [[session | retrieved | customerId |]|]; simpl.
  - destruct (metadata session) as [m|]; simpl.
    2:{ destruct (Hsame (Rejected "TypeError")) as [? ?]. repeat split; done. }
    split; [|split; [|split; [done | discriminate]]].
    + unfold apply_topup, handleCheckoutSessionCompleted, update_profile.
      destruct (m_userId m) as [u|]; repeat case_match; rewrite ?dom_alter_L; done.
    + exists (default "" (m_userId m)). intros j Hj.
      unfold apply_topup, handleCheckoutSessionCompleted, update_profile.
      destruct (m_userId m) as [u|]; simpl in Hj;
        repeat case_match; rewrite ?lookup_alter_ne; done.
  - split; [|split; [|split; [done | discriminate]]].
    + unfold handleInvoicePaymentSucceeded.
      repeat case_match; rewrite ?dom_alter_L; done.
    + unfold handleInvoicePaymentSucceeded.
      destruct retrieved as [c|]; [|by exists ""].
      destruct (if first_call_fails f then None else single_by_customer c tbl)
        as [[id q]|]; [|by exists ""].
      exists id. intros j Hj. repeat case_match; rewrite ?lookup_alter_ne; done.
  - split; [|split; [|split; [done | discriminate]]].
    + unfold handleSubscriptionDeleted.
      repeat case_match; rewrite ?dom_alter_L; done.
    + unfold handleSubscriptionDeleted.
      destruct (if first_call_fails f then None else single_by_customer customerId tbl)
        as [[id q]|]; [|by exists ""].
      exists id. intros j Hj. repeat case_match; rewrite ?lookup_alter_ne; done.
  - destruct (Hsame Received) as [? ?]. repeat split; done.
  - destruct (Hsame SignatureError) as [? ?]. repeat split; done.
Qed.

(** X22. The route never sees the bytes Stripe signed. [express.json()]
    is registered for every route ahead of the route's own
    [express.raw()], which leaves alone a body already read and reads no
    body that is not JSON: when the handler runs, [req.body] is a value,
    not the raw text. With a signature check that, like the library's,
    accepts nothing but the raw text, every delivery is answered by the
    parser, by the missing-configuration error or by the signature error,
    and no profile changes: no checkout, invoice or subscription event
    that Stripe delivers reaches the handlers. *)
Theorem webhook_delivery_is_never_verified (JSON_parse : string → option jsvalue)
    (unread : jsvalue) (constructEvent : request_body → option stripe_event)
    (configured : bool) (d : delivery) (f : faults) (tbl : gmap string profile) :
  (∀ v, constructEvent (ParsedBody v) = None) →
  let result := stripe_webhook_route parseInt parseInt10 JSON_parse unread constructEvent
                  configured d f tbl in
  (∀ st, express_json JSON_parse unread d = Some st →
         ∃ v, body_of (express_raw d st) = ParsedBody v)
  ∧ result.1 = tbl
  ∧ (result.2 = ParserError
     ∨ result.2 = Handled NotConfigured
     ∨ result.2 = Handled SignatureError).
Proof.
  intros Hcheck result.
  assert (Hbody : ∀ st, express_json JSON_parse unread d = Some st →
                        ∃ v, body_of (express_raw d st) = ParsedBody v).
  { intros st. unfold express_json, express_raw.
    destruct (is_json d) eqn:Hjson.
    - destruct (over_limit d); [done|].
      destruct (String.eqb (payload d) ""); [intros [= <-]; by eexists|].
      destruct (JSON_parse (payload d)) as [[]|]; try done;
        intros [= <-]; by eexists.
    - intros [= <-]. simpl. by eexists. }
  split; [done|].
  subst result. unfold stripe_webhook_route.
  destruct (express_json JSON_parse unread d) as [st|] eqn:Hst; [|split; [done | by left]].
  destruct (Hbody st eq_refl) as [v ->]. rewrite Hcheck.
  unfold stripe_webhook. destruct configured; simpl; auto.
Qed.

End BillingProperties.

Lemma webhook_delivery_is_never_verified_witness :
  let result := stripe_webhook_route parseInt_ref parseInt10_ref JSON_parse_ref (JObj [])
                  constructEvent_ref true invoice_delivery no_faults two_profiles in
  (∀ st, express_json JSON_parse_ref (JObj []) invoice_delivery = Some st →
         ∃ v, body_of (express_raw invoice_delivery st) = ParsedBody v)
  ∧ result.1 = two_profiles
  ∧ (result.2 = ParserError
     ∨ result.2 = Handled NotConfigured
     ∨ result.2 = Handled SignatureError).
Proof.
  apply (webhook_delivery_is_never_verified parseInt_ref parseInt10_ref JSON_parse_ref
           (JObj []) constructEvent_ref true invoice_delivery no_faults two_profiles).
  reflexivity.
Defined.

(** The invoice of the subscriber's renewal, as Stripe delivers it, ends
    in the signature error and leaves the 37 credits as they are; had the
    route's parser read the bytes, the same check would have let the event
    through and the balance would be 500. *)
Example renewal_is_not_applied :
  let result := stripe_webhook_route parseInt_ref parseInt10_ref JSON_parse_ref (JObj [])
                  constructEvent_ref true invoice_delivery no_faults two_profiles in
  let unparsed := stripe_webhook parseInt_ref parseInt10_ref true
                    (constructEvent_ref (RawBody (payload invoice_delivery)))
                    no_faults two_profiles in
  result = (two_profiles, Handled SignatureError)
  ∧ (credits_remaining <$> result.1 !! "user-1") = Some (Some 37)
  ∧ (credits_remaining <$> unparsed.1 !! "user-1") = Some (Some 500).
Proof. vm_compute. done. Qed.

(** ** Scheduling with and without an account *)

Section AccountProperties.

Variable JSON_parse : string → option jsvalue.
Variable Date_parse : jsvalue → option Z.
Variable ToNumber_other : jsvalue → float.
Variable ToString_other : jsvalue → string.

Lemma schedule_pin_accepted (user : option string) (b : schedule_body)
    (now oneYearFromNow : Z) (accessToken joined_token : option string)
    (new_id : string) (insertError : bool) (w w' : world) (answer : body) :
  schedule_pin JSON_parse Date_parse ToNumber_other user b now oneYearFromNow accessToken
    joined_token new_id insertError w = (w', Respond 200 answer) →
  ∃ u t d,
    user = Some u ∧ accessToken = Some t ∧ t ≠ ""
    ∧ pins w !! new_id = None
    ∧ w' = set_pins (<[new_id := new_pin u b d joined_token]> (pins w)) w.
Proof.
  unfold schedule_pin. intros Hrun.
  destruct user as [u|]; [|discriminate].
  destruct (_ || _); [discriminate|].
  destruct (date_le _ _); [discriminate|].
  destruct (date_gt _ _); [discriminate|].
  destruct accessToken as [t|]; [|discriminate].
  destruct (String.eqb_spec t "") as [|Ht]; [discriminate|]. cbn [negb] in Hrun.
  destruct (validate_recurrence _ _ _ _); try discriminate.
  destruct (Date_parse (s_scheduled_for b)) as [d|]; [|discriminate].
  destruct (insertError || _) eqn:Hins; [discriminate|].
  apply orb_false_iff in Hins as [_ Hfree]. apply bool_decide_eq_false in Hfree.
  injection Hrun as <- _. exists u, t, d. repeat split; try done.
  destruct (pins w !! new_id) eqn:E; [|done]. exfalso. apply Hfree. by eexists.
Qed.

Lemma token_or_null_Some (v : option string) (t : string) :
  token_or_null v = Some t → v = Some t ∧ t ≠ "".
Proof.
  unfold token_or_null. destruct v as [s|]; [|discriminate].
  destruct (String.eqb_spec s ""); [discriminate|]. by intros [= ->].
Qed.

(** X27. A schedule request without an account id is accepted on the
    strength of the token kept in the caller's profile, but the pin it
    stores references no account, and the worker reads the token from the
    account alone: however many runs of the scheduler follow, the pin is
    never sent to Pinterest, never charged and never posted. *)
Theorem pin_without_account_is_never_published (ts : token_tables) (u : string)
    (account_id : jsvalue) (b : schedule_body) (now oneYearFromNow : Z)
    (new_id : string) (insertError : bool) (w w' : world) (answer : body) :
  truthy account_id = false →
  schedule_pin JSON_parse Date_parse ToNumber_other (Some u) b now oneYearFromNow
    (getPinterestAccessTokenForUser ToString_other ts u account_id)
    (joined_account_token ToString_other ts account_id) new_id insertError w
  = (w', Respond 200 answer) →
  (∃ t, pinterest_access_token ts !! u = Some (Some t) ∧ t ≠ "")
  ∧ ∀ ticks : list tick,
      publishes new_id (run_ticks ticks w') = publishes new_id w'
      ∧ debits new_id (run_ticks ticks w') = debits new_id w'
      ∧ ∃ p', pins (run_ticks ticks w') !! new_id = Some p'
              ∧ has_token p' = false ∧ status p' ≠ JStr "posted".
Proof.
  intros Hfalsy Hrun.
  apply schedule_pin_accepted in Hrun as (u' & t & d & [= <-] & Htoken & Ht & Hfree & ->).
  unfold getPinterestAccessTokenForUser in Htoken. rewrite Hfalsy in Htoken.
  cbn [negb] in Htoken. apply token_or_null_Some in Htoken as [Htoken _].
  unfold joined_account_token. rewrite Hfalsy. split.
  { exists t. destruct (pinterest_access_token ts !! u) as [v|]; simpl in Htoken;
      by subst. }
  intros ticks.
  set (p := new_pin u b d None).
  destruct (run_ticks_tokenless (host w) new_id
              (λ q, has_token q = false ∧ status q ≠ JStr "posted")
              ltac:(by intros q [? _]) ticks (set_pins (<[new_id := p]> (pins w)) w) p)
    as (Hpub & Hdeb & p' & Hp' & Htok' & Hst'); try done.
  { apply Forall_forall. intros tk _ q [Hq1 Hq2]. split; [intros _|]; split; done. }
  { simpl. by rewrite lookup_insert_eq. }
  repeat split; try done. by exists p'.
Qed.

(** X28. A schedule request with an account id is accepted only when that
    account belongs to the caller and holds a non-empty token, and the pin
    it stores is joined to that very token: the worker publishes it with a
    token of its owner, never with another user's. *)
Theorem pin_with_account_uses_own_token (ts : token_tables) (u : string)
    (account_id : jsvalue) (b : schedule_body) (now oneYearFromNow : Z)
    (new_id : string) (insertError : bool) (w w' : world) (answer : body) :
  truthy account_id = true →
  schedule_pin JSON_parse Date_parse ToNumber_other (Some u) b now oneYearFromNow
    (getPinterestAccessTokenForUser ToString_other ts u account_id)
    (joined_account_token ToString_other ts account_id) new_id insertError w
  = (w', Respond 200 answer) →
  ∃ account t p,
    pinterest_accounts ts !! filter_text ToString_other account_id = Some account
    ∧ account_user_id account = u
    ∧ account_access_token account = Some t ∧ t ≠ ""
    ∧ pins w' !! new_id = Some p
    ∧ user_id p = u ∧ access_token p = Some t ∧ has_token p = true.
Proof.
  intros Htruthy Hrun.
  apply schedule_pin_accepted in Hrun as (u' & t & d & [= <-] & Htoken & Ht & Hfree & ->).
  unfold getPinterestAccessTokenForUser in Htoken. rewrite Htruthy in Htoken.
  cbn [negb] in Htoken.
  unfold joined_account_token. rewrite Htruthy.
  destruct (pinterest_accounts ts !! filter_text ToString_other account_id)
    as [account|] eqn:Hacc; [|discriminate].
  case_bool_decide as Hown; [|discriminate].
  apply token_or_null_Some in Htoken as [Htoken _].
  exists account, t, (new_pin u b d (Some t)). simpl. rewrite Htoken.
  rewrite lookup_insert_eq. repeat split; try done.
  unfold has_token. simpl. by apply negb_true_iff, String.eqb_neq.
Qed.

End AccountProperties.

Lemma pin_without_account_is_never_published_witness :
  let b := recurring_body (JStr daily_pattern_text) in
  let p := new_pin "user-1" b 7200000 None in
  let w' := set_pins (<[ "pin-9" := p ]> (pins (world_of ∅))) (world_of ∅) in
  (∃ t, pinterest_access_token sample_tokens !! "user-1" = Some (Some t) ∧ t ≠ "")
  ∧ ∀ ticks : list tick,
      publishes "pin-9" (run_ticks ticks w') = publishes "pin-9" w'
      ∧ debits "pin-9" (run_ticks ticks w') = debits "pin-9" w'
      ∧ ∃ p', pins (run_ticks ticks w') !! "pin-9" = Some p'
              ∧ has_token p' = false ∧ status p' ≠ JStr "posted".
Proof.
  intros b p w'.
  apply (pin_without_account_is_never_published JSON_parse_ref Date_parse_ref no_ToNumber
           no_ToString sample_tokens "user-1" JUndefined b 3600000 31539600000 "pin-9"
           false (world_of ∅) w' (PinBody ("pin-9", p) "Pin scheduled for ")).
  - reflexivity.
  - vm_compute. reflexivity.
Defined.

Lemma pin_with_account_uses_own_token_witness :
  let b := recurring_body (JStr daily_pattern_text) in
  let p := new_pin "user-1" b 7200000 (Some "token-1") in
  let w' := set_pins (<[ "pin-9" := p ]> (pins (world_of ∅))) (world_of ∅) in
  ∃ account t p,
    pinterest_accounts sample_tokens !! filter_text no_ToString (JStr "acc-1") = Some account
    ∧ account_user_id account = "user-1"
    ∧ account_access_token account = Some t ∧ t ≠ ""
    ∧ pins w' !! "pin-9" = Some p
    ∧ user_id p = "user-1" ∧ access_token p = Some t ∧ has_token p = true.
Proof.
  intros b p w'.
  apply (pin_with_account_uses_own_token JSON_parse_ref Date_parse_ref no_ToNumber
           no_ToString sample_tokens "user-1" (JStr "acc-1") b 3600000 31539600000 "pin-9"
           false (world_of ∅) w' (PinBody ("pin-9", p) "Pin scheduled for ")).
  - reflexivity.
  - vm_compute. reflexivity.
Defined.

(** Another user asking with the account of [user-1] gets no token, and no
    fallback to a token of their own profile. *)
Example foreign_account_gives_no_token :
  getPinterestAccessTokenForUser no_ToString
    {| pinterest_accounts := pinterest_accounts sample_tokens;
       pinterest_access_token := {[ "user-2" := Some "legacy-2" ]} |}
    "user-2" (JStr "acc-1") = None.
Proof. vm_compute. reflexivity. Qed.

(** ** Custom templates: who owns a row *)

Section TemplateProperties.

Variable id_text : jsvalue → string.

(** X29. Saving a template writes the row with the id of the payload and
    makes the caller its owner, whoever owned a row with that id before:
    the upsert resolves the conflict on the id alone, so a row of another
    user is overwritten and changes hands, and that user's later delete of
    it removes nothing. Deleting, in contrast, removes a row only when the
    caller owns it; it answers [ok] either way and leaves every row of
    another user as it was. No other row is touched by either. *)
Theorem template_upsert_takes_ownership (u v : string) (tpl : jsvalue) (now : Z)
    (tbl : gmap string template_row) :
  truthy tpl = true →
  truthy (prop "id" tpl) = true →
  truthy (prop "elements" tpl) = true →
  let id := id_text (prop "id" tpl) in
  let saved := post_custom_template id_text (Some u) tpl now None tbl in
  saved.2 = TemplatesOk
  ∧ (∃ row, saved.1 !! id = Some row ∧ template_user_id row = u
            ∧ template_json row = tpl ∧ updated_at row = now)
  ∧ (∀ j, j ≠ id → saved.1 !! j = tbl !! j)
  ∧ (v ≠ u → delete_custom_template (Some v) id None saved.1 = (saved.1, TemplatesOk))
  ∧ (∀ j deleteError,
       let deleted := delete_custom_template (Some v) j deleteError tbl in
       (∀ i row, tbl !! i = Some row → template_user_id row ≠ v ∨ i ≠ j →
                 deleted.1 !! i = Some row)
       ∧ (∀ row, tbl !! j = Some row → template_user_id row = v →
                 deleteError = None → deleted.1 !! j = None)
       ∧ (∀ i, tbl !! i = None → deleted.1 !! i = None)).
Proof.
  intros Htpl Hid Hel id saved. subst saved id.
  unfold post_custom_template. rewrite Htpl, Hid, Hel. cbn [negb orb fst snd].
  split; [done|]. split.
  { eexists. rewrite lookup_insert_eq. split; [reflexivity|]. done. }
  split.
  { intros j Hj. by rewrite lookup_insert_ne. }
  split.
  { intros Hne. unfold delete_custom_template. rewrite lookup_insert_eq. simpl.
    by rewrite bool_decide_eq_false_2. }
  intros j deleteError. unfold delete_custom_template.
  destruct deleteError as [message|]; simpl.
  { repeat split; try done. }
  destruct (tbl !! j) as [r|] eqn:Hj.
  2:{ repeat split; try done. }
  case_bool_decide as Hown.
  - repeat split.
    + intros i row Hi [Hother | Hne].
      * destruct (decide (i = j)) as [->|Hij]; [congruence|]. by rewrite lookup_delete_ne.
      * by rewrite lookup_delete_ne.
    + intros. apply lookup_delete_eq.
    + intros i Hi. destruct (decide (i = j)) as [->|Hij];
        [apply lookup_delete_eq | by rewrite lookup_delete_ne].
  - repeat split; try done. intros row [= ->] Hv. done.
Qed.

End TemplateProperties.

(** ** Timers: one live interval per job *)

Lemma NoDup_all_equal {A} (l : list A) (a : A) :
  NoDup l → (∀ x, x ∈ l → x = a) → a ∈ l → l = [a].
Proof.
  intros Hnd Hall Hin. destruct l as [|x [|y l]].
  - inversion Hin.
  - f_equal. apply Hall. left.
  - exfalso. apply NoDup_cons in Hnd as [Hx _]. apply Hx.
    rewrite (Hall x) by left. rewrite <- (Hall y) by (right; left). left.
Qed.

Lemma elem_of_clear_if_set (handle : option nat) (live : list (nat * (job * Z)))
    (i : nat * (job * Z)) :
  i ∈ clear_if_set handle live ↔ i ∈ live ∧ handle ≠ Some i.1.
Proof.
  unfold clear_if_set, clearInterval. destruct handle as [h|].
  - rewrite list_elem_of_filter. split.
    + intros [Hne Hin]. split; [done|]. congruence.
    + intros [Hin Hne]. split; [|done]. congruence.
  - split; [intros; split; done | by intros [? _]].
Qed.

Lemma clear_if_set_NoDup (handle : option nat) (live : list (nat * (job * Z))) :
  NoDup live.*1 → NoDup (clear_if_set handle live).*1.
Proof.
  intros Hnd. unfold clear_if_set, clearInterval. destruct handle; [|done].
  eapply sublist_NoDup; [done|]. apply fmap_sublist, sublist_filter.
Qed.

Lemma timers_ok_handles_differ (t : timers) (h h' : nat) :
  timers_ok t → schedulerInterval t = Some h → analyticsInterval t = Some h' → h ≠ h'.
Proof.
  intros Hok Hs Ha ->.
  pose proof (ok_scheduler t Hok _ Hs) as H1.
  pose proof (ok_analytics t Hok _ Ha) as H2.
  pose proof (ok_nodup t Hok) as Hnd.
  apply list_elem_of_lookup in H1 as [n1 H1]. apply list_elem_of_lookup in H2 as [n2 H2].
  assert (n1 = n2).
  { eapply NoDup_lookup; [done | |]; rewrite list_lookup_fmap.
    - by rewrite H1.
    - by rewrite H2. }
  subst. rewrite H1 in H2. discriminate.
Qed.

Lemma timers_ok_start (t : timers) (c : timer_call) :
  timers_ok t → timers_ok (call t c).
Proof.
  intros Hok. destruct c; simpl.
  - (* startScheduler *)
    split; simpl.
    + intros h j ms Hin. apply elem_of_app in Hin as [Hin | Hin].
      * apply elem_of_clear_if_set in Hin as [Hin Hne]. simpl in Hne.
        destruct (ok_kind t Hok _ _ _ Hin) as [(_ & Hs & _) | (? & ? & ?)]; [congruence|].
        by right.
      * apply list_elem_of_singleton in Hin. injection Hin as -> -> ->. by left.
    + rewrite fmap_app. apply NoDup_app. repeat split.
      * apply clear_if_set_NoDup, (ok_nodup t Hok).
      * intros x Hx Hx'. simpl in Hx'. apply list_elem_of_singleton in Hx'. subst x.
        apply list_elem_of_fmap in Hx as (i & Hi1 & Hi).
        apply elem_of_clear_if_set in Hi as [Hi _].
        pose proof (ok_fresh t Hok _ Hi). lia.
      * simpl. apply NoDup_singleton.
    + intros h [= <-]. apply elem_of_app. right. left.
    + intros h Ha. apply elem_of_app. left. apply elem_of_clear_if_set. split.
      * by apply (ok_analytics t Hok).
      * simpl. intros Hs. by eapply (timers_ok_handles_differ t h h Hok).
    + intros i Hi. apply elem_of_app in Hi as [Hi | Hi].
      * apply elem_of_clear_if_set in Hi as [Hi _]. pose proof (ok_fresh t Hok _ Hi). lia.
      * apply list_elem_of_singleton in Hi. subst i. simpl. lia.
  - (* startAnalyticsSync *)
    split; simpl.
    + intros h j ms Hin. apply elem_of_app in Hin as [Hin | Hin].
      * apply elem_of_clear_if_set in Hin as [Hin Hne]. simpl in Hne.
        destruct (ok_kind t Hok _ _ _ Hin) as [(? & ? & ?) | (_ & Ha & _)]; [|congruence].
        by left.
      * apply list_elem_of_singleton in Hin. injection Hin as -> -> ->. by right.
    + rewrite fmap_app. apply NoDup_app. repeat split.
      * apply clear_if_set_NoDup, (ok_nodup t Hok).
      * intros x Hx Hx'. simpl in Hx'. apply list_elem_of_singleton in Hx'. subst x.
        apply list_elem_of_fmap in Hx as (i & Hi1 & Hi).
        apply elem_of_clear_if_set in Hi as [Hi _].
        pose proof (ok_fresh t Hok _ Hi). lia.
      * simpl. apply NoDup_singleton.
    + intros h Hs. apply elem_of_app. left. apply elem_of_clear_if_set. split.
      * by apply (ok_scheduler t Hok).
      * simpl. intros Ha. by eapply (timers_ok_handles_differ t h h Hok).
    + intros h [= <-]. apply elem_of_app. right. left.
    + intros i Hi. apply elem_of_app in Hi as [Hi | Hi].
      * apply elem_of_clear_if_set in Hi as [Hi _]. pose proof (ok_fresh t Hok _ Hi). lia.
      * apply list_elem_of_singleton in Hi. subst i. simpl. lia.
  - (* stopScheduler *)
    assert (Hempty : clear_if_set (analyticsInterval t)
                       (clear_if_set (schedulerInterval t) (intervals t)) = []).
    { apply elem_of_nil_inv. intros [h [j ms]] Hin.
      apply elem_of_clear_if_set in Hin as [Hin Ha].
      apply elem_of_clear_if_set in Hin as [Hin Hs]. simpl in *.
      destruct (ok_kind t Hok _ _ _ Hin) as [(_ & ? & _) | (_ & ? & _)]; done. }
    split; simpl; rewrite ?Hempty; try done.
    + intros h j ms Hin. inversion Hin.
    + constructor.
    + intros i Hi. inversion Hi.
Qed.

Lemma timers_ok_calls (cs : list timer_call) : timers_ok (calls cs).
Proof.
  unfold calls. induction cs as [|c cs IH] using rev_ind.
  - split; simpl; try done.
    + intros h j ms Hin. inversion Hin.
    + constructor.
    + intros i Hi. inversion Hi.
  - rewrite foldl_app. simpl. by apply timers_ok_start.
Qed.

Lemma intervals_of_ok (t : timers) (j : job) :
  timers_ok t →
  intervals_of j t
  = match j with
    | ProcessScheduledPins =>
        match schedulerInterval t with
        | Some h => [(h, (ProcessScheduledPins, 60000))]
        | None => []
        end
    | ProcessAnalyticsSync =>
        match analyticsInterval t with
        | Some h => [(h, (ProcessAnalyticsSync, 43200000))]
        | None => []
        end
    end.
Proof.
  intros Hok. unfold intervals_of.
  assert (Hnd : NoDup (filter (λ i : nat * (job * Z), i.2.1 = j) (intervals t))).
  { apply NoDup_filter. eapply NoDup_fmap_1, (ok_nodup t Hok). }
  destruct j.
  - destruct (schedulerInterval t) as [h|] eqn:Hs.
    + apply NoDup_all_equal; [done | |].
      * intros [h' [j' ms]] Hin. apply list_elem_of_filter in Hin as [Hj Hin]. simpl in Hj.
        destruct (ok_kind t Hok _ _ _ Hin) as [(_ & ? & ->) | (? & _)]; congruence.
      * apply list_elem_of_filter. split; [done|]. by apply (ok_scheduler t Hok).
    + apply elem_of_nil_inv. intros [h' [j' ms]] Hin.
      apply list_elem_of_filter in Hin as [Hj Hin]. simpl in Hj.
      destruct (ok_kind t Hok _ _ _ Hin) as [(_ & ? & _) | (? & _)]; congruence.
  - destruct (analyticsInterval t) as [h|] eqn:Ha.
    + apply NoDup_all_equal; [done | |].
      * intros [h' [j' ms]] Hin. apply list_elem_of_filter in Hin as [Hj Hin]. simpl in Hj.
        destruct (ok_kind t Hok _ _ _ Hin) as [(? & _) | (_ & ? & ->)]; congruence.
      * apply list_elem_of_filter. split; [done|]. by apply (ok_analytics t Hok).
    + apply elem_of_nil_inv. intros [h' [j' ms]] Hin.
      apply list_elem_of_filter in Hin as [Hj Hin]. simpl in Hj.
      destruct (ok_kind t Hok _ _ _ Hin) as [(? & _) | (_ & ? & _)]; congruence.
Qed.

Lemma timeouts_registered (cs : list timer_call) :
  length (timeouts (calls cs)) = length (filter (λ c, is_start c = true) cs).
Proof.
  unfold calls. induction cs as [|c cs IH] using rev_ind; [done|].
  rewrite foldl_app, filter_app, length_app. simpl.
  destruct c; simpl; rewrite ?length_app; simpl; rewrite IH; lia.
Qed.

(** X30. Whatever series of start and stop calls the module has seen, at
    most one interval per job is live, the one its module variable holds,
    with a period of one minute for the scheduler and of twelve hours for
    the analytics sync: starting twice replaces the interval and does not
    double the polling. After a stop no interval is live. The start-up
    timeouts are never cleared: every start call has registered one. *)
Theorem at_most_one_interval_per_job (cs : list timer_call) :
  let t := calls cs in
  intervals_of ProcessScheduledPins t
  = match schedulerInterval t with
    | Some h => [(h, (ProcessScheduledPins, 60000))]
    | None => []
    end
  ∧ intervals_of ProcessAnalyticsSync t
    = match analyticsInterval t with
      | Some h => [(h, (ProcessAnalyticsSync, 43200000))]
      | None => []
      end
  ∧ (length (intervals_of ProcessScheduledPins t) ≤ 1)%nat
  ∧ (length (intervals_of ProcessAnalyticsSync t) ≤ 1)%nat
  ∧ intervals (stopScheduler t) = []
  ∧ length (timeouts t) = length (filter (λ c, is_start c = true) cs).
Proof.
  intros t. pose proof (timers_ok_calls cs) as Hok. fold t in Hok.
  pose proof (intervals_of_ok t ProcessScheduledPins Hok) as Hs.
  pose proof (intervals_of_ok t ProcessAnalyticsSync Hok) as Ha.
  simpl in Hs, Ha. repeat split; try done.
  - rewrite Hs. destruct (schedulerInterval t); simpl; lia.
  - rewrite Ha. destruct (analyticsInterval t); simpl; lia.
  - pose proof (timers_ok_start t StopScheduler Hok) as Hstop. simpl in Hstop.
    apply elem_of_nil_inv. intros [h [j ms]] Hin.
    destruct (ok_kind _ Hstop _ _ _ Hin) as [(_ & ? & _) | (_ & ? & _)]; done.
  - apply timeouts_registered.
Qed.

(** Started twice, as a restart does: one scheduler interval, the second. *)
Example started_twice :
  intervals (calls [StartScheduler; StartAnalyticsSync; StartScheduler])
  = [(2%nat, (ProcessAnalyticsSync, 43200000)); (4%nat, (ProcessScheduledPins, 60000))].
Proof. vm_compute. reflexivity. Qed.

Lemma template_upsert_takes_ownership_witness :
  let id_text := filter_text no_ToString in
  let id := id_text (prop "id" sample_template) in
  let saved := post_custom_template id_text (Some "user-1") sample_template 2000 None
                 templates_of_user_2 in
  saved.2 = TemplatesOk
  ∧ (∃ row, saved.1 !! id = Some row ∧ template_user_id row = "user-1"
            ∧ template_json row = sample_template ∧ updated_at row = 2000)
  ∧ (∀ j, j ≠ id → saved.1 !! j = templates_of_user_2 !! j)
  ∧ ("user-2" ≠ "user-1" →
       delete_custom_template (Some "user-2") id None saved.1 = (saved.1, TemplatesOk))
  ∧ (∀ j deleteError,
       let deleted := delete_custom_template (Some "user-2") j deleteError
                        templates_of_user_2 in
       (∀ i row, templates_of_user_2 !! i = Some row →
                 template_user_id row ≠ "user-2" ∨ i ≠ j → deleted.1 !! i = Some row)
       ∧ (∀ row, templates_of_user_2 !! j = Some row → template_user_id row = "user-2" →
                 deleteError = None → deleted.1 !! j = None)
       ∧ (∀ i, templates_of_user_2 !! i = None → deleted.1 !! i = None)).
Proof.
  intros id_text.
  apply (template_upsert_takes_ownership id_text "user-1" "user-2" sample_template 2000
           templates_of_user_2); reflexivity.
Defined.

(** The template of [user-2], saved again by [user-1] under the same id:
    the row now belongs to [user-1]. *)
Example template_changes_hands :
  template_user_id
  <$> (post_custom_template (filter_text no_ToString) (Some "user-1") sample_template 2000
         None templates_of_user_2).1 !! "tpl-1"
  = Some "user-1".
Proof. vm_compute. reflexivity. Qed.
